(** * Ring buffers of bmharper/ringbuffer: a shallow embedding and its properties

    The repository has four circular buffers that share one indexing
    discipline (power-of-two storage, [mask = len - 1], one slot kept free):

    - [Ring]           bytes, stream and direct access, grows in place;
    - [RingP]          values, fixed storage, overwrites the oldest;
    - [RingT]          pointers, bounded count, storage grows by doubling;
    - [WeightedRingT]  pointers, bounded total weight, storage grows by doubling.

    Go's [uint] and [int] are 64-bit; they are modelled as [Z] with the
    wrap-around written where the source computes.  A method that assigns
    to its receiver or indexes an array becomes a function from the
    receiver's state to an [outcome] that carries the results and the new
    state; the accessors ([Len], [IsFull], [mask], ...) are functions of the
    state. *)

From Stdlib Require Import ZArith Lia Strings.Byte.
From stdpp Require Import base numbers option list.

Local Open Scope Z_scope.

(** ** Machine integers *)

(** [uint] arithmetic wraps modulo 2^64. *)
Definition uwrap (z : Z) : Z := z mod 2 ^ 64.

(** [int] arithmetic wraps into [-2^63, 2^63). *)
Definition iwrap (z : Z) : Z := (z + 2 ^ 63) mod 2 ^ 64 - 2 ^ 63.

(** The values of an [int]. *)
Definition is_int (z : Z) : Prop := - 2 ^ 63 ≤ z < 2 ^ 63.

(** The sum of a list of integers. *)
Definition zsum (l : list Z) : Z := foldr Z.add 0 l.

(** [len(s)] as a Go [int]. *)
Definition len {A} (l : list A) : Z := Z.of_nat (length l).

(** ** Outcomes of a call *)

(** A call returns, panics (index or slice bounds out of range, an
    explicit [panic]), or never returns. *)
Inductive outcome (A : Type) : Type :=
| Ok (a : A)
| Panic
| Diverge.
Arguments Ok {A} a.
Arguments Panic {A}.
Arguments Diverge {A}.

Global Instance outcome_ret : MRet outcome := λ A a, Ok a.
Global Instance outcome_bind : MBind outcome := λ A B k m,
  match m with
  | Ok a => k a
  | Panic => Panic
  | Diverge => Diverge
  end.

(** The last [n] elements of a list (all of it when it is shorter). *)
Definition lastn {A} (n : nat) (l : list A) : list A := drop (length l - n) l.

(** ** Sequences of operations on a queue *)

(** A caller's operations on a ring of [A]. *)
Inductive op (A : Type) : Type :=
| OpAdd (x : A)
| OpNext.
Arguments OpAdd {A} x.
Arguments OpNext {A}.

(** The values a sequence of operations inserts, in order. *)
Definition inserted {A} (ops : list (op A)) : list A :=
  ops ≫= (λ o, match o with OpAdd x => [x] | OpNext => [] end).

(** The sequence has no removal. *)
Definition only_adds {A} (ops : list (op A)) : Prop :=
  Forall (λ o, match o with OpAdd _ => True | OpNext => False end) ops.

(** The queue of at most [M] elements that the operations describe: an
    insertion into a queue of [M] elements drops the oldest first, a
    removal drops the oldest.  Oldest first. *)
Definition survivors_step {A} (M : nat) (q : list A) (o : op A) : list A :=
  match o with
  | OpAdd x => (if decide (length q = M) then drop 1 q else q) ++ [x]
  | OpNext => drop 1 q
  end.

Definition survivors {A} (M : nat) (ops : list (op A)) : list A :=
  fold_left (survivors_step M) ops [].

(** Slot [j] lies in the region from [tail] up to [head], which may wrap. *)
Definition live (tail head j : Z) : Prop :=
  if decide (tail ≤ head) then tail ≤ j < head else tail ≤ j ∨ j < head.

(** ** Slices and indexing *)

(** [s[i]] for reading: out of range panics. *)
Definition index {A} (l : list A) (i : Z) : outcome A :=
  if bool_decide (0 ≤ i < len l) then
    match l !! Z.to_nat i with
    | Some x => Ok x
    | None => Panic
    end
  else Panic.

(** [s[i] = x]: out of range panics. *)
Definition assign {A} (l : list A) (i : Z) (x : A) : outcome (list A) :=
  if bool_decide (0 ≤ i < len l) then Ok (<[Z.to_nat i := x]> l) else Panic.

(** A slice [s[lo:hi]] of a backing array is kept as a window, its start
    and its length, so that writing through it updates the array it views.
    Bounds are checked against the length of the array: the spare capacity
    that [append] may leave is not modelled, hence the model panics at least
    wherever Go does. *)
Definition window : Type := nat * nat.

Definition wlen (w : window) : Z := Z.of_nat (snd w).

Definition slice {A} (buf : list A) (lo hi : Z) : outcome window :=
  if bool_decide (0 ≤ lo ∧ lo ≤ hi ∧ hi ≤ len buf)
  then Ok (Z.to_nat lo, Z.to_nat (hi - lo))
  else Panic.

(** The bytes seen through a window. *)
Definition view {A} (buf : list A) (w : window) : list A :=
  take (snd w) (drop (fst w) buf).

(** [copy(dst, src)] where [dst] is the window [w] of [buf]: the first
    [min(len(dst), len(src))] elements of [src] overwrite the start of the
    window.  Returns the array after the copy. *)
Definition copy {A} (buf : list A) (w : window) (src : list A) : list A :=
  let n := Nat.min (snd w) (length src) in
  take (fst w) buf ++ take n src ++ drop (fst w + n)%nat buf.

(** ** The elements of a ring, oldest first *)

(** The [n] slots met from slot [t] on, wrapping at the end of the array. *)
Definition circ {A} (l : list A) (t n : nat) : list A := take n (drop t (l ++ l)).

(** Slot [j] of an array of [L] slots lies among the [n] slots from [t] on. *)
Definition occupied (L t n j : nat) : Prop :=
  (t ≤ j < t + n)%nat ∨ (j + L < t + n)%nat.

(** The index reached from [t] after [i] steps in an array of [L] slots. *)
Definition wrap_at (L x : nat) : nat := if decide (x < L)%nat then x else (x - L)%nat.

(** ** Ring: the byte ring *)

Module ByteRing.

(** Start buffer at 64 bytes. *)
Definition DefaultSize : Z := 64.

(** [type Ring struct { head uint; tail uint; data []byte }] *)
Record Ring : Type := mkRing { head : Z; tail : Z; data : list byte }.

(** The zero value for Ring is an empty buffer ready to use. *)
Definition zero : Ring := mkRing 0 0 [].

(** [io.EOF], the only error value these methods return. *)
Inductive error : Type := EOF.

(** [func (r *Ring) end() uint] *)
Definition end_ (r : Ring) : Z := uwrap (len (data r)).

(** [func (r *Ring) mask() uint] *)
Definition mask (r : Ring) : Z := uwrap (uwrap (len (data r)) - 1).

(** [func (r *Ring) Len() int] *)
Definition Len (r : Ring) : Z :=
  iwrap (Z.land (uwrap (head r - tail r)) (mask r)).

(** [for cap < needCap { cap *= 2 }].  Sixty-four doublings turn any
    [uint] into 0, after which the loop can no longer exit: running out of
    fuel is divergence of the source loop. *)
Fixpoint double_until (fuel : nat) (cap needCap : Z) : outcome Z :=
  if cap <? needCap then
    match fuel with
    | O => Diverge
    | S fuel' => double_until fuel' (uwrap (cap * 2)) needCap
    end
  else Ok cap.

(** [func (r *Ring) ensureCapacity(forBytes uint)] *)
Definition ensureCapacity (r : Ring) (forBytes : Z) : outcome Ring :=
  let needCap := uwrap (uwrap (forBytes + uwrap (Len r)) + 1) in
  if needCap <=? uwrap (len (data r)) then Ok r
  else
    let orgCap := uwrap (len (data r)) in
    let cap := orgCap in
    let cap := if cap <? DefaultSize then DefaultSize else cap in
    cap ← double_until 64 cap needCap;
    let extra := iwrap (uwrap (cap - orgCap)) in
    let data1 := data r ++ replicate (Z.to_nat extra) x00 in
    if head r <? tail r then
      let buf := data1 in
      dst ← slice buf orgCap (uwrap (orgCap + head r));
      src ← slice buf 0 (head r);
      Ok (mkRing (uwrap (head r + orgCap)) (tail r) (copy buf dst (view buf src)))
    else Ok (mkRing (head r) (tail r) data1).

(** [func (r *Ring) DirectWrite(numBytes int) []byte]: the slice returned
    is a window of the ring's storage after the call. *)
Definition DirectWrite (r : Ring) (numBytes : Z) : outcome (window * Ring) :=
  r ← ensureCapacity r (uwrap (iwrap (Len r + numBytes)));
  let numBytes :=
    if iwrap (uwrap (end_ r - head r)) <? numBytes
    then iwrap (uwrap (end_ r - head r)) else numBytes in
  s ← slice (data r) (iwrap (head r)) (iwrap (iwrap (head r) + numBytes));
  Ok (s, mkRing (Z.land (uwrap (head r + uwrap numBytes)) (mask r)) (tail r) (data r)).

(** [func (r *Ring) DirectRead(numBytes int) []byte]: the [nil] slice is
    the empty window. *)
Definition DirectRead (r : Ring) (numBytes : Z) : outcome (window * Ring) :=
  let numBytes := if numBytes >? Len r then Len r else numBytes in
  let numBytes :=
    if numBytes >? iwrap (uwrap (end_ r - tail r))
    then iwrap (uwrap (end_ r - tail r)) else numBytes in
  if numBytes <=? 0 then Ok ((0%nat, 0%nat), r)
  else
    res ← slice (data r) (tail r) (uwrap (tail r + uwrap numBytes));
    Ok (res, mkRing (head r) (Z.land (uwrap (tail r + uwrap numBytes)) (mask r)) (data r)).

(** [func (r *Ring) Read(b []byte) (int, error)]: returns the count, the
    error, the caller's buffer after the two copies, and the ring. *)
Definition Read (r : Ring) (b : list byte)
  : outcome (Z * option error * list byte * Ring) :=
  '(s1, r) ← DirectRead r (len b);
  let b1 := copy b (0%nat, length b) (view (data r) s1) in
  '(s2, r) ← DirectRead r (iwrap (len b - wlen s1));
  rest ← slice b1 (wlen s1) (len b);
  let b2 := copy b1 rest (view (data r) s2) in
  let total := iwrap (wlen s1 + wlen s2) in
  if (total =? 0) && (Len r =? 0)
  then Ok (total, Some EOF, b2, r)
  else Ok (total, None, b2, r).

(** [func (r *Ring) Write(b []byte) (int, error)]: the error is always [nil]. *)
Definition Write (r : Ring) (b : list byte) : outcome (Z * option error * Ring) :=
  '(b1, r) ← DirectWrite r (len b);
  let r := mkRing (head r) (tail r) (copy (data r) b1 b) in
  if bool_decide (wlen b1 ≠ len b) then
    '(b2, r) ← DirectWrite r (iwrap (len b - wlen b1));
    rest ← slice b (wlen b1) (len b);
    let r := mkRing (head r) (tail r) (copy (data r) b2 (view b rest)) in
    Ok (len b, None, r)
  else Ok (len b, None, r).

(** The ring's invariant: no storage yet, or storage of [2^k] bytes and
    both indices inside it. *)
Definition wf (r : Ring) : Prop :=
  (data r = [] ∧ tail r = 0 ∧ head r = 0) ∨
  (∃ k, 0 ≤ k ≤ 62 ∧ len (data r) = 2 ^ k ∧
        0 ≤ tail r < 2 ^ k ∧ 0 ≤ head r < 2 ^ k).

(** The unread bytes, oldest first. *)
Definition content (r : Ring) : list byte :=
  circ (data r) (Z.to_nat (tail r)) (Z.to_nat (Len r)).

(** [func ringContent(r *Ring) []byte] of the tests: "Returns the content
    of the buffer without modifying it".  It panics when its own count of
    the bytes disagrees with [Len]. *)
Definition ringContent (r : Ring) : outcome (list byte) :=
  if Len r <? 0 then Panic
  else
    let buf := replicate (Z.to_nat (Len r)) x00 in
    let s := uwrap (end_ r - tail r) in
    let s := if head r >=? tail r then uwrap (head r - tail r) else s in
    src ← slice (data r) (tail r) (uwrap (tail r + s));
    let buf := copy buf (0%nat, length buf) (view (data r) src) in
    if head r <? tail r then
      if bool_decide (iwrap (uwrap (head r + s)) ≠ Len r) then Panic
      else
        dst ← slice buf s (len buf);
        src ← slice (data r) 0 (head r);
        Ok (copy buf dst (view (data r) src))
    else
      if bool_decide (iwrap s ≠ Len r) then Panic else Ok buf.

(** A caller's calls on the stream: [Write(b)], and [Read] into a fresh
    buffer [make([]byte, n)]. *)
Inductive sop : Type :=
| SWrite (b : list byte)
| SRead (n : nat).

(** What a call hands back: the count, the error, and for [Read] the
    caller's buffer after the call. *)
Definition sres : Type := (Z * option error * list byte)%type.

Definition sstep (r : Ring) (o : sop) : outcome (sres * Ring) :=
  match o with
  | SWrite b => '(n, e, r) ← Write r b; Ok ((n, e, []), r)
  | SRead n => '(k, e, buf, r) ← Read r (replicate n x00); Ok ((k, e, buf), r)
  end.

Fixpoint srun (ops : list sop) (r : Ring) : outcome (list sres * Ring) :=
  match ops with
  | [] => Ok ([], r)
  | o :: ops => '(x, r) ← sstep r o; '(xs, r) ← srun ops r; Ok (x :: xs, r)
  end.

(** The same calls on an unbounded queue of bytes, oldest first. *)
Definition qstep (q : list byte) (o : sop) : sres * list byte :=
  match o with
  | SWrite b => ((len b, None, []), q ++ b)
  | SRead n =>
      let k := Nat.min n (length q) in
      ((Z.of_nat k, (if decide (q = []) then Some EOF else None),
        take k q ++ replicate (n - k) x00),
       drop k q)
  end.

Fixpoint qrun (ops : list sop) (q : list byte) : list sres * list byte :=
  match ops with
  | [] => ([], q)
  | o :: ops =>
      let '(x, q) := qstep q o in
      let '(xs, q) := qrun ops q in
      (x :: xs, q)
  end.

(** The bytes the calls carry: those written and the sizes of the read buffers. *)
Definition traffic (ops : list sop) : Z :=
  zsum ((λ o, match o with SWrite b => len b | SRead n => Z.of_nat n end) <$> ops).

(** The storage is absent or holds at least [DefaultSize] bytes. *)
Definition sized (r : Ring) : Prop :=
  data r = [] ∨ ∃ k, 6 ≤ k ≤ 62 ∧ len (data r) = 2 ^ k.

End ByteRing.

(** ** RingP: the fixed ring of values *)

Module RingP.
Section RingP.
Context {T : Type}.
(** The zero value of [T]. *)
Variable zeroT : T.

(** [type RingP[T any] struct { items []T; mask uint; tail uint; head uint }] *)
Record RingP : Type := mkRingP { items : list T; mask : Z; tail : Z; head : Z }.

(** [func NewRingP[T any](sizePlus1 int) RingP[T]].  [make] is taken to
    succeed: the limit that the Go runtime puts on the size of one
    allocation is not modelled, so [Ok] says what the call returns if
    the allocation of [sizePlus1] slots succeeds. *)
Definition NewRingP (sizePlus1 : Z) : outcome RingP :=
  if bool_decide (Z.land sizePlus1 (iwrap (sizePlus1 - 1)) ≠ 0 ∨ sizePlus1 < 2)
  then Panic
  else Ok (mkRingP (replicate (Z.to_nat sizePlus1) zeroT) (uwrap (uwrap sizePlus1 - 1)) 0 0).

(** [func (r *RingP[T]) Capacity() int] *)
Definition Capacity (r : RingP) : Z := iwrap (mask r).

(** [func (r *RingP[T]) Len() int] *)
Definition Len (r : RingP) : Z :=
  iwrap (Z.land (uwrap (head r - tail r)) (mask r)).

(** [func (r *RingP[T]) IsFull() bool] *)
Definition IsFull (r : RingP) : bool := Len r =? iwrap (mask r).

(** [func (r *RingP[T]) Next() T] *)
Definition Next (r : RingP) : outcome (T * RingP) :=
  if Len r =? 0 then Ok (zeroT, r)
  else
    let t := tail r in
    let r := mkRingP (items r) (mask r) (Z.land (uwrap (tail r + 1)) (mask r)) (head r) in
    item ← index (items r) t;
    Ok (item, r).

(** [func (r *RingP[T]) Peek(i int) T] *)
Definition Peek (r : RingP) (i : Z) : outcome (T * RingP) :=
  let length := Z.land (uwrap (head r - tail r)) (mask r) in
  let ui := uwrap i in
  if ui >=? length then Ok (zeroT, r)
  else
    let j := Z.land (uwrap (tail r + ui)) (mask r) in
    item ← index (items r) j;
    Ok (item, r).

(** The two statements that end [Add]:
    [r.items[r.head] = item; r.head = (r.head + 1) & r.mask]. *)
Definition put (r : RingP) (item : T) : outcome RingP :=
  items' ← assign (items r) (head r) item;
  Ok (mkRingP items' (mask r) (tail r) (Z.land (uwrap (head r + 1)) (mask r))).

(** [func (r *RingP[T]) Add(item T)] *)
Definition Add (r : RingP) (item : T) : outcome RingP :=
  r ← (if IsFull r then '(_, r) ← Next r; Ok r else Ok r);
  put r item.

(** The ring's invariant: storage of [2^k] slots, [mask] one less, and
    both indices inside the storage. *)
Definition wf (r : RingP) : Prop :=
  ∃ k, 1 ≤ k ≤ 62 ∧ len (items r) = 2 ^ k ∧ mask r = 2 ^ k - 1 ∧
       0 ≤ tail r < 2 ^ k ∧ 0 ≤ head r < 2 ^ k.

(** The stored values, oldest first. *)
Definition content (r : RingP) : list T :=
  circ (items r) (Z.to_nat (tail r)) (Z.to_nat (Len r)).

(** [Peek(0)], ..., [Peek(Len()-1)]. *)
Definition peeks (r : RingP) : list (outcome (T * RingP)) :=
  (λ i, Peek r i) <$> seqZ 0 (Len r).

Definition step (r : RingP) (o : op T) : outcome RingP :=
  match o with
  | OpAdd x => Add r x
  | OpNext => '(_, r) ← Next r; Ok r
  end.

Fixpoint run (ops : list (op T)) (r : RingP) : outcome RingP :=
  match ops with
  | [] => Ok r
  | o :: ops => r ← step r o; run ops r
  end.

End RingP.
Arguments RingP : clear implicits.
End RingP.

(** ** RingT: the bounded ring of pointers *)

Module RingT.
Section RingT.
Context {T : Type}.

(** [type RingT[T any] struct { items []*T; mask uint; tail uint; head uint; maxSize int }];
    a [*T] is [Some] referent or [None] for [nil]. *)
Record RingT : Type :=
  mkRingT { items : list (option T); mask : Z; tail : Z; head : Z; maxSize : Z }.

(** [func NewRingT[T any](maxSize int) RingT[T]] *)
Definition NewRingT (maxSize : Z) : outcome RingT :=
  if maxSize <? 1 then Panic else Ok (mkRingT [] 0 0 0 maxSize).

(** [func (r *RingT[T]) MaxSize() int] *)
Definition MaxSize (r : RingT) : Z := maxSize r.

(** [func (r *RingT[T]) Len() int] *)
Definition Len (r : RingT) : Z :=
  iwrap (Z.land (uwrap (head r - tail r)) (mask r)).

(** [func (r *RingT[T]) IsFull() bool] *)
Definition IsFull (r : RingT) : bool := Len r =? maxSize r.

(** [func (r *RingT[T]) Next() *T] *)
Definition Next (r : RingT) : outcome (option T * RingT) :=
  if Len r =? 0 then Ok (None, r)
  else
    let t := tail r in
    let r := mkRingT (items r) (mask r) (Z.land (uwrap (tail r + 1)) (mask r)) (head r) (maxSize r) in
    item ← index (items r) t;
    items' ← assign (items r) t None;
    Ok (item, mkRingT items' (mask r) (tail r) (head r) (maxSize r)).

(** [func (r *RingT[T]) Peek(i int) *T] *)
Definition Peek (r : RingT) (i : Z) : outcome (option T * RingT) :=
  let length := Z.land (uwrap (head r - tail r)) (mask r) in
  let ui := uwrap i in
  if ui >=? length then Ok (None, r)
  else
    let j := Z.land (uwrap (tail r + ui)) (mask r) in
    item ← index (items r) j;
    Ok (item, r).

(** The loop of [Add] that moves the elements to the new array:
    [for i := 0; i < n; i++ { item := r.Next(); newItems[i] = item }],
    with [k] iterations left. *)
Fixpoint drain (k : nat) (i : Z) (r : RingT) (newItems : list (option T))
  : outcome (RingT * list (option T)) :=
  match k with
  | O => Ok (r, newItems)
  | S k' =>
      '(item, r) ← Next r;
      newItems ← assign newItems i item;
      drain k' (iwrap (i + 1)) r newItems
  end.

(** The body of [if len(r.items) == 0 || r.Len() == len(r.items)-1] in [Add]. *)
Definition grow (r : RingT) : outcome RingT :=
  let newSize := iwrap (len (items r) * 2) in
  let newSize := if newSize <? 2 then 2 else newSize in
  let newItems := replicate (Z.to_nat newSize) None in
  let n := Len r in
  '(r, newItems) ← drain (Z.to_nat n) 0 r newItems;
  Ok (mkRingT newItems (uwrap (uwrap newSize - 1)) 0 (uwrap n) (maxSize r)).

(** The two statements that end [Add]:
    [r.items[r.head] = item; r.head = (r.head + 1) & r.mask]. *)
Definition put (r : RingT) (item : option T) : outcome RingT :=
  items' ← assign (items r) (head r) item;
  Ok (mkRingT items' (mask r) (tail r) (Z.land (uwrap (head r + 1)) (mask r)) (maxSize r)).

(** [func (r *RingT[T]) Add(item *T)] *)
Definition Add (r : RingT) (item : option T) : outcome RingT :=
  r ← (if Len r =? maxSize r then '(_, r) ← Next r; Ok r else Ok r);
  r ← (if (len (items r) =? 0) || (Len r =? iwrap (len (items r) - 1))
       then grow r else Ok r);
  put r item.

(** The ring's invariant: no storage yet, or storage of [2^k] slots with
    [mask] one less and both indices inside it. *)
Definition wf (r : RingT) : Prop :=
  (items r = [] ∧ mask r = 0 ∧ tail r = 0 ∧ head r = 0) ∨
  (∃ k, 1 ≤ k ≤ 62 ∧ len (items r) = 2 ^ k ∧ mask r = 2 ^ k - 1 ∧
        0 ≤ tail r < 2 ^ k ∧ 0 ≤ head r < 2 ^ k).

(** The stored pointers, oldest first. *)
Definition content (r : RingT) : list (option T) :=
  circ (items r) (Z.to_nat (tail r)) (Z.to_nat (Len r)).

(** Every slot outside the occupied region holds [nil]. *)
Definition cleared (r : RingT) : Prop :=
  ∀ j, 0 ≤ j < len (items r) → ¬ live (tail r) (head r) j →
       items r !! Z.to_nat j = Some None.

(** The count stays within [maxSize], and the storage within twice that. *)
Definition bounded (r : RingT) : Prop :=
  1 ≤ maxSize r ≤ 2 ^ 61 ∧ Len r ≤ maxSize r ∧ len (items r) ≤ 2 * maxSize r.

Definition inv (r : RingT) : Prop := wf r ∧ bounded r ∧ cleared r.

(** [Peek(0)], ..., [Peek(Len()-1)]. *)
Definition peeks (r : RingT) : list (outcome (option T * RingT)) :=
  (λ i, Peek r i) <$> seqZ 0 (Len r).

Definition step (r : RingT) (o : op (option T)) : outcome RingT :=
  match o with
  | OpAdd x => Add r x
  | OpNext => '(_, r) ← Next r; Ok r
  end.

Fixpoint run (ops : list (op (option T))) (r : RingT) : outcome RingT :=
  match ops with
  | [] => Ok r
  | o :: ops => r ← step r o; run ops r
  end.

End RingT.
Arguments RingT : clear implicits.
End RingT.

(** ** WeightedRingT: the ring bounded by total weight *)

Module WeightedRingT.
Section WeightedRingT.
Context {T : Type}.

(** [type WeightedRingT[T any] struct { MaxWeight int; weight int;
    items []*T; weights []int; tail uint; head uint }] *)
Record WeightedRingT : Type :=
  mkWeightedRingT {
    MaxWeight : Z; weight : Z;
    items : list (option T); weights : list Z;
    tail : Z; head : Z }.

(** [func NewWeightedRingT[T any](maxWeight int) WeightedRingT[T]] *)
Definition NewWeightedRingT (maxWeight : Z) : WeightedRingT :=
  mkWeightedRingT maxWeight 0 [] [] 0 0.

(** [func (r *WeightedRingT[T]) mask() uint] *)
Definition mask (r : WeightedRingT) : Z := uwrap (uwrap (len (items r)) - 1).

(** [func (r *WeightedRingT[T]) Len() int] *)
Definition Len (r : WeightedRingT) : Z :=
  iwrap (Z.land (uwrap (head r - tail r)) (mask r)).

(** [func (r *WeightedRingT[T]) Weight() int] *)
Definition Weight (r : WeightedRingT) : Z := weight r.

(** [func (r *WeightedRingT[T]) Next() (haveItem bool, item *T, weight int)] *)
Definition Next (r : WeightedRingT) : outcome (bool * option T * Z * WeightedRingT) :=
  if Len r =? 0 then Ok (false, None, 0, r)
  else
    let t := tail r in
    let tail' := Z.land (uwrap (tail r + 1)) (mask r) in
    w ← index (weights r) t;
    let weight' := iwrap (weight r - w) in
    item ← index (items r) t;
    items' ← assign (items r) t None;
    Ok (true, item, w,
        mkWeightedRingT (MaxWeight r) weight' items' (weights r) tail' (head r)).

(** The loop of [Add] that moves the elements and their weights to the new arrays. *)
Fixpoint drain (k : nat) (i : Z) (r : WeightedRingT)
    (newItems : list (option T)) (newWeights : list Z)
  : outcome (WeightedRingT * list (option T) * list Z) :=
  match k with
  | O => Ok (r, newItems, newWeights)
  | S k' =>
      '(_, item, w, r) ← Next r;
      newItems ← assign newItems i item;
      newWeights ← assign newWeights i w;
      drain k' (iwrap (i + 1)) r newItems newWeights
  end.

(** The body of [if len(r.items) == 0 || r.Len() == len(r.items)-1] in [Add]. *)
Definition grow (r : WeightedRingT) : outcome WeightedRingT :=
  let newSize := iwrap (len (items r) * 2) in
  let newSize := if newSize <? 4 then 4 else newSize in
  let newItems := replicate (Z.to_nat newSize) None in
  let newWeights := replicate (Z.to_nat newSize) 0 in
  let orgWeight := weight r in
  let n := Len r in
  '(r, newItems, newWeights) ← drain (Z.to_nat n) 0 r newItems newWeights;
  Ok (mkWeightedRingT (MaxWeight r) orgWeight newItems newWeights 0 (uwrap n)).

(** [for r.weight+weight > r.MaxWeight && r.Len() != 0 { r.Next() }]:
    every iteration removes one element, so the number of stored elements
    is fuel enough. *)
Fixpoint evict (fuel : nat) (r : WeightedRingT) (w : Z) : outcome WeightedRingT :=
  if (iwrap (weight r + w) >? MaxWeight r) && negb (Len r =? 0) then
    match fuel with
    | O => Diverge
    | S fuel' => '(_, r) ← Next r; evict fuel' r w
    end
  else Ok r.

(** The four statements that end [Add]:
    [r.items[r.head] = item; r.weights[r.head] = weight; r.weight += weight;
     r.head = (r.head + 1) & r.mask()]. *)
Definition put (r : WeightedRingT) (w : Z) (item : option T) : outcome WeightedRingT :=
  items' ← assign (items r) (head r) item;
  weights' ← assign (weights r) (head r) w;
  Ok (mkWeightedRingT (MaxWeight r) (iwrap (weight r + w)) items' weights'
        (tail r) (Z.land (uwrap (head r + 1)) (mask r))).

(** [func (r *WeightedRingT[T]) Add(weight int, item *T)] *)
Definition Add (r : WeightedRingT) (w : Z) (item : option T) : outcome WeightedRingT :=
  r ← (if (len (items r) =? 0) || (Len r =? iwrap (len (items r) - 1))
       then grow r else Ok r);
  r ← evict (Z.to_nat (Len r)) r w;
  put r w item.

(** [func (r *WeightedRingT[T]) peek(i uint) (item *T, weight int)] *)
Definition peek (r : WeightedRingT) (i : Z) : outcome (option T * Z * WeightedRingT) :=
  let j := Z.land (uwrap (tail r + i)) (mask r) in
  item ← index (items r) j;
  w ← index (weights r) j;
  Ok (item, w, r).

(** Modelled from the spec: [func (r *WeightedRingT[T]) Peek(i int)
    (exists bool, item *T, weight int)], the exported query that
    weighted_test.go calls; the sources hold only the unexported [peek]
    above.  The spec: "peek(i) returns the element at logical offset i
    from tail without mutating state; returns absent if i < 0 or
    i >= length()", and for this ring "peek(i) returns (exists,
    reference, weight); exists=false yields a nil reference and zero
    weight, mutating nothing".  In range, the element at offset [i] from
    [tail] and its weight are what [peek] reads. *)
Definition Peek (r : WeightedRingT) (i : Z)
  : outcome (bool * option T * Z * WeightedRingT) :=
  if (i <? 0) || (i >=? Len r) then Ok (false, None, 0, r)
  else '(item, w, r) ← peek r (uwrap i); Ok (true, item, w, r).

(** The ring's invariant: no storage yet, or two arrays of [2^k] slots
    and both indices inside them. *)
Definition wf (r : WeightedRingT) : Prop :=
  (items r = [] ∧ weights r = [] ∧ tail r = 0 ∧ head r = 0) ∨
  (∃ k, 2 ≤ k ≤ 62 ∧ len (items r) = 2 ^ k ∧ len (weights r) = 2 ^ k ∧
        0 ≤ tail r < 2 ^ k ∧ 0 ≤ head r < 2 ^ k).

(** The stored pointers, oldest first. *)
Definition content (r : WeightedRingT) : list (option T) :=
  circ (items r) (Z.to_nat (tail r)) (Z.to_nat (Len r)).

(** The weights of the stored elements, oldest first. *)
Definition live_weights (r : WeightedRingT) : list Z :=
  circ (weights r) (Z.to_nat (tail r)) (Z.to_nat (Len r)).

(** Every slot outside the occupied region holds [nil]. *)
Definition cleared (r : WeightedRingT) : Prop :=
  ∀ j, 0 ≤ j < len (items r) → ¬ live (tail r) (head r) j →
       items r !! Z.to_nat j = Some None.

(** The running total is the sum of the live weights, as an [int]. *)
Definition inv (r : WeightedRingT) : Prop :=
  wf r ∧ cleared r ∧ weight r = iwrap (zsum (live_weights r)).

(** A caller's operations on a weighted ring. *)
Inductive wop : Type :=
| WAdd (w : Z) (x : option T)
| WNext.

Definition step (r : WeightedRingT) (o : wop) : outcome WeightedRingT :=
  match o with
  | WAdd w x => Add r w x
  | WNext => '(_, r) ← Next r; Ok r
  end.

Fixpoint run (ops : list wop) (r : WeightedRingT) : outcome WeightedRingT :=
  match ops with
  | [] => Ok r
  | o :: ops => r ← step r o; run ops r
  end.

(** The stored elements with their weights, oldest first. *)
Definition pairs (r : WeightedRingT) : list (Z * option T) :=
  zip (live_weights r) (content r).

(** The queue that TestWeightedRingT keeps beside the ring: [val], the
    elements with their weights, and [valW], the total.  The loop of its
    [add]: [for valW+weight > ring.MaxWeight && len(val) != 0
            { valW -= val[0].weight; val = val[1:] }]. *)
Fixpoint ref_evict (W : Z) (val : list (Z * option T)) (valW w : Z)
  : list (Z * option T) * Z :=
  match val with
  | [] => ([], valW)
  | p :: val' =>
      if iwrap (valW + w) >? W then ref_evict W val' (iwrap (valW - p.1)) w
      else (val, valW)
  end.

(** [add] of the test: [val = append(val, t); valW += weight] after the loop. *)
Definition ref_add (W : Z) (st : list (Z * option T) * Z) (w : Z) (x : option T)
  : list (Z * option T) * Z :=
  let '(val, valW) := ref_evict W st.1 st.2 w in
  (val ++ [(w, x)], iwrap (valW + w)).

(** [chomp] of the test: [valW -= val[0].weight; val = val[1:]] unless empty. *)
Definition ref_chomp (st : list (Z * option T) * Z) : list (Z * option T) * Z :=
  match st.1 with
  | [] => st
  | p :: val' => (val', iwrap (st.2 - p.1))
  end.

Definition ref_step (W : Z) (st : list (Z * option T) * Z) (o : wop)
  : list (Z * option T) * Z :=
  match o with
  | WAdd w x => ref_add W st w x
  | WNext => ref_chomp st
  end.

Definition ref_run (W : Z) (ops : list wop) : list (Z * option T) * Z :=
  fold_left (ref_step W) ops ([], 0).

End WeightedRingT.
Arguments WeightedRingT : clear implicits.
Arguments wop : clear implicits.
End WeightedRingT.

(** * Properties *)

(** ** Machine integers *)

Lemma uwrap_small z : 0 ≤ z < 2 ^ 64 → uwrap z = z.
Proof. intros H. unfold uwrap. apply Z.mod_small. exact H. Qed.

Lemma iwrap_small z : - 2 ^ 63 ≤ z < 2 ^ 63 → iwrap z = z.
Proof. intros H. unfold iwrap. rewrite Z.mod_small; lia. Qed.

Lemma pow2_bounds k : 0 ≤ k ≤ 62 → 1 ≤ 2 ^ k ≤ 2 ^ 62.
Proof.
  intros H. split.
  - assert (0 < 2 ^ k) by (apply Z.pow_pos_nonneg; lia). lia.
  - apply Z.pow_le_mono_r; lia.
Qed.

Lemma pow2_le_inv k j : 0 ≤ k → 0 ≤ j → 2 ^ k ≤ 2 ^ j → k ≤ j.
Proof.
  intros Hk Hj Hle. destruct (decide (k ≤ j)); [done|].
  assert (2 ^ j < 2 ^ k) by (apply Z.pow_lt_mono_r; lia). lia.
Qed.

Lemma mask_pow2 k : 0 ≤ k ≤ 62 → uwrap (uwrap (2 ^ k) - 1) = 2 ^ k - 1.
Proof.
  intros H. pose proof (pow2_bounds k H).
  rewrite (uwrap_small (2 ^ k)) by lia. apply uwrap_small. lia.
Qed.

Lemma land_mask z k : 0 ≤ k ≤ 62 → Z.land (uwrap z) (2 ^ k - 1) = z mod 2 ^ k.
Proof.
  intros H. replace (2 ^ k - 1) with (Z.ones k) by (rewrite Z.ones_equiv; lia).
  rewrite Z.land_ones by lia. unfold uwrap.
  assert (E : 2 ^ 64 = 2 ^ k * 2 ^ (64 - k)).
  { rewrite <- Z.pow_add_r by lia. replace (k + (64 - k)) with 64 by lia. done. }
  rewrite E.
  pose proof (pow2_bounds k H).
  rewrite Z.rem_mul_r by (try lia; apply Z.pow_pos_nonneg; lia).
  rewrite Z.mul_comm, Z.mod_add by lia. apply Z.mod_mod. lia.
Qed.

Lemma mod_wrap x M : 0 < M → 0 ≤ x < 2 * M → x mod M = if decide (x < M) then x else x - M.
Proof.
  intros HM Hx. case_decide.
  - apply Z.mod_small. lia.
  - symmetry. apply (Z.mod_unique _ _ 1); lia.
Qed.

Lemma mod_diff h t M :
  0 ≤ h < M → 0 ≤ t < M → (h - t) mod M = if decide (t ≤ h) then h - t else h - t + M.
Proof.
  intros Hh Ht. case_decide.
  - apply Z.mod_small. lia.
  - symmetry. apply (Z.mod_unique _ _ (-1)); lia.
Qed.

Lemma iwrap_add_l a b : iwrap (iwrap a + b) = iwrap (a + b).
Proof.
  unfold iwrap. f_equal.
  replace ((a + 2 ^ 63) mod 2 ^ 64 - 2 ^ 63 + b + 2 ^ 63)
    with ((a + 2 ^ 63) mod 2 ^ 64 + b) by lia.
  rewrite Z.add_mod_idemp_l by lia. f_equal. lia.
Qed.

Lemma iwrap_sub_l a b : iwrap (iwrap a - b) = iwrap (a - b).
Proof. rewrite <- !Z.add_opp_r. apply iwrap_add_l. Qed.

Lemma zsum_app l1 l2 : zsum (l1 ++ l2) = zsum l1 + zsum l2.
Proof. induction l1 as [|a l1 IH]; simpl; [done|]. rewrite IH. lia. Qed.

(** A positive [int] with [x & (x-1) == 0] is a power of two. *)
Lemma land_pred_pow2 x :
  2 ≤ x < 2 ^ 63 → Z.land x (iwrap (x - 1)) = 0 → ∃ k, 1 ≤ k ≤ 62 ∧ x = 2 ^ k.
Proof.
  intros Hx Hland. rewrite iwrap_small in Hland by lia.
  pose proof (Z.log2_spec x ltac:(lia)) as [Hlo Hhi].
  pose proof (Z.log2_nonneg x) as Hk.
  set (k := Z.log2 x) in *.
  assert (Hk62 : k ≤ 62).
  { destruct (decide (k ≤ 62)) as [|Hn]; [done|].
    assert (2 ^ 63 ≤ 2 ^ k) by (apply Z.pow_le_mono_r; lia). lia. }
  destruct (decide (x = 2 ^ k)) as [Heq|Hne].
  - exists k. split; [|done].
    destruct (decide (k = 0)) as [Hk0|]; [rewrite Hk0 in Heq; simpl in Heq; lia|lia].
  - exfalso.
    assert (Hl : Z.log2 (x - 1) = k).
    { apply Z.log2_unique; [lia|]. rewrite Z.pow_succ_r in Hhi |- * by lia. lia. }
    assert (Hb1 : Z.testbit x k = true) by (apply Z.bit_log2; lia).
    assert (Hb2 : Z.testbit (x - 1) k = true).
    { rewrite <- Hl. apply Z.bit_log2. lia. }
    assert (Hb : Z.testbit (Z.land x (x - 1)) k = true).
    { rewrite Z.land_spec, Hb1, Hb2. done. }
    rewrite Hland, Z.bits_0 in Hb. done.
Qed.

(** ** Circular views *)

Section circ.
Context {A : Type}.
Implicit Types (l : list A) (t n i j : nat).

Lemma circ_length l t n : (t ≤ length l)%nat → (n ≤ length l)%nat → length (circ l t n) = n.
Proof.
  intros Ht Hn. unfold circ. rewrite length_take, length_drop, length_app. lia.
Qed.

Lemma circ_lookup l t n i :
  (t < length l)%nat → (i < n)%nat → (n ≤ length l)%nat →
  circ l t n !! i = l !! wrap_at (length l) (t + i).
Proof.
  intros Ht Hi Hn. unfold circ, wrap_at.
  rewrite lookup_take_lt, lookup_drop by lia.
  case_decide.
  - apply lookup_app_l. lia.
  - rewrite lookup_app_r by lia. done.
Qed.

Lemma circ_lookup_ge l t n i : (n ≤ i)%nat → circ l t n !! i = None.
Proof. intros Hi. unfold circ. apply lookup_take_ge. done. Qed.

(** Two views of the same size with the same slots are equal. *)
Lemma circ_ext l1 t1 l2 t2 n :
  (t1 < length l1)%nat → (t2 < length l2)%nat →
  (n ≤ length l1)%nat → (n ≤ length l2)%nat →
  (∀ i, (i < n)%nat →
     l1 !! wrap_at (length l1) (t1 + i) = l2 !! wrap_at (length l2) (t2 + i)) →
  circ l1 t1 n = circ l2 t2 n.
Proof.
  intros ???? H. apply list_eq. intros i.
  destruct (decide (i < n)%nat).
  - rewrite !circ_lookup by done. auto.
  - rewrite !circ_lookup_ge by lia. done.
Qed.

(** Removing the oldest element. *)
Lemma circ_uncons l t n x :
  (t < length l)%nat → (n < length l)%nat → l !! t = Some x →
  circ l t (S n) = x :: circ l (wrap_at (length l) (t + 1)) n.
Proof.
  intros Ht Hn Hx. apply list_eq. intros [|i].
  - rewrite circ_lookup by lia. unfold wrap_at. rewrite decide_True by lia.
    replace (t + 0)%nat with t by lia. done.
  - simpl. destruct (decide (i < n)%nat).
    + rewrite !circ_lookup; unfold wrap_at; repeat case_decide; try lia; f_equal; lia.
    + rewrite !circ_lookup_ge by lia. done.
Qed.

(** A write to a slot outside the view is not seen. *)
Lemma circ_insert_free l t n j x :
  (t < length l)%nat → (n ≤ length l)%nat → ¬ occupied (length l) t n j →
  circ (<[j:=x]> l) t n = circ l t n.
Proof.
  intros Ht Hn Hj. apply circ_ext; rewrite ?length_insert; try done.
  intros i Hi. apply list_lookup_insert_ne.
  unfold occupied, wrap_at in *. repeat case_decide; lia.
Qed.

(** Writing at the head. *)
Lemma circ_snoc l t n x :
  (t < length l)%nat → (n < length l)%nat →
  circ (<[wrap_at (length l) (t + n) := x]> l) t (S n) = circ l t n ++ [x].
Proof.
  intros Ht Hn. apply list_eq. intros i.
  destruct (decide (i < n)%nat); [|destruct (decide (i = n)) as [->|]].
  - rewrite lookup_app_l by (rewrite circ_length; lia).
    rewrite !circ_lookup by (rewrite ?length_insert; lia).
    rewrite length_insert. apply list_lookup_insert_ne.
    unfold wrap_at. repeat case_decide; lia.
  - rewrite lookup_app_r by (rewrite circ_length; lia).
    rewrite circ_length by lia. replace (n - n)%nat with 0%nat by lia. simpl.
    rewrite circ_lookup by (rewrite ?length_insert; lia).
    rewrite length_insert. apply list_lookup_insert_eq.
    unfold wrap_at. repeat case_decide; lia.
  - rewrite circ_lookup_ge by lia. symmetry. apply lookup_ge_None.
    rewrite length_app, circ_length by lia. simpl. lia.
Qed.

(** A fresh array that starts with [c]. *)
Lemma circ_fresh (c pad : list A) : circ (c ++ pad) 0 (length c) = c.
Proof.
  unfold circ. rewrite drop_0, <- app_assoc. apply take_app_length.
Qed.

End circ.

(** ** Index arithmetic shared by the rings *)

Lemma ring_len_spec h t k :
  0 ≤ k ≤ 62 → 0 ≤ h < 2 ^ k → 0 ≤ t < 2 ^ k →
  Z.land (uwrap (h - t)) (2 ^ k - 1) = (if decide (t ≤ h) then h - t else h - t + 2 ^ k).
Proof.
  intros Hk Hh Ht. rewrite land_mask by done. apply mod_diff; done.
Qed.

Lemma ring_Len_spec h t k :
  0 ≤ k ≤ 62 → 0 ≤ h < 2 ^ k → 0 ≤ t < 2 ^ k →
  iwrap (Z.land (uwrap (h - t)) (2 ^ k - 1))
  = (if decide (t ≤ h) then h - t else h - t + 2 ^ k).
Proof.
  intros Hk Hh Ht. rewrite ring_len_spec by done.
  pose proof (pow2_bounds k Hk). apply iwrap_small. repeat case_decide; lia.
Qed.

Lemma ring_add_spec x i k :
  0 ≤ k ≤ 62 → 0 ≤ x < 2 ^ k → 0 ≤ i < 2 ^ k →
  Z.land (uwrap (x + i)) (2 ^ k - 1) = (if decide (x + i < 2 ^ k) then x + i else x + i - 2 ^ k).
Proof.
  intros Hk Hx Hi. rewrite land_mask by done. apply mod_wrap; lia.
Qed.

(** Advancing an index by one slot. *)
Lemma ring_next_spec x k :
  0 ≤ k ≤ 62 → 0 ≤ x < 2 ^ k →
  let x' := Z.land (uwrap (x + 1)) (2 ^ k - 1) in
  x' = (if decide (x + 1 < 2 ^ k) then x + 1 else 0) ∧ 0 ≤ x' < 2 ^ k ∧
  Z.to_nat x' = wrap_at (Z.to_nat (2 ^ k)) (Z.to_nat x + 1).
Proof.
  intros Hk Hx x'. pose proof (pow2_bounds k Hk).
  assert (E : x' = if decide (x + 1 < 2 ^ k) then x + 1 else 0).
  { unfold x'. rewrite land_mask by done. rewrite mod_wrap by lia. repeat case_decide; lia. }
  rewrite E. unfold wrap_at. repeat case_decide; lia.
Qed.

(** Advancing the tail of a non-empty ring removes one element. *)
Lemma ring_Len_pop h t k :
  0 ≤ k ≤ 62 → 0 ≤ h < 2 ^ k → 0 ≤ t < 2 ^ k → h ≠ t →
  iwrap (Z.land (uwrap (h - Z.land (uwrap (t + 1)) (2 ^ k - 1))) (2 ^ k - 1))
  = iwrap (Z.land (uwrap (h - t)) (2 ^ k - 1)) - 1.
Proof.
  intros Hk Hh Ht Hne. destruct (ring_next_spec t k Hk Ht) as (E & Hr & _).
  rewrite !ring_Len_spec by done. rewrite E. repeat case_decide; lia.
Qed.

(** Advancing the head of a ring that is not full adds one element. *)
Lemma ring_Len_push h t k :
  0 ≤ k ≤ 62 → 0 ≤ h < 2 ^ k → 0 ≤ t < 2 ^ k →
  iwrap (Z.land (uwrap (h - t)) (2 ^ k - 1)) ≠ 2 ^ k - 1 →
  iwrap (Z.land (uwrap (Z.land (uwrap (h + 1)) (2 ^ k - 1) - t)) (2 ^ k - 1))
  = iwrap (Z.land (uwrap (h - t)) (2 ^ k - 1)) + 1.
Proof.
  intros Hk Hh Ht Hne. destruct (ring_next_spec h k Hk Hh) as (E & Hr & _).
  rewrite !ring_Len_spec in * by done. rewrite E. repeat case_decide; lia.
Qed.

Lemma index_lookup {A} (l : list A) i x :
  0 ≤ i → l !! Z.to_nat i = Some x → index l i = Ok x.
Proof.
  intros Hi Hx. unfold index. apply lookup_lt_Some in Hx as Hlt.
  rewrite bool_decide_true by (unfold len; lia). rewrite Hx. done.
Qed.

Lemma assign_ok {A} (l : list A) i x :
  0 ≤ i < len l → assign l i x = Ok (<[Z.to_nat i := x]> l).
Proof. intros Hi. unfold assign. rewrite bool_decide_true by done. done. Qed.

(** Runs the binds of [outcome] whose first computation is known. *)
Ltac obind := cbn [mbind outcome_bind].

(** ** RingP *)

Module RingPFacts.
Import RingP.
Section facts.
Context {T : Type} (zeroT : T).
Implicit Types (r : RingP T) (x : T).

Lemma ringp_Len_range r :
  wf r → 0 ≤ Len r ≤ Capacity r ∧ Capacity r = len (items r) - 1 ∧ 1 ≤ Capacity r.
Proof.
  intros (k & Hk & Hlen & Hmask & Ht & Hh). unfold Len, Capacity.
  pose proof (pow2_bounds k ltac:(lia)).
  assert (2 ^ 1 ≤ 2 ^ k) by (apply Z.pow_le_mono_r; lia).
  rewrite Hmask, Hlen, ring_Len_spec by (done || lia).
  rewrite (iwrap_small (2 ^ k - 1)) by lia.
  repeat case_decide; lia.
Qed.

Lemma ringp_head_spec r :
  wf r →
  Z.to_nat (head r)
  = wrap_at (length (items r)) (Z.to_nat (tail r) + Z.to_nat (Len r)).
Proof.
  intros (k & Hk & Hlen & Hmask & Ht & Hh). unfold Len, len in *.
  pose proof (pow2_bounds k ltac:(lia)).
  rewrite Hmask, ring_Len_spec by (done || lia).
  unfold wrap_at. repeat case_decide; lia.
Qed.

Lemma ringp_content_length r : wf r → length (content r) = Z.to_nat (Len r).
Proof.
  intros Hwf. pose proof (ringp_Len_range r Hwf) as (Hl & Hc & Hc1).
  destruct Hwf as (k & Hk & Hlen & Hmask & Ht & Hh). unfold len in *.
  unfold content. apply circ_length; lia.
Qed.

Lemma ringp_Len_0_iff r : wf r → Len r = 0 ↔ head r = tail r.
Proof.
  intros (k & Hk & Hlen & Hmask & Ht & Hh). unfold Len.
  rewrite Hmask, ring_Len_spec by (done || lia). repeat case_decide; lia.
Qed.

Lemma ringp_Next_spec r :
  wf r →
  ∃ r', Next zeroT r = Ok (hd zeroT (content r), r') ∧ wf r' ∧
        content r' = drop 1 (content r) ∧
        Len r' = Z.max 0 (Len r - 1) ∧
        items r' = items r ∧ mask r' = mask r ∧ head r' = head r.
Proof.
  intros Hwf. pose proof (ringp_Len_range r Hwf) as (Hl & Hc & Hc1).
  pose proof (ringp_Len_0_iff r Hwf) as H0iff.
  destruct (Hwf) as (k & Hk & Hlen & Hmask & Ht & Hh).
  pose proof (pow2_bounds k ltac:(lia)) as Hp. unfold len in *.
  unfold Next. destruct (Z.eqb_spec (Len r) 0) as [H0|H0].
  - exists r. unfold content. rewrite H0. simpl. repeat split; try done; lia.
  - destruct (lookup_lt_is_Some_2 (items r) (Z.to_nat (tail r)) ltac:(lia)) as [x Hx].
    cbn [items]. rewrite (index_lookup _ _ x) by (done || lia). obind.
    destruct (ring_next_spec (tail r) k ltac:(lia) Ht) as (E & Hr & Hn).
    rewrite <- Hmask in E, Hr, Hn.
    set (r' := mkRingP _ _ _ _).
    assert (HL : Len r' = Len r - 1).
    { unfold Len, r'. simpl. rewrite Hmask. apply ring_Len_pop; [lia|done|done|].
      intros Heq. apply H0, H0iff. done. }
    assert (Hc' : content r = x :: content r').
    { unfold content. rewrite HL.
      replace (Z.to_nat (Len r)) with (S (Z.to_nat (Len r - 1))) by lia.
      rewrite (circ_uncons _ _ _ x) by (done || lia).
      unfold r'. simpl. rewrite Hn. do 3 f_equal. lia. }
    exists r'. rewrite Hc'. simpl. rewrite drop_0. repeat split; try done; try lia.
    exists k. unfold r'. simpl. repeat split; try done; unfold len; lia.
Qed.

Lemma ringp_push_spec r x :
  wf r → Len r ≠ Capacity r →
  ∃ r', put r x = Ok r' ∧ wf r' ∧ content r' = content r ++ [x] ∧
        Len r' = Len r + 1 ∧ len (items r') = len (items r) ∧ mask r' = mask r.
Proof.
  intros Hwf Hfull. pose proof (ringp_Len_range r Hwf) as (Hl & Hc & Hc1).
  pose proof (ringp_head_spec r Hwf) as Hhd.
  destruct (Hwf) as (k & Hk & Hlen & Hmask & Ht & Hh).
  pose proof (pow2_bounds k ltac:(lia)) as Hp. unfold len in *.
  unfold put. rewrite assign_ok by (unfold len; lia). obind.
  destruct (ring_next_spec (head r) k ltac:(lia) Hh) as (E & Hr & Hn).
  rewrite <- Hmask in E, Hr, Hn.
  set (r' := mkRingP _ _ _ _). exists r'.
  assert (HL : Len r' = Len r + 1).
  { unfold Len, r'. simpl. rewrite Hmask. apply ring_Len_push; [lia|done|done|].
    unfold Len, Capacity in Hfull. rewrite Hmask in Hfull.
    rewrite (iwrap_small (2 ^ k - 1)) in Hfull by lia. done. }
  split; [done|]. split; [|split; [|split; [done|]]].
  - exists k. unfold r', len. simpl. rewrite length_insert. repeat split; try done; lia.
  - unfold content. rewrite HL. unfold r'. simpl. rewrite Hhd.
    replace (Z.to_nat (Len r + 1)) with (S (Z.to_nat (Len r))) by lia.
    apply circ_snoc; lia.
  - unfold r', len. simpl. rewrite length_insert. done.
Qed.

Lemma ringp_Add_spec r x :
  wf r →
  ∃ r', Add zeroT r x = Ok r' ∧ wf r' ∧
        content r' = (if IsFull r then drop 1 (content r) else content r) ++ [x] ∧
        len (items r') = len (items r) ∧ mask r' = mask r.
Proof.
  intros Hwf. pose proof (ringp_Len_range r Hwf) as (Hl & Hc & Hc1).
  unfold Add, IsFull. fold (Capacity r).
  destruct (Z.eqb_spec (Len r) (Capacity r)) as [Hfull|Hfull].
  - destruct (ringp_Next_spec r Hwf) as (r1 & E1 & Hwf1 & Hcn & HL1 & Hi1 & Hm1 & Hh1).
    destruct (ringp_push_spec r1 x Hwf1) as (r' & E2 & Hwf' & Hc' & HL' & Hi' & Hm').
    { unfold Capacity in *. rewrite Hm1. lia. }
    exists r'. rewrite E1. obind. rewrite E2, Hc', Hcn, Hi', Hm', Hi1, Hm1. done.
  - obind.
    destruct (ringp_push_spec r x Hwf Hfull) as (r' & E2 & Hwf' & Hc' & HL' & Hi' & Hm').
    exists r'. rewrite E2, Hc'. done.
Qed.

Lemma ringp_Len_lt r : wf r → 0 ≤ Len r < len (items r).
Proof. intros Hwf. pose proof (ringp_Len_range r Hwf). lia. Qed.

Lemma ringp_len_raw r : wf r → Z.land (uwrap (head r - tail r)) (mask r) = Len r.
Proof.
  intros (k & Hk & Hlen & Hmask & Ht & Hh). unfold Len.
  rewrite Hmask, ring_Len_spec, ring_len_spec by (done || lia). done.
Qed.

Lemma ringp_Peek_in r i x :
  wf r → 0 ≤ i < Len r → content r !! Z.to_nat i = Some x → Peek zeroT r i = Ok (x, r).
Proof.
  intros Hwf Hi Hx. pose proof (ringp_Len_lt r Hwf) as Hl.
  pose proof (ringp_len_raw r Hwf) as Hraw.
  destruct (Hwf) as (k & Hk & Hlen & Hmask & Ht & Hh).
  pose proof (pow2_bounds k ltac:(lia)) as Hp. unfold len in *.
  unfold Peek. rewrite Hraw, (uwrap_small i) by lia.
  rewrite Z.geb_leb. destruct (Z.leb_spec (Len r) i); [lia|].
  rewrite Hmask, ring_add_spec by lia.
  unfold content in Hx. rewrite circ_lookup in Hx by lia.
  erewrite index_lookup; [done|repeat case_decide; lia|].
  rewrite <- Hx. f_equal. unfold wrap_at. repeat case_decide; lia.
Qed.

Lemma ringp_Peek_out r i :
  wf r → - 2 ^ 63 ≤ i < 2 ^ 63 → i < 0 ∨ Len r ≤ i → Peek zeroT r i = Ok (zeroT, r).
Proof.
  intros Hwf Hint Hi. pose proof (ringp_Len_lt r Hwf) as Hl.
  pose proof (ringp_len_raw r Hwf) as Hraw.
  destruct (Hwf) as (k & Hk & Hlen & Hmask & Ht & Hh).
  pose proof (pow2_bounds k ltac:(lia)) as Hp. unfold len in *.
  unfold Peek. rewrite Hraw, Z.geb_leb.
  destruct (Z.leb_spec (Len r) (uwrap i)) as [|Hlt]; [done|]. exfalso.
  destruct (decide (0 ≤ i)).
  - rewrite uwrap_small in Hlt by lia. lia.
  - unfold uwrap in Hlt. rewrite <- (Z.mod_unique i (2 ^ 64) (-1) (i + 2 ^ 64)) in Hlt by lia. lia.
Qed.

Lemma ringp_peeks_spec r : wf r → peeks zeroT r = (λ x, Ok (x, r)) <$> content r.
Proof.
  intros Hwf. pose proof (ringp_Len_range r Hwf) as (Hl & Hc & Hc1).
  pose proof (ringp_content_length r Hwf) as Hcl.
  apply list_eq. intros i. unfold peeks. rewrite !list_lookup_fmap.
  destruct (decide (Z.of_nat i < Len r)) as [Hi|Hi].
  - rewrite lookup_seqZ_lt by lia. simpl.
    destruct (lookup_lt_is_Some_2 (content r) i ltac:(lia)) as [x Hx].
    rewrite Hx. simpl. f_equal. apply ringp_Peek_in; [done|lia|].
    rewrite <- Hx. f_equal. lia.
  - rewrite lookup_seqZ_ge by lia. rewrite lookup_ge_None_2 by lia. done.
Qed.

Lemma ringp_NewRingP_spec sizePlus1 r :
  - 2 ^ 63 ≤ sizePlus1 < 2 ^ 63 → NewRingP zeroT sizePlus1 = Ok r →
  wf r ∧ content r = [] ∧ Len r = 0 ∧ len (items r) = sizePlus1 ∧
  Capacity r = sizePlus1 - 1.
Proof.
  intros Hint. unfold NewRingP. case_bool_decide as Hb; [done|].
  intros [= <-].
  assert (Hland : Z.land sizePlus1 (iwrap (sizePlus1 - 1)) = 0).
  { destruct (decide (Z.land sizePlus1 (iwrap (sizePlus1 - 1)) = 0)); [done|].
    exfalso. apply Hb. left. done. }
  destruct (land_pred_pow2 sizePlus1 ltac:(lia) Hland) as (k & Hk & ->).
  pose proof (pow2_bounds k ltac:(lia)) as Hp.
  set (r := mkRingP _ _ _ _).
  assert (Hwf : wf r).
  { exists k. unfold r, len. simpl. rewrite length_replicate, mask_pow2 by lia.
    repeat split; try done; lia. }
  assert (HL : Len r = 0).
  { apply ringp_Len_0_iff; done. }
  pose proof (ringp_Len_range r Hwf) as (Hl & Hc & Hc1).
  unfold content. rewrite HL. repeat split; try done.
  - unfold r, len. simpl. rewrite length_replicate. lia.
  - rewrite Hc. unfold r, len. simpl. rewrite length_replicate. lia.
Qed.

Lemma ringp_lastn_suffix (pre c : list T) : lastn (length c) (pre ++ c) = c.
Proof.
  unfold lastn. rewrite length_app.
  replace (length pre + length c - length c)%nat with (length pre) by lia.
  apply drop_app_length.
Qed.

(** Every sequence of operations runs to completion, keeps the storage,
    and leaves a suffix of the values inserted so far. *)
Lemma ringp_run_spec ops : ∀ r hist,
  wf r → (∃ pre, hist = pre ++ content r) →
  ∃ r', run zeroT ops r = Ok r' ∧ wf r' ∧
        len (items r') = len (items r) ∧ mask r' = mask r ∧
        (∃ pre, hist ++ inserted ops = pre ++ content r') ∧
        (only_adds ops →
         Len r' = Z.min (Capacity r) (Len r + len (inserted ops))).
Proof.
  induction ops as [|o ops IH]; intros r hist Hwf [pre Hpre].
  - exists r. pose proof (ringp_Len_range r Hwf) as (Hl & Hc & Hc1).
    simpl. rewrite app_nil_r. repeat split; try done; [by exists pre|].
    intros _. unfold len. simpl. lia.
  - pose proof (ringp_Len_range r Hwf) as (Hl & Hc & Hc1).
    pose proof (ringp_content_length r Hwf) as Hcl.
    destruct o as [x|].
    + destruct (ringp_Add_spec r x Hwf) as (r1 & E1 & Hwf1 & Hc' & Hi1 & Hm1).
      destruct (IH r1 (hist ++ [x]) Hwf1) as (r' & E' & Hwf' & Hi' & Hm' & [pre' Hpre'] & Hadds).
      { rewrite Hc', Hpre.
        destruct (IsFull r).
        - exists (pre ++ take 1 (content r)).
          rewrite <- !app_assoc. f_equal. rewrite (app_assoc (take 1 _)), take_drop. done.
        - exists pre. rewrite <- app_assoc. done. }
      exists r'. simpl. rewrite E1. obind. rewrite E'.
      repeat split; try done; try congruence.
      * exists pre'. rewrite <- Hpre'. change (inserted (OpAdd x :: ops)) with (x :: inserted ops).
        rewrite <- app_assoc. done.
      * intros Hall. inversion Hall as [|? ? _ Hall']; subst.
        rewrite (Hadds Hall'). unfold Capacity. rewrite Hm1. fold (Capacity r).
        change (inserted (OpAdd x :: ops)) with (x :: inserted ops).
        pose proof (ringp_content_length r1 Hwf1) as Hcl1.
        pose proof (ringp_Len_range r1 Hwf1) as (Hl1 & _).
        rewrite Hc', length_app in Hcl1. simpl in Hcl1.
        unfold IsFull in *. unfold len. simpl length.
        destruct (Z.eqb_spec (Len r) (iwrap (mask r))) as [Hf|Hf]; fold (Capacity r) in Hf.
        -- rewrite length_drop in Hcl1. lia.
        -- lia.
    + destruct (ringp_Next_spec r Hwf) as (r1 & E1 & Hwf1 & Hc' & HL1 & Hi1 & Hm1 & Hh1).
      destruct (IH r1 hist Hwf1) as (r' & E' & Hwf' & Hi' & Hm' & [pre' Hpre'] & Hadds).
      { rewrite Hc', Hpre. exists (pre ++ take 1 (content r)).
        rewrite <- app_assoc, take_drop. done. }
      exists r'. simpl. rewrite E1. obind. rewrite E'.
      repeat split; try done; try congruence.
      * exists pre'. done.
      * intros Hall. inversion Hall as [|? ? Hf _]; subst. done.
Qed.

End facts.
End RingPFacts.

(** ** RingT *)

Module RingTFacts.
Import RingT.
Section facts.
Context {T : Type}.
Implicit Types (r : RingT T) (x : option T).

Lemma ringt_Len_empty r : items r = [] → wf r → Len r = 0.
Proof.
  intros Hnil [(_ & Hm & Ht & Hh)|(k & Hk & Hlen & _)].
  - unfold Len. rewrite Hm, Ht, Hh. done.
  - rewrite Hnil in Hlen. pose proof (pow2_bounds k ltac:(lia)). unfold len in *.
    simpl in *. lia.
Qed.

Lemma ringt_Len_range r : wf r → 0 ≤ Len r ∧ (Len r = 0 ∨ Len r < len (items r)).
Proof.
  intros Hwf. destruct (Hwf) as [(Hi & _)|(k & Hk & Hlen & Hmask & Ht & Hh)].
  - rewrite ringt_Len_empty by done. lia.
  - unfold Len. rewrite Hmask, Hlen, ring_Len_spec by (done || lia). repeat case_decide; lia.
Qed.

Lemma ringt_len_cases r : wf r → len (items r) = 0 ∨ 2 ≤ len (items r) ≤ 2 ^ 62.
Proof.
  intros [(Hi & _)|(k & Hk & Hlen & _)].
  - rewrite Hi. left. done.
  - right. rewrite Hlen. pose proof (pow2_bounds k ltac:(lia)).
    assert (2 ^ 1 ≤ 2 ^ k) by (apply Z.pow_le_mono_r; lia). lia.
Qed.

Lemma ringt_content_length r : wf r → length (content r) = Z.to_nat (Len r).
Proof.
  intros Hwf. pose proof (ringt_Len_range r Hwf) as Hl.
  destruct (Hwf) as [(Hi & Hm & Ht & Hh)|(k & Hk & Hlen & Hmask & Ht & Hh)].
  - unfold content. rewrite ringt_Len_empty by done. done.
  - unfold content, len in *. apply circ_length; lia.
Qed.

Lemma ringt_len_raw r : wf r → Z.land (uwrap (head r - tail r)) (mask r) = Len r.
Proof.
  intros [(Hi & Hm & Ht & Hh)|(k & Hk & Hlen & Hmask & Ht & Hh)]; unfold Len.
  - rewrite Hm, Ht, Hh. done.
  - rewrite Hmask, ring_Len_spec, ring_len_spec by (done || lia). done.
Qed.

Lemma ringt_Next_spec r :
  wf r →
  ∃ r', Next r = Ok (hd None (content r), r') ∧ wf r' ∧
        content r' = drop 1 (content r) ∧
        Len r' = Z.max 0 (Len r - 1) ∧
        len (items r') = len (items r) ∧ mask r' = mask r ∧ head r' = head r ∧
        maxSize r' = maxSize r ∧ (cleared r → cleared r').
Proof.
  intros Hwf. pose proof (ringt_Len_range r Hwf) as Hl.
  unfold Next. destruct (Z.eqb_spec (Len r) 0) as [H0|H0].
  { exists r. unfold content. rewrite H0. simpl. repeat split; try done; lia. }
  destruct (Hwf) as [(Hi & _)|(k & Hk & Hlen & Hmask & Ht & Hh)].
  { rewrite ringt_Len_empty in H0; done. }
  pose proof (pow2_bounds k ltac:(lia)) as Hp. unfold len in *.
  destruct (lookup_lt_is_Some_2 (items r) (Z.to_nat (tail r)) ltac:(lia)) as [x Hx].
  cbn [items]. rewrite (index_lookup _ _ x) by (done || lia). obind.
  rewrite assign_ok by (unfold len; lia). obind. cbn [mask tail head maxSize].
  destruct (ring_next_spec (tail r) k ltac:(lia) Ht) as (E & Hr & Hn).
  rewrite <- Hmask in E, Hr, Hn.
  set (r' := mkRingT _ _ _ _ _).
  assert (Hne : head r ≠ tail r).
  { intros Heq. apply H0. unfold Len. rewrite Heq, Z.sub_diag. done. }
  assert (HL : Len r' = Len r - 1).
  { unfold Len, r'. simpl. rewrite Hmask. apply ring_Len_pop; [lia|done|done|done]. }
  assert (Hc' : content r = x :: content r').
  { unfold content. rewrite HL.
    replace (Z.to_nat (Len r)) with (S (Z.to_nat (Len r - 1))) by lia.
    rewrite (circ_uncons _ _ _ x) by (done || lia).
    unfold r'. simpl. rewrite Hn. f_equal.
    replace (Z.to_nat (2 ^ k)) with (length (items r)) by lia.
    symmetry. apply circ_insert_free; [unfold wrap_at; repeat case_decide; lia|lia|].
    unfold occupied, wrap_at. repeat case_decide; lia. }
  exists r'. rewrite Hc'. split_and!; try done.
  - right. exists k. unfold r', len. simpl. rewrite length_insert.
    repeat split; try done; lia.
  - lia.
  - unfold r'. simpl. rewrite length_insert. done.
  - intros Hcl j Hj Hlive. unfold r', len in *. simpl in *.
    rewrite length_insert in Hj.
    destruct (decide (j = tail r)) as [->|Hjt].
    + apply list_lookup_insert_eq. lia.
    + rewrite list_lookup_insert_ne by lia. apply Hcl; [unfold len; lia|].
      intros Hlv. apply Hlive. unfold live in *. rewrite E.
      repeat case_decide; lia.
Qed.

Lemma ringt_push_spec r x :
  wf r → Len r < len (items r) - 1 →
  ∃ r', put r x = Ok r' ∧ wf r' ∧ content r' = content r ++ [x] ∧
        Len r' = Len r + 1 ∧ items r' = <[Z.to_nat (head r) := x]> (items r) ∧
        mask r' = mask r ∧ tail r' = tail r ∧
        maxSize r' = maxSize r ∧ (cleared r → cleared r').
Proof.
  intros Hwf Hfull. pose proof (ringt_Len_range r Hwf) as Hl.
  destruct (Hwf) as [(Hi & _)|(k & Hk & Hlen & Hmask & Ht & Hh)].
  { rewrite Hi in Hfull. rewrite ringt_Len_empty in Hfull by done. unfold len in Hfull.
    simpl in Hfull. lia. }
  pose proof (pow2_bounds k ltac:(lia)) as Hp. unfold len in *.
  unfold put. rewrite assign_ok by (unfold len; lia). obind.
  destruct (ring_next_spec (head r) k ltac:(lia) Hh) as (E & Hr & Hn).
  rewrite <- Hmask in E, Hr, Hn.
  set (r' := mkRingT _ _ _ _ _). exists r'.
  assert (HL : Len r' = Len r + 1).
  { unfold Len, r'. simpl. rewrite Hmask. apply ring_Len_push; [lia|done|done|].
    fold (Len r). unfold Len in Hfull. rewrite Hmask in Hfull. lia. }
  assert (Hhd : Z.to_nat (head r)
                = wrap_at (length (items r)) (Z.to_nat (tail r) + Z.to_nat (Len r))).
  { unfold Len. rewrite Hmask, ring_Len_spec by (done || lia).
    unfold wrap_at. repeat case_decide; lia. }
  split_and!; try done.
  - right. exists k. unfold r', len. simpl. rewrite length_insert.
    repeat split; try done; lia.
  - unfold content. rewrite HL. unfold r'. simpl. rewrite Hhd.
    replace (Z.to_nat (Len r + 1)) with (S (Z.to_nat (Len r))) by lia.
    apply circ_snoc; lia.
  - intros Hcl j Hj Hlive. unfold r', len in *. simpl in *.
    rewrite length_insert in Hj.
    unfold Len in Hfull. rewrite Hmask, ring_Len_spec in Hfull by (done || lia).
    assert (Hjh : j ≠ head r).
    { intros ->. apply Hlive. unfold live. rewrite E. repeat case_decide; lia. }
    rewrite list_lookup_insert_ne by lia. apply Hcl; [unfold len; lia|].
    intros Hlv. apply Hlive. unfold live in *. rewrite E.
    repeat case_decide; lia.
Qed.

Lemma ringt_drain_spec n : ∀ (i : nat) r new,
  wf r → Z.of_nat n ≤ Len r → (i + n ≤ length new)%nat → len new ≤ 2 ^ 62 →
  ∃ r', drain n (Z.of_nat i) r new
        = Ok (r', take i new ++ take n (content r) ++ drop (i + n) new) ∧
        maxSize r' = maxSize r.
Proof.
  induction n as [|n IH]; intros i r new Hwf Hn Hi Hnew.
  - exists r. simpl. rewrite Nat.add_0_r, take_drop. done.
  - destruct (ringt_Next_spec r Hwf) as (r1 & E1 & Hwf1 & Hc1 & HL1 & _ & _ & _ & Hm1 & _).
    pose proof (ringt_content_length r Hwf) as Hcl.
    destruct (content r) as [|x c] eqn:Hc; [simpl in Hcl; lia|].
    simpl in Hc1, E1. rewrite drop_0 in Hc1.
    unfold len in *. simpl. rewrite E1. obind.
    rewrite assign_ok by (unfold len; lia). obind.
    rewrite Nat2Z.id, iwrap_small by lia.
    replace (Z.of_nat i + 1) with (Z.of_nat (S i)) by lia.
    destruct (IH (S i) r1 (<[i:=x]> new) Hwf1) as (r' & E' & Hm').
    { lia. } { rewrite length_insert. lia. } { unfold len. rewrite length_insert. lia. }
    exists r'. rewrite E', Hc1. split; [|congruence]. do 2 f_equal.
    rewrite (take_S_r _ i x) by (apply list_lookup_insert_eq; lia).
    rewrite take_insert_ge by lia. rewrite drop_insert_lt by lia.
    rewrite <- app_assoc. replace (i + S n)%nat with (S i + n)%nat by lia. done.
Qed.

Lemma ringt_grow_spec r :
  wf r → len (items r) ≤ 2 ^ 61 →
  ∃ r', grow r = Ok r' ∧ wf r' ∧ cleared r' ∧
        content r' = content r ∧ Len r' = Len r ∧
        len (items r') = Z.max 2 (2 * len (items r)) ∧
        items r' = content r
                   ++ replicate (Z.to_nat (Z.max 2 (2 * len (items r)) - Len r)) None ∧
        mask r' = len (items r') - 1 ∧ tail r' = 0 ∧ head r' = Len r ∧
        maxSize r' = maxSize r.
Proof.
  intros Hwf Hsz. pose proof (ringt_Len_range r Hwf) as Hl.
  pose proof (ringt_content_length r Hwf) as Hcl.
  set (N := Z.max 2 (2 * len (items r))).
  assert (HN : ∃ k, 1 ≤ k ≤ 62 ∧ N = 2 ^ k).
  { destruct Hwf as [(Hi & _)|(k & Hk & Hlen & _)].
    - exists 1. unfold N. rewrite Hi. done.
    - exists (k + 1). rewrite Z.pow_add_r by lia. unfold N. rewrite Hlen in *.
      change (2 ^ 1) with 2. pose proof (pow2_bounds k ltac:(lia)).
      pose proof (pow2_le_inv k 61 ltac:(lia) ltac:(lia) Hsz). lia. }
  destruct HN as (k & Hk & HNk). pose proof (pow2_bounds k ltac:(lia)) as Hp.
  assert (HlN : Len r < N) by (unfold N; lia).
  unfold grow. rewrite (iwrap_small (len (items r) * 2)) by (unfold len in *; lia).
  assert (E : (if len (items r) * 2 <? 2 then 2 else len (items r) * 2) = N).
  { unfold N. destruct (Z.ltb_spec (len (items r) * 2) 2); lia. }
  rewrite E.
  destruct (ringt_drain_spec (Z.to_nat (Len r)) 0 r (replicate (Z.to_nat N) None) Hwf)
    as (r1 & E1 & Hm1).
  { lia. } { rewrite length_replicate. lia. }
  { unfold len. rewrite length_replicate. lia. }
  change (Z.of_nat 0) with 0 in E1. rewrite E1. obind.
  rewrite take_0, (take_ge (content r)) by lia. simpl.
  rewrite drop_replicate.
  replace (Z.to_nat N - Z.to_nat (Len r))%nat with (Z.to_nat (N - Len r)) by lia.
  rewrite HNk, mask_pow2, <- HNk by lia. rewrite (uwrap_small (Len r)) by lia.
  set (r' := mkRingT _ _ _ _ _).
  assert (Hlen' : len (items r') = N).
  { unfold r', len. simpl. rewrite length_app, length_replicate. lia. }
  assert (Hwf' : wf r').
  { right. exists k. rewrite Hlen'. unfold r'. simpl. repeat split; try done; lia. }
  assert (HL : Len r' = Len r).
  { unfold Len at 1, r'. simpl. rewrite HNk, ring_Len_spec by lia.
    repeat case_decide; lia. }
  exists r'. split_and!; try done.
  - intros j Hj Hlive. rewrite Hlen' in Hj. unfold live, r' in *. simpl in *.
    assert (Len r ≤ j) by (repeat case_decide; lia).
    rewrite lookup_app_r by lia. apply lookup_replicate_2. lia.
  - unfold content at 1. rewrite HL. unfold r'. simpl. rewrite <- Hcl.
    apply circ_fresh.
  - rewrite Hlen'. done.
Qed.

(** The first step of [Add]: drop the oldest element of a full ring. *)
Lemma ringt_Add_evict r :
  inv r →
  ∃ r1, (if Len r =? maxSize r then '(_, r) ← Next r; Ok r else Ok r) = Ok r1 ∧
        wf r1 ∧ cleared r1 ∧ Len r1 < maxSize r ∧
        content r1 = (if decide (Len r = maxSize r) then drop 1 (content r) else content r) ∧
        len (items r1) = len (items r) ∧ maxSize r1 = maxSize r.
Proof.
  intros (Hwf & (HM & HLM & Hsz) & Hcl).
  destruct (Z.eqb_spec (Len r) (maxSize r)) as [Hfull|Hfull].
  - destruct (ringt_Next_spec r Hwf) as (r1 & E1 & Hwf1 & Hc1 & HL1 & Hi1 & _ & _ & Hm1 & Hcl1).
    exists r1. rewrite E1. obind. rewrite decide_True by done.
    split_and!; try done; [by apply Hcl1|lia].
  - exists r. rewrite decide_False by done. split_and!; try done. lia.
Qed.

(** The second step of [Add]: make room when the storage is full. *)
Lemma ringt_Add_grow r :
  wf r → cleared r → Len r < maxSize r → 1 ≤ maxSize r ≤ 2 ^ 61 →
  len (items r) ≤ 2 * maxSize r →
  ∃ r2, (if (len (items r) =? 0) || (Len r =? iwrap (len (items r) - 1))
         then grow r else Ok r) = Ok r2 ∧
        wf r2 ∧ cleared r2 ∧ content r2 = content r ∧ Len r2 = Len r ∧
        Len r2 < len (items r2) - 1 ∧ len (items r2) ≤ 2 * maxSize r ∧
        maxSize r2 = maxSize r.
Proof.
  intros Hwf Hcl HLM HM Hsz. pose proof (ringt_Len_range r Hwf) as Hl.
  pose proof (ringt_len_cases r Hwf) as Hlc.
  rewrite (iwrap_small (len (items r) - 1)) by (unfold len in *; lia).
  destruct (Z.eqb_spec (len (items r)) 0) as [H0|H0];
    [|destruct (Z.eqb_spec (Len r) (len (items r) - 1)) as [Hf|Hf]]; simpl.
  - destruct (ringt_grow_spec r Hwf ltac:(lia))
      as (r2 & E & Hwf2 & Hcl2 & Hc2 & HL2 & Hlen2 & _ & _ & _ & _ & Hm2).
    exists r2. split_and!; try done; lia.
  - destruct (ringt_grow_spec r Hwf ltac:(lia))
      as (r2 & E & Hwf2 & Hcl2 & Hc2 & HL2 & Hlen2 & _ & _ & _ & _ & Hm2).
    exists r2. split_and!; try done; lia.
  - exists r. split_and!; try done; lia.
Qed.

Lemma ringt_Add_spec r x :
  inv r →
  ∃ r', Add r x = Ok r' ∧ inv r' ∧
        content r' = (if decide (Len r = maxSize r) then drop 1 (content r)
                      else content r) ++ [x] ∧
        maxSize r' = maxSize r.
Proof.
  intros Hinv. destruct (ringt_Add_evict r Hinv) as (r1 & E1 & Hwf1 & Hcl1 & HL1 & Hc1 & Hi1 & Hm1).
  destruct Hinv as (Hwf & (HM & HLM & Hsz) & Hcl).
  destruct (ringt_Add_grow r1 Hwf1 Hcl1) as (r2 & E2 & Hwf2 & Hcl2 & Hc2 & HL2 & Hf2 & Hsz2 & Hm2);
    [lia..|].
  destruct (ringt_push_spec r2 x Hwf2 Hf2)
    as (r' & E3 & Hwf' & Hc' & HL' & Hi' & _ & _ & Hm' & Hcl').
  exists r'. unfold Add. rewrite E1. obind. rewrite E2. obind. rewrite E3.
  split_and!; [done| | |].
  - split_and!; [done| |by apply Hcl'].
    unfold bounded. rewrite Hm', Hm2, Hm1, Hi'. unfold len in *.
    rewrite length_insert. lia.
  - rewrite Hc', Hc2, Hc1. done.
  - congruence.
Qed.

Lemma ringt_Peek_in r i x :
  wf r → 0 ≤ i < Len r → content r !! Z.to_nat i = Some x → Peek r i = Ok (x, r).
Proof.
  intros Hwf Hi Hx. pose proof (ringt_Len_range r Hwf) as Hl.
  pose proof (ringt_len_raw r Hwf) as Hraw.
  destruct (Hwf) as [(Hnil & _)|(k & Hk & Hlen & Hmask & Ht & Hh)].
  { rewrite ringt_Len_empty in Hi by done. lia. }
  pose proof (pow2_bounds k ltac:(lia)) as Hp. unfold len in *.
  unfold Peek. rewrite Hraw, (uwrap_small i) by lia.
  rewrite Z.geb_leb. destruct (Z.leb_spec (Len r) i); [lia|].
  rewrite Hmask, ring_add_spec by lia.
  unfold content in Hx. rewrite circ_lookup in Hx by lia.
  erewrite index_lookup; [done|repeat case_decide; lia|].
  rewrite <- Hx. f_equal. unfold wrap_at. repeat case_decide; lia.
Qed.

Lemma ringt_Peek_out r i :
  wf r → - 2 ^ 63 ≤ i < 2 ^ 63 → i < 0 ∨ Len r ≤ i → Peek r i = Ok (None, r).
Proof.
  intros Hwf Hint Hi. pose proof (ringt_Len_range r Hwf) as Hl.
  pose proof (ringt_len_cases r Hwf) as Hlc.
  pose proof (ringt_len_raw r Hwf) as Hraw.
  unfold Peek. rewrite Hraw, Z.geb_leb.
  destruct (Z.leb_spec (Len r) (uwrap i)) as [|Hlt]; [done|]. exfalso.
  destruct (decide (0 ≤ i)).
  - rewrite uwrap_small in Hlt by lia. lia.
  - unfold uwrap in Hlt.
    rewrite <- (Z.mod_unique i (2 ^ 64) (-1) (i + 2 ^ 64)) in Hlt by lia. lia.
Qed.

Lemma ringt_peeks_spec r : wf r → peeks r = (λ x, Ok (x, r)) <$> content r.
Proof.
  intros Hwf. pose proof (ringt_Len_range r Hwf) as Hl.
  pose proof (ringt_content_length r Hwf) as Hcl.
  apply list_eq. intros i. unfold peeks. rewrite !list_lookup_fmap.
  destruct (decide (Z.of_nat i < Len r)) as [Hi|Hi].
  - rewrite lookup_seqZ_lt by lia. simpl.
    destruct (lookup_lt_is_Some_2 (content r) i ltac:(lia)) as [x Hx].
    rewrite Hx. simpl. f_equal. apply ringt_Peek_in; [done|lia|].
    rewrite <- Hx. f_equal. lia.
  - rewrite lookup_seqZ_ge by lia. rewrite lookup_ge_None_2 by lia. done.
Qed.

Lemma ringt_NewRingT_spec M r : NewRingT M = Ok r → 1 ≤ M ≤ 2 ^ 61 → inv r ∧ content r = [] ∧ maxSize r = M.
Proof.
  unfold NewRingT. destruct (Z.ltb_spec M 1); [done|]. intros [= <-] HM.
  split_and!; try done. split_and!.
  - left. done.
  - unfold bounded. change (Len _) with 0. unfold len. simpl. lia.
  - intros j Hj. unfold len in Hj. simpl in Hj. lia.
Qed.

(** Every sequence of operations runs to completion and leaves the queue
    that the operations describe. *)
Lemma ringt_run_spec ops : ∀ r,
  inv r →
  ∃ r', run ops r = Ok r' ∧ inv r' ∧ maxSize r' = maxSize r ∧
        content r' = fold_left (survivors_step (Z.to_nat (maxSize r))) ops (content r).
Proof.
  induction ops as [|o ops IH]; intros r Hinv.
  - exists r. done.
  - pose proof Hinv as (Hwf & (HM & HLM & Hsz) & Hcl).
    pose proof (ringt_content_length r Hwf) as Hlen.
    destruct o as [x|]; simpl.
    + destruct (ringt_Add_spec r x Hinv) as (r1 & E1 & Hinv1 & Hc1 & Hm1).
      destruct (IH r1 Hinv1) as (r' & E' & Hinv' & Hm' & Hc').
      exists r'. rewrite E1. obind. rewrite E', Hc', Hc1, Hm1.
      split_and!; try done; try congruence.
      f_equal. f_equal. pose proof (ringt_Len_range r Hwf).
      repeat case_decide; try done; lia.
    + destruct (ringt_Next_spec r Hwf) as (r1 & E1 & Hwf1 & Hc1 & HL1 & Hi1 & _ & _ & Hm1 & Hcl1).
      destruct (IH r1) as (r' & E' & Hinv' & Hm' & Hc').
      { split_and!; try done; [|by apply Hcl1]. unfold bounded. rewrite Hm1, Hi1. lia. }
      exists r'. rewrite E1. obind. rewrite E', Hc', Hc1, Hm1.
      split_and!; try done; congruence.
Qed.

End facts.
End RingTFacts.

(** ** WeightedRingT *)

Module WeightedRingTFacts.
Import WeightedRingT.
Section facts.
Context {T : Type}.
Implicit Types (r : WeightedRingT T) (x : option T) (w : Z).

Lemma wring_mask_spec r k : 0 ≤ k ≤ 62 → len (items r) = 2 ^ k → mask r = 2 ^ k - 1.
Proof. intros Hk Hlen. unfold mask. rewrite Hlen. apply mask_pow2. done. Qed.

Lemma wring_Len_empty r : items r = [] → wf r → Len r = 0.
Proof.
  intros Hnil [(_ & _ & Ht & Hh)|(k & Hk & Hlen & _)].
  - unfold Len, mask. rewrite Hnil, Ht, Hh. done.
  - rewrite Hnil in Hlen. pose proof (pow2_bounds k ltac:(lia)). unfold len in *.
    simpl in *. lia.
Qed.

Lemma wring_len_cases r : wf r → len (items r) = 0 ∨ 4 ≤ len (items r) ≤ 2 ^ 62.
Proof.
  intros [(Hi & _)|(k & Hk & Hlen & _)].
  - rewrite Hi. left. done.
  - right. rewrite Hlen. pose proof (pow2_bounds k ltac:(lia)).
    assert (2 ^ 2 ≤ 2 ^ k) by (apply Z.pow_le_mono_r; lia). lia.
Qed.

Lemma wring_len_weights r : wf r → len (weights r) = len (items r).
Proof.
  intros [(Hi & Hw & _)|(k & Hk & Hlen & Hlw & _)]; [rewrite Hi, Hw; done|congruence].
Qed.

Lemma wring_Len_range r : wf r → 0 ≤ Len r ∧ (Len r = 0 ∨ Len r < len (items r)).
Proof.
  intros Hwf. destruct (Hwf) as [(Hi & _)|(k & Hk & Hlen & Hlw & Ht & Hh)].
  - rewrite wring_Len_empty by done. lia.
  - unfold Len. rewrite (wring_mask_spec r k), Hlen, ring_Len_spec by (done || lia).
    repeat case_decide; lia.
Qed.

Lemma wring_content_length r : wf r → length (content r) = Z.to_nat (Len r).
Proof.
  intros Hwf. pose proof (wring_Len_range r Hwf) as Hl.
  destruct (Hwf) as [(Hi & _)|(k & Hk & Hlen & Hlw & Ht & Hh)].
  - unfold content. rewrite wring_Len_empty by done. done.
  - unfold content, len in *. apply circ_length; lia.
Qed.

Lemma wring_live_weights_length r : wf r → length (live_weights r) = Z.to_nat (Len r).
Proof.
  intros Hwf. pose proof (wring_Len_range r Hwf) as Hl.
  destruct (Hwf) as [(Hi & _)|(k & Hk & Hlen & Hlw & Ht & Hh)].
  - unfold live_weights. rewrite wring_Len_empty by done. done.
  - unfold live_weights, len in *. apply circ_length; lia.
Qed.

Lemma wring_Next_spec r :
  wf r →
  ∃ r', Next r = Ok (negb (Len r =? 0), hd None (content r), hd 0 (live_weights r), r') ∧
        wf r' ∧
        content r' = drop 1 (content r) ∧
        live_weights r' = drop 1 (live_weights r) ∧
        Len r' = Z.max 0 (Len r - 1) ∧
        len (items r') = len (items r) ∧ weights r' = weights r ∧
        head r' = head r ∧ MaxWeight r' = MaxWeight r ∧
        weight r' = (if Len r =? 0 then weight r
                     else iwrap (weight r - hd 0 (live_weights r))) ∧
        (cleared r → cleared r').
Proof.
  intros Hwf. pose proof (wring_Len_range r Hwf) as Hl.
  unfold Next. destruct (Z.eqb_spec (Len r) 0) as [H0|H0].
  { exists r. unfold content, live_weights. rewrite H0. simpl.
    split_and!; try done; lia. }
  destruct (Hwf) as [(Hi & _)|(k & Hk & Hlen & Hlw & Ht & Hh)].
  { rewrite wring_Len_empty in H0; done. }
  pose proof (wring_mask_spec r k ltac:(lia) Hlen) as Hmask.
  pose proof (pow2_bounds k ltac:(lia)) as Hp. unfold len in *.
  destruct (lookup_lt_is_Some_2 (items r) (Z.to_nat (tail r)) ltac:(lia)) as [x Hx].
  destruct (lookup_lt_is_Some_2 (weights r) (Z.to_nat (tail r)) ltac:(lia)) as [w Hw].
  rewrite (index_lookup _ _ w) by (done || lia). obind.
  rewrite (index_lookup _ _ x) by (done || lia). obind.
  rewrite assign_ok by (unfold len; lia). obind.
  destruct (ring_next_spec (tail r) k ltac:(lia) Ht) as (E & Hr & Hn).
  rewrite <- Hmask in E, Hr, Hn.
  set (r' := mkWeightedRingT _ _ _ _ _ _).
  assert (Hne : head r ≠ tail r).
  { intros Heq. apply H0. unfold Len. rewrite Heq, Z.sub_diag. done. }
  assert (Hmask' : mask r' = 2 ^ k - 1).
  { apply wring_mask_spec; [lia|]. unfold r', len. simpl. rewrite length_insert. done. }
  assert (HL : Len r' = Len r - 1).
  { unfold Len. rewrite Hmask'. unfold r'. simpl. rewrite Hmask.
    apply ring_Len_pop; [lia|done|done|done]. }
  assert (Hc' : content r = x :: content r').
  { unfold content. rewrite HL.
    replace (Z.to_nat (Len r)) with (S (Z.to_nat (Len r - 1))) by lia.
    rewrite (circ_uncons _ _ _ x) by (done || lia).
    unfold r'. simpl. rewrite Hn. f_equal.
    replace (Z.to_nat (2 ^ k)) with (length (items r)) by lia.
    symmetry. apply circ_insert_free; [unfold wrap_at; repeat case_decide; lia|lia|].
    unfold occupied, wrap_at. repeat case_decide; lia. }
  assert (Hw' : live_weights r = w :: live_weights r').
  { unfold live_weights. rewrite HL.
    replace (Z.to_nat (Len r)) with (S (Z.to_nat (Len r - 1))) by lia.
    rewrite (circ_uncons _ _ _ w) by (done || lia).
    unfold r'. simpl. rewrite Hn. do 3 f_equal. lia. }
  exists r'. rewrite Hc', Hw'. split_and!; try done.
  - right. exists k. unfold r', len. simpl. rewrite length_insert.
    repeat split; try done; lia.
  - lia.
  - unfold r'. simpl. rewrite length_insert. done.
  - intros Hcl j Hj Hlive. unfold r', len in *. simpl in *.
    rewrite length_insert in Hj.
    destruct (decide (j = tail r)) as [->|Hjt].
    + apply list_lookup_insert_eq. lia.
    + rewrite list_lookup_insert_ne by lia. apply Hcl; [unfold len; lia|].
      intros Hlv. apply Hlive. unfold live in *. rewrite E.
      repeat case_decide; lia.
Qed.

Lemma wring_push_spec r w x :
  wf r → Len r < len (items r) - 1 →
  ∃ r', put r w x = Ok r' ∧ wf r' ∧ content r' = content r ++ [x] ∧
        live_weights r' = live_weights r ++ [w] ∧
        Len r' = Len r + 1 ∧ len (items r') = len (items r) ∧
        MaxWeight r' = MaxWeight r ∧ weight r' = iwrap (weight r + w) ∧
        (cleared r → cleared r').
Proof.
  intros Hwf Hfull. pose proof (wring_Len_range r Hwf) as Hl.
  destruct (Hwf) as [(Hi & _)|(k & Hk & Hlen & Hlw & Ht & Hh)].
  { rewrite Hi in Hfull. rewrite wring_Len_empty in Hfull by done. unfold len in Hfull.
    simpl in Hfull. lia. }
  pose proof (wring_mask_spec r k ltac:(lia) Hlen) as Hmask.
  pose proof (pow2_bounds k ltac:(lia)) as Hp. unfold len in *.
  unfold put. rewrite assign_ok by (unfold len; lia). obind.
  rewrite assign_ok by (unfold len; lia). obind.
  destruct (ring_next_spec (head r) k ltac:(lia) Hh) as (E & Hr & Hn).
  rewrite <- Hmask in E, Hr, Hn.
  set (r' := mkWeightedRingT _ _ _ _ _ _). exists r'.
  assert (Hmask' : mask r' = 2 ^ k - 1).
  { apply wring_mask_spec; [lia|]. unfold r', len. simpl. rewrite length_insert. done. }
  assert (HL : Len r' = Len r + 1).
  { unfold Len. rewrite Hmask'. unfold r'. simpl. rewrite Hmask.
    apply ring_Len_push; [lia|done|done|].
    unfold Len in Hfull. rewrite Hmask in Hfull. lia. }
  assert (Hhd : Z.to_nat (head r)
                = wrap_at (Z.to_nat (2 ^ k)) (Z.to_nat (tail r) + Z.to_nat (Len r))).
  { unfold Len. rewrite Hmask, ring_Len_spec by (done || lia).
    unfold wrap_at. repeat case_decide; lia. }
  split_and!; try done.
  - right. exists k. unfold r', len. simpl. rewrite !length_insert.
    repeat split; try done; lia.
  - unfold content. rewrite HL. unfold r'. simpl. rewrite Hhd.
    replace (Z.to_nat (Len r + 1)) with (S (Z.to_nat (Len r))) by lia.
    replace (Z.to_nat (2 ^ k)) with (length (items r)) by lia.
    apply circ_snoc; lia.
  - unfold live_weights. rewrite HL. unfold r'. simpl. rewrite Hhd.
    replace (Z.to_nat (Len r + 1)) with (S (Z.to_nat (Len r))) by lia.
    replace (Z.to_nat (2 ^ k)) with (length (weights r)) by lia.
    apply circ_snoc; lia.
  - unfold r'. simpl. rewrite length_insert. done.
  - intros Hcl j Hj Hlive. unfold r', len in *. simpl in *.
    rewrite length_insert in Hj.
    unfold Len in Hfull. rewrite Hmask, ring_Len_spec in Hfull by (done || lia).
    assert (Hjh : j ≠ head r).
    { intros ->. apply Hlive. unfold live. rewrite E. repeat case_decide; lia. }
    rewrite list_lookup_insert_ne by lia. apply Hcl; [unfold len; lia|].
    intros Hlv. apply Hlive. unfold live in *. rewrite E.
    repeat case_decide; lia.
Qed.

Lemma wring_drain_spec n : ∀ (i : nat) r newI newW,
  wf r → Z.of_nat n ≤ Len r →
  (i + n ≤ length newI)%nat → (i + n ≤ length newW)%nat → len newI ≤ 2 ^ 62 →
  ∃ r', drain n (Z.of_nat i) r newI newW
        = Ok (r', take i newI ++ take n (content r) ++ drop (i + n) newI,
                  take i newW ++ take n (live_weights r) ++ drop (i + n) newW) ∧
        MaxWeight r' = MaxWeight r.
Proof.
  induction n as [|n IH]; intros i r newI newW Hwf Hn HiI HiW Hnew.
  - exists r. simpl. rewrite Nat.add_0_r, !take_drop. done.
  - destruct (wring_Next_spec r Hwf)
      as (r1 & E1 & Hwf1 & Hc1 & Hw1 & HL1 & _ & _ & _ & Hm1 & _).
    pose proof (wring_content_length r Hwf) as Hcl.
    pose proof (wring_live_weights_length r Hwf) as Hwl.
    destruct (content r) as [|x c] eqn:Hc; [simpl in Hcl; lia|].
    destruct (live_weights r) as [|w ws] eqn:Hws; [simpl in Hwl; lia|].
    simpl in Hc1, Hw1, E1. rewrite ?drop_0 in Hc1, Hw1.
    unfold len in *. simpl. rewrite E1. obind.
    rewrite assign_ok by (unfold len; lia). obind.
    rewrite assign_ok by (unfold len; lia). obind.
    rewrite Nat2Z.id, iwrap_small by lia.
    replace (Z.of_nat i + 1) with (Z.of_nat (S i)) by lia.
    destruct (IH (S i) r1 (<[i:=x]> newI) (<[i:=w]> newW) Hwf1) as (r' & E' & Hm').
    { lia. } { rewrite length_insert. lia. } { rewrite length_insert. lia. }
    { unfold len. rewrite length_insert. lia. }
    exists r'. rewrite E', Hc1, Hw1. split; [|congruence]. do 2 f_equal.
    + f_equal.
      rewrite (take_S_r _ i x) by (apply list_lookup_insert_eq; lia).
      rewrite take_insert_ge by lia. rewrite drop_insert_lt by lia.
      rewrite <- app_assoc. replace (i + S n)%nat with (S i + n)%nat by lia. done.
    + rewrite (take_S_r _ i w) by (apply list_lookup_insert_eq; lia).
      rewrite take_insert_ge by lia. rewrite drop_insert_lt by lia.
      rewrite <- app_assoc. replace (i + S n)%nat with (S i + n)%nat by lia. done.
Qed.

Lemma wring_grow_spec r :
  wf r → len (items r) ≤ 2 ^ 61 →
  ∃ r', grow r = Ok r' ∧ wf r' ∧ cleared r' ∧
        content r' = content r ∧ live_weights r' = live_weights r ∧
        Len r' = Len r ∧
        len (items r') = Z.max 4 (2 * len (items r)) ∧
        items r' = content r
                   ++ replicate (Z.to_nat (Z.max 4 (2 * len (items r)) - Len r)) None ∧
        weights r' = live_weights r
                   ++ replicate (Z.to_nat (Z.max 4 (2 * len (items r)) - Len r)) 0 ∧
        tail r' = 0 ∧ head r' = Len r ∧
        MaxWeight r' = MaxWeight r ∧ weight r' = weight r.
Proof.
  intros Hwf Hsz. pose proof (wring_Len_range r Hwf) as Hl.
  pose proof (wring_content_length r Hwf) as Hcl.
  pose proof (wring_live_weights_length r Hwf) as Hwl.
  pose proof (wring_len_cases r Hwf) as Hlc.
  set (N := Z.max 4 (2 * len (items r))).
  assert (HN : ∃ k, 2 ≤ k ≤ 62 ∧ N = 2 ^ k).
  { destruct Hwf as [(Hi & _)|(k & Hk & Hlen & _)].
    - exists 2. unfold N. rewrite Hi. done.
    - exists (k + 1). rewrite Z.pow_add_r by lia. unfold N. rewrite Hlen in *.
      change (2 ^ 1) with 2. pose proof (pow2_bounds k ltac:(lia)).
      pose proof (pow2_le_inv k 61 ltac:(lia) ltac:(lia) Hsz).
      assert (2 ^ 2 ≤ 2 ^ k) by (apply Z.pow_le_mono_r; lia). lia. }
  destruct HN as (k & Hk & HNk). pose proof (pow2_bounds k ltac:(lia)) as Hp.
  assert (HlN : Len r < N) by (unfold N; lia).
  unfold grow. rewrite (iwrap_small (len (items r) * 2)) by (unfold len in *; lia).
  assert (E : (if len (items r) * 2 <? 4 then 4 else len (items r) * 2) = N).
  { unfold N. destruct (Z.ltb_spec (len (items r) * 2) 4); lia. }
  rewrite E.
  destruct (wring_drain_spec (Z.to_nat (Len r)) 0 r (replicate (Z.to_nat N) None)
              (replicate (Z.to_nat N) 0) Hwf)
    as (r1 & E1 & Hm1).
  { lia. } { rewrite length_replicate. lia. } { rewrite length_replicate. lia. }
  { unfold len. rewrite length_replicate. lia. }
  change (Z.of_nat 0) with 0 in E1. rewrite E1. obind.
  rewrite !take_0, (take_ge (content r)), (take_ge (live_weights r)) by lia. simpl.
  rewrite !drop_replicate.
  replace (Z.to_nat N - Z.to_nat (Len r))%nat with (Z.to_nat (N - Len r)) by lia.
  rewrite (uwrap_small (Len r)) by lia.
  set (r' := mkWeightedRingT _ _ _ _ _ _).
  assert (Hlen' : len (items r') = N).
  { unfold r', len. simpl. rewrite length_app, length_replicate. lia. }
  assert (Hlw' : len (weights r') = N).
  { unfold r', len. simpl. rewrite length_app, length_replicate. lia. }
  assert (Hwf' : wf r').
  { right. exists k. rewrite Hlen', Hlw'. unfold r'. simpl. repeat split; try done; lia. }
  assert (HL : Len r' = Len r).
  { unfold Len at 1. rewrite (wring_mask_spec r' k) by (lia || congruence).
    unfold r'. simpl. rewrite ring_Len_spec by lia. repeat case_decide; lia. }
  exists r'. split_and!; try done.
  - intros j Hj Hlive. rewrite Hlen' in Hj. unfold live, r' in *. simpl in *.
    assert (Len r ≤ j) by (repeat case_decide; lia).
    rewrite lookup_app_r by lia. apply lookup_replicate_2. lia.
  - unfold content at 1. rewrite HL. unfold r'. simpl. rewrite <- Hcl.
    apply circ_fresh.
  - unfold live_weights at 1. rewrite HL. unfold r'. simpl. rewrite <- Hwl.
    apply circ_fresh.
Qed.

Lemma wring_Next_inv r :
  inv r →
  ∃ r', Next r = Ok (negb (Len r =? 0), hd None (content r), hd 0 (live_weights r), r') ∧
        inv r' ∧ content r' = drop 1 (content r) ∧
        live_weights r' = drop 1 (live_weights r) ∧
        Len r' = Z.max 0 (Len r - 1) ∧ len (items r') = len (items r) ∧
        MaxWeight r' = MaxWeight r.
Proof.
  intros (Hwf & Hcl & Hsum).
  destruct (wring_Next_spec r Hwf)
    as (r1 & E1 & Hwf1 & Hc1 & Hw1 & HL1 & Hi1 & _ & _ & Hm1 & Hwt & Hcl1).
  pose proof (wring_live_weights_length r Hwf) as Hwl.
  exists r1. split_and!; try done. split_and!; [done|by apply Hcl1|].
  rewrite Hwt, Hw1. destruct (Z.eqb_spec (Len r) 0) as [H0|H0].
  - rewrite Hsum. destruct (live_weights r); [done|simpl in Hwl; lia].
  - destruct (live_weights r) as [|w ws]; [simpl in Hwl; pose proof (wring_Len_range r Hwf); lia|].
    simpl. rewrite drop_0, Hsum. simpl. rewrite iwrap_sub_l. f_equal. lia.
Qed.

Lemma wring_evict_spec w fuel : ∀ r,
  inv r → (Z.to_nat (Len r) ≤ fuel)%nat →
  ∃ r' d, evict fuel r w = Ok r' ∧ inv r' ∧
          content r' = drop d (content r) ∧
          live_weights r' = drop d (live_weights r) ∧
          (iwrap (weight r' + w) ≤ MaxWeight r ∨ Len r' = 0) ∧
          len (items r') = len (items r) ∧ MaxWeight r' = MaxWeight r ∧
          Len r' ≤ Len r.
Proof.
  induction fuel as [|fuel IH]; intros r Hinv Hfuel;
    pose proof Hinv as (Hwf & _); pose proof (wring_Len_range r Hwf) as Hl.
  - exists r, 0%nat. simpl. rewrite Z.gtb_ltb.
    destruct (Z.ltb_spec (MaxWeight r) (iwrap (weight r + w)));
      destruct (Z.eqb_spec (Len r) 0); simpl; try lia;
      split_and!; try done; lia.
  - simpl. rewrite Z.gtb_ltb.
    destruct (Z.ltb_spec (MaxWeight r) (iwrap (weight r + w)));
      destruct (Z.eqb_spec (Len r) 0); simpl;
      try (exists r, 0%nat; split_and!; try done; lia).
    destruct (wring_Next_inv r Hinv) as (r1 & E1 & Hinv1 & Hc1 & Hw1 & HL1 & Hi1 & Hm1).
    destruct (IH r1 Hinv1 ltac:(lia))
      as (r' & d & E' & Hinv' & Hc' & Hw' & Hfit & Hi' & Hm' & HL').
    exists r', (S d). rewrite E1. obind. rewrite E'.
    rewrite Hc', Hw', Hc1, Hw1, !drop_drop.
    split_and!; try done; try congruence; lia.
Qed.

(** The first step of [Add]: make room when the storage is full. *)
Lemma wring_Add_grow r :
  inv r → len (items r) ≤ 2 ^ 61 →
  ∃ r2, (if (len (items r) =? 0) || (Len r =? iwrap (len (items r) - 1))
         then grow r else Ok r) = Ok r2 ∧
        inv r2 ∧ content r2 = content r ∧ live_weights r2 = live_weights r ∧
        Len r2 = Len r ∧ Len r2 < len (items r2) - 1 ∧
        len (items r2) ≤ Z.max (len (items r)) (Z.max 4 (2 * (Len r + 1))) ∧
        MaxWeight r2 = MaxWeight r.
Proof.
  intros (Hwf & Hcl & Hsum) Hsz. pose proof (wring_Len_range r Hwf) as Hl.
  pose proof (wring_len_cases r Hwf) as Hlc.
  rewrite (iwrap_small (len (items r) - 1)) by (unfold len in *; lia).
  destruct (Z.eqb_spec (len (items r)) 0) as [H0|H0];
    [|destruct (Z.eqb_spec (Len r) (len (items r) - 1)) as [Hf|Hf]]; simpl.
  - destruct (wring_grow_spec r Hwf Hsz)
      as (r2 & E & Hwf2 & Hcl2 & Hc2 & Hw2 & HL2 & Hlen2 & _ & _ & _ & _ & Hm2 & Hwt2).
    exists r2. split_and!; try done; try lia.
    split_and!; try done. rewrite Hwt2, Hw2. done.
  - destruct (wring_grow_spec r Hwf Hsz)
      as (r2 & E & Hwf2 & Hcl2 & Hc2 & Hw2 & HL2 & Hlen2 & _ & _ & _ & _ & Hm2 & Hwt2).
    exists r2. split_and!; try done; try lia.
    split_and!; try done. rewrite Hwt2, Hw2. done.
  - exists r. split_and!; try done; lia.
Qed.

Lemma wring_Add_spec r w x :
  inv r → len (items r) ≤ 2 ^ 61 →
  ∃ r' d, Add r w x = Ok r' ∧ inv r' ∧ MaxWeight r' = MaxWeight r ∧
          content r' = drop d (content r) ++ [x] ∧
          live_weights r' = drop d (live_weights r) ++ [w] ∧
          (is_int w →
           Weight r' ≤ MaxWeight r ∨ (live_weights r' = [w] ∧ MaxWeight r < w)) ∧
          len (items r') ≤ Z.max (len (items r)) (Z.max 4 (2 * (Len r + 1))) ∧
          Len r' ≤ Len r + 1.
Proof.
  intros Hinv Hsz.
  destruct (wring_Add_grow r Hinv Hsz)
    as (r2 & E2 & Hinv2 & Hc2 & Hw2 & HL2 & Hf2 & Hsz2 & Hm2).
  destruct (wring_evict_spec w (Z.to_nat (Len r2)) r2 Hinv2 ltac:(lia))
    as (r3 & d & E3 & Hinv3 & Hc3 & Hw3 & Hfit & Hi3 & Hm3 & HL3).
  destruct Hinv3 as (Hwf3 & Hcl3 & Hsum3).
  destruct (wring_push_spec r3 w x Hwf3 ltac:(lia))
    as (r' & E4 & Hwf' & Hc' & Hw' & HL' & Hi' & Hm' & Hwt' & Hcl').
  exists r', d. unfold Add. rewrite E2. obind. rewrite E3. obind. rewrite E4.
  split_and!; try done; try congruence; try lia.
  - split_and!; [done|by apply Hcl'|].
    rewrite Hwt', Hw', Hsum3, zsum_app, iwrap_add_l. simpl. f_equal. lia.
  - intros Hw. unfold Weight. rewrite Hwt', Hw', Hw3, <- Hm2.
    destruct Hfit as [Hfit|H0]; [left; done|].
    pose proof (wring_live_weights_length r3 Hwf3) as Hwl. rewrite H0 in Hwl.
    rewrite <- Hw3.
    destruct (live_weights r3); [|simpl in Hwl; lia].
    rewrite Hsum3. change (zsum []) with 0.
    rewrite iwrap_add_l, Z.add_0_l, (iwrap_small w) by done.
    destruct (decide (w ≤ MaxWeight r2)); [left; done|right; split; [done|lia]].
Qed.

(** Every sequence of operations of bounded length runs to completion and
    keeps the invariant. *)
Lemma wring_run_spec ops : ∀ r a,
  inv r → Len r ≤ a → len (items r) ≤ 4 * (a + 1) → 0 ≤ a →
  a + len ops ≤ 2 ^ 58 →
  ∃ r', run ops r = Ok r' ∧ inv r' ∧ MaxWeight r' = MaxWeight r ∧
        len (items r') ≤ 2 ^ 61.
Proof.
  induction ops as [|o ops IH]; intros r a Hinv Ha Hsz Ha0 Hops.
  - exists r. unfold len in *. simpl in *. split_and!; try done. lia.
  - unfold len in Hops. simpl length in Hops. destruct o as [w x|]; simpl.
    + destruct (wring_Add_spec r w x Hinv ltac:(lia))
        as (r1 & d & E1 & Hinv1 & Hm1 & _ & _ & _ & Hsz1 & HL1).
      destruct (IH r1 (a + 1) Hinv1) as (r' & E' & Hinv' & Hm' & Hsz');
        [unfold len in *; lia..|].
      exists r'. rewrite E1. obind. rewrite E'. split_and!; try done. congruence.
    + destruct (wring_Next_inv r Hinv) as (r1 & E1 & Hinv1 & _ & _ & HL1 & Hi1 & Hm1).
      destruct (IH r1 a Hinv1) as (r' & E' & Hinv' & Hm' & Hsz');
        [unfold len in *; lia..|].
      exists r'. rewrite E1. obind. rewrite E'. split_and!; try done. congruence.
Qed.

Lemma wring_New_inv W : inv (NewWeightedRingT (T:=T) W).
Proof.
  split_and!.
  - left. done.
  - intros j Hj. unfold len in Hj. simpl in Hj. lia.
  - done.
Qed.

Lemma wring_peek_in r i x w :
  wf r → 0 ≤ i < Len r →
  content r !! Z.to_nat i = Some x → live_weights r !! Z.to_nat i = Some w →
  peek r i = Ok (x, w, r).
Proof.
  intros Hwf Hi Hx Hw. pose proof (wring_Len_range r Hwf) as Hl.
  destruct (Hwf) as [(Hnil & _)|(k & Hk & Hlen & Hlw & Ht & Hh)].
  { rewrite wring_Len_empty in Hi by done. lia. }
  pose proof (pow2_bounds k ltac:(lia)) as Hp. unfold len in *.
  unfold peek. rewrite (wring_mask_spec r k) by (done || lia).
  rewrite ring_add_spec by lia.
  unfold content in Hx. rewrite circ_lookup in Hx by lia.
  unfold live_weights in Hw. rewrite circ_lookup in Hw by lia.
  set (j := if decide (tail r + i < 2 ^ k) then tail r + i else tail r + i - 2 ^ k).
  assert (Hj : 0 ≤ j) by (unfold j; repeat case_decide; lia).
  assert (Hjn : Z.to_nat j = wrap_at (length (items r)) (Z.to_nat (tail r) + Z.to_nat i)).
  { unfold j, wrap_at. repeat case_decide; lia. }
  rewrite (index_lookup _ _ x) by (done || rewrite Hjn; done). obind.
  rewrite (index_lookup _ _ w); [done|done|].
  rewrite Hjn. rewrite <- Hw. f_equal. f_equal. lia.
Qed.

End facts.
End WeightedRingTFacts.

(** ** The byte ring *)

Section copy.
Context {A : Type}.
Implicit Types (buf src : list A) (s l p : nat).

Lemma copy_length buf s l src :
  (s + l ≤ length buf)%nat → length (copy buf (s, l) src) = length buf.
Proof.
  intros H. unfold copy. simpl.
  rewrite !length_app, !length_take, length_drop. lia.
Qed.

Lemma copy_lookup buf s l src p :
  (s + l ≤ length buf)%nat → (l ≤ length src)%nat →
  copy buf (s, l) src !! p
  = if decide (s ≤ p < s + l)%nat then src !! (p - s)%nat else buf !! p.
Proof.
  intros Hb Hs. unfold copy. simpl. rewrite Nat.min_l by done.
  destruct (decide (p < s)%nat).
  - rewrite lookup_app_l by (rewrite length_take; lia).
    rewrite lookup_take_lt by done. rewrite decide_False by lia. done.
  - rewrite lookup_app_r by (rewrite length_take; lia).
    rewrite length_take, Nat.min_l by lia.
    destruct (decide (p < s + l)%nat).
    + rewrite lookup_app_l by (rewrite length_take; lia).
      rewrite lookup_take_lt by lia. rewrite decide_True by lia. done.
    + rewrite lookup_app_r by (rewrite length_take; lia).
      rewrite length_take, Nat.min_l by lia. rewrite lookup_drop.
      rewrite decide_False by lia. f_equal. lia.
Qed.

Lemma copy_take buf s l src :
  (l ≤ length src)%nat →
  copy buf (s, l) src = copy buf (s, length (take l src)) (take l src).
Proof.
  intros Hl. unfold copy. simpl. rewrite length_take.
  rewrite !(Nat.min_l l (length src)) by done.
  rewrite Nat.min_id, take_take, Nat.min_id. done.
Qed.

(** Growing the array behind a view that does not wrap. *)
Lemma circ_app_flat (l pad : list A) t n :
  (t < length l)%nat → (t + n ≤ length l)%nat → circ (l ++ pad) t n = circ l t n.
Proof.
  intros Ht Hn. apply circ_ext; rewrite ?length_app; try lia.
  intros i Hi. unfold wrap_at. rewrite !decide_True by lia.
  apply lookup_app_l. lia.
Qed.

(** Growing the array behind a view that wraps, with the wrapped prefix
    moved behind the old end. *)
Lemma circ_app_unwrap (l pad : list A) t n h :
  (t < length l)%nat → (n < length l)%nat → (t + n = length l + h)%nat →
  (length l ≤ length pad + h)%nat →
  circ (l ++ take h l ++ pad) t n = circ l t n.
Proof.
  intros Ht Hn Hh Hpad. apply circ_ext; rewrite ?length_app, ?length_take; try lia.
  intros i Hi. unfold wrap_at.
  rewrite (decide_True (P := (t + i < length l + _)%nat)) by lia.
  case_decide.
  - apply lookup_app_l. lia.
  - rewrite lookup_app_r by lia. rewrite lookup_app_l by (rewrite length_take; lia).
    apply lookup_take_lt. lia.
Qed.

(** Writing [x] behind the view. *)
Lemma circ_write (l x : list A) t n :
  (t < length l)%nat → (n + length x < length l)%nat →
  (wrap_at (length l) (t + n) + length x ≤ length l)%nat →
  circ (copy l (wrap_at (length l) (t + n), length x) x) t (n + length x)
  = circ l t n ++ x.
Proof.
  intros Ht Hn Hroom. apply list_eq. intros i.
  destruct (decide (i < n + length x)%nat) as [Hi|Hi].
  - rewrite circ_lookup by (rewrite ?copy_length; lia).
    rewrite copy_length, copy_lookup by lia.
    destruct (decide (i < n)%nat).
    + rewrite lookup_app_l by (rewrite circ_length; lia).
      rewrite circ_lookup by lia.
      rewrite decide_False; [done|]. unfold wrap_at in *. repeat case_decide; lia.
    + rewrite lookup_app_r by (rewrite circ_length; lia).
      rewrite circ_length by lia.
      rewrite decide_True by (unfold wrap_at in *; repeat case_decide; lia).
      f_equal. unfold wrap_at in *. repeat case_decide; lia.
  - rewrite circ_lookup_ge by lia. symmetry. apply lookup_ge_None.
    rewrite length_app, circ_length by lia. lia.
Qed.

(** Reading the first [c] elements of the view, which do not wrap. *)
Lemma circ_read (l : list A) t n c :
  (t < length l)%nat → (n < length l)%nat → (c ≤ n)%nat → (t + c ≤ length l)%nat →
  circ l t n = view l (t, c) ++ circ l (wrap_at (length l) (t + c)) (n - c).
Proof.
  intros Ht Hn Hc Hroom. apply list_eq. intros i. unfold view. simpl.
  assert (Hvl : length (take c (drop t l)) = c).
  { rewrite length_take, length_drop. lia. }
  destruct (decide (i < n)%nat) as [Hi|Hi].
  - rewrite circ_lookup by lia.
    destruct (decide (i < c)%nat).
    + rewrite lookup_app_l by lia. rewrite lookup_take_lt, lookup_drop by lia.
      unfold wrap_at. rewrite decide_True by lia. done.
    + rewrite lookup_app_r by lia. rewrite Hvl.
      rewrite circ_lookup by (unfold wrap_at; repeat case_decide; lia).
      f_equal. unfold wrap_at. repeat case_decide; lia.
  - rewrite circ_lookup_ge by lia. symmetry. apply lookup_ge_None.
    rewrite length_app, Hvl, circ_length; unfold wrap_at; repeat case_decide; lia.
Qed.

End copy.

Lemma ring_Len_unique h t n k :
  0 ≤ k ≤ 62 → 0 ≤ t < 2 ^ k → 0 ≤ n < 2 ^ k →
  h = (if decide (t + n < 2 ^ k) then t + n else t + n - 2 ^ k) →
  iwrap (Z.land (uwrap (h - t)) (2 ^ k - 1)) = n.
Proof.
  intros Hk Ht Hn ->. rewrite ring_Len_spec by (repeat case_decide; lia).
  repeat case_decide; lia.
Qed.

Module ByteRingFacts.
Import ByteRing.
Implicit Types (r : Ring) (b : list byte).

Lemma bring_end_spec r k : 0 ≤ k ≤ 62 → len (data r) = 2 ^ k → end_ r = 2 ^ k.
Proof.
  intros Hk Hlen. unfold end_. rewrite Hlen. pose proof (pow2_bounds k Hk).
  apply uwrap_small. lia.
Qed.

Lemma bring_mask_spec r k : 0 ≤ k ≤ 62 → len (data r) = 2 ^ k → mask r = 2 ^ k - 1.
Proof. intros Hk Hlen. unfold mask. rewrite Hlen. apply mask_pow2. done. Qed.

Lemma bring_Len_empty r : data r = [] → wf r → Len r = 0.
Proof.
  intros Hnil [(_ & Ht & Hh)|(k & Hk & Hlen & _)].
  - unfold Len, mask. rewrite Hnil, Ht, Hh. done.
  - rewrite Hnil in Hlen. pose proof (pow2_bounds k ltac:(lia)). unfold len in *.
    simpl in *. lia.
Qed.

Lemma bring_len_bound r : wf r → 0 ≤ len (data r) ≤ 2 ^ 62.
Proof.
  intros [(Hi & _)|(k & Hk & Hlen & _)].
  - rewrite Hi. done.
  - rewrite Hlen. pose proof (pow2_bounds k ltac:(lia)). lia.
Qed.

Lemma bring_Len_range r : wf r → 0 ≤ Len r ∧ (Len r = 0 ∨ Len r < len (data r)).
Proof.
  intros Hwf. destruct (Hwf) as [(Hi & _)|(k & Hk & Hlen & Ht & Hh)].
  - rewrite bring_Len_empty by done. lia.
  - unfold Len. rewrite (bring_mask_spec r k), Hlen, ring_Len_spec by (done || lia).
    repeat case_decide; lia.
Qed.

Lemma bring_Len_0_iff r : wf r → Len r = 0 ↔ head r = tail r.
Proof.
  intros Hwf. destruct (Hwf) as [(Hi & Ht & Hh)|(k & Hk & Hlen & Ht & Hh)].
  - rewrite bring_Len_empty by done. rewrite Ht, Hh. done.
  - unfold Len. rewrite (bring_mask_spec r k), ring_Len_spec by (done || lia).
    repeat case_decide; lia.
Qed.

Lemma bring_head_spec r :
  wf r → data r ≠ [] →
  Z.to_nat (head r) = wrap_at (length (data r)) (Z.to_nat (tail r) + Z.to_nat (Len r)).
Proof.
  intros [(Hi & _)|(k & Hk & Hlen & Ht & Hh)] Hne; [done|].
  unfold Len. rewrite (bring_mask_spec r k), ring_Len_spec by (done || lia).
  pose proof (pow2_bounds k ltac:(lia)). unfold len, wrap_at in *.
  repeat case_decide; lia.
Qed.

Lemma bring_content_length r : wf r → length (content r) = Z.to_nat (Len r).
Proof.
  intros Hwf. pose proof (bring_Len_range r Hwf) as Hl.
  destruct (Hwf) as [(Hi & _)|(k & Hk & Hlen & Ht & Hh)].
  - unfold content. rewrite bring_Len_empty by done. done.
  - unfold content, len in *. apply circ_length; lia.
Qed.

(** The doubling loop ends at a power of two that suffices. *)
Lemma bring_double_until_spec need fuel : ∀ j,
  0 ≤ j ≤ 62 → need ≤ 2 ^ 62 → (Z.to_nat (62 - j) ≤ fuel)%nat →
  ∃ j', j ≤ j' ≤ 62 ∧ double_until fuel (2 ^ j) need = Ok (2 ^ j') ∧
        need ≤ 2 ^ j' ∧ (2 ^ j < need → j < j').
Proof.
  induction fuel as [|fuel IH]; intros j Hj Hneed Hfuel.
  - assert (j = 62) as -> by lia. exists 62. simpl.
    destruct (Z.ltb_spec (2 ^ 62) need); [lia|]. split_and!; try done; lia.
  - simpl. destruct (Z.ltb_spec (2 ^ j) need) as [Hlt|Hge].
    + assert (j < 62).
      { destruct (decide (j < 62)); [done|]. assert (j = 62) as -> by lia. lia. }
      pose proof (pow2_bounds (j + 1) ltac:(lia)) as Hp.
      rewrite Z.pow_add_r in Hp by lia. change (2 ^ 1) with 2 in Hp.
      rewrite uwrap_small by lia.
      destruct (IH (j + 1) ltac:(lia) Hneed ltac:(lia)) as (j' & Hj' & E & Hn & _).
      rewrite Z.pow_add_r in E by lia. change (2 ^ 1) with 2 in E.
      exists j'. split_and!; try done; lia.
    + exists j. split_and!; try done; lia.
Qed.

(** The fuel of [double_until] is exact: a loop that has not ended after
    sixty-four doublings has reached 0 and never ends. *)
Lemma bring_double_until_zero need fuel : 0 < need → double_until fuel 0 need = Diverge.
Proof.
  intros Hneed. induction fuel as [|fuel IH]; simpl;
    destruct (Z.ltb_spec 0 need); try lia; done.
Qed.

Lemma bring_double_until_more need n : ∀ cap m,
  (n ≤ 64)%nat → 0 ≤ cap < 2 ^ 64 → (2 ^ (64 - Z.of_nat n) | cap) →
  double_until n cap need = Diverge →
  double_until (n + m) cap need = Diverge.
Proof.
  induction n as [|n IH]; intros cap m Hn Hcap Hdiv Hd.
  - assert (cap = 0) as ->.
    { destruct Hdiv as [q Hq]. change (64 - Z.of_nat 0) with 64 in Hq.
      assert (q = 0) by nia. subst q. lia. }
    simpl in Hd. destruct (Z.ltb_spec 0 need); [|done].
    apply bring_double_until_zero. done.
  - simpl in *. destruct (Z.ltb_spec cap need); [|done].
    apply IH; [lia| |  |done].
    + unfold uwrap. apply Z.mod_pos_bound. lia.
    + unfold uwrap. rewrite Z.mod_eq by lia.
      destruct Hdiv as [q Hq].
      assert (E : 2 ^ (64 - Z.of_nat n) = 2 * 2 ^ (64 - Z.of_nat (S n))).
      { rewrite <- Z.pow_succ_r by lia. f_equal. lia. }
      apply Z.divide_sub_r.
      * exists q. rewrite E, Hq. lia.
      * apply Z.divide_mul_l.
        exists (2 ^ Z.of_nat n). rewrite <- Z.pow_add_r by lia. f_equal. lia.
Qed.

Lemma bring_double_until_diverges cap need fuel :
  0 ≤ cap < 2 ^ 64 → double_until 64 cap need = Diverge →
  double_until (64 + fuel) cap need = Diverge.
Proof.
  intros Hcap Hd. apply bring_double_until_more; try done.
  change (64 - Z.of_nat 64) with 0. apply Z.divide_1_l.
Qed.

Lemma bring_ensureCapacity_keep r f :
  wf r → 0 ≤ f → f + Len r + 1 ≤ len (data r) → ensureCapacity r f = Ok r.
Proof.
  intros Hwf Hf Hneed. pose proof (bring_Len_range r Hwf) as Hl.
  pose proof (bring_len_bound r Hwf) as Hb.
  unfold ensureCapacity.
  rewrite (uwrap_small (Len r)), (uwrap_small (f + _)), (uwrap_small (_ + 1)),
    (uwrap_small (len _)) by lia.
  destruct (Z.leb_spec (f + Len r + 1) (len (data r))); [done|lia].
Qed.

Lemma bring_ensureCapacity_grow r f :
  wf r → 0 ≤ f → len (data r) < f + Len r + 1 ≤ 2 ^ 62 →
  ∃ j, 6 ≤ j ≤ 62 ∧ f + Len r + 1 ≤ 2 ^ j ∧ 2 * len (data r) ≤ 2 ^ j ∧
       ensureCapacity r f
       = Ok (if decide (head r < tail r)
             then mkRing (head r + len (data r)) (tail r)
                    (data r ++ take (Z.to_nat (head r)) (data r)
                     ++ replicate (Z.to_nat (2 ^ j - len (data r) - head r)) x00)
             else mkRing (head r) (tail r)
                    (data r ++ replicate (Z.to_nat (2 ^ j - len (data r))) x00)).
Proof.
  intros Hwf Hf Hneed. pose proof (bring_Len_range r Hwf) as Hl.
  pose proof (bring_len_bound r Hwf) as Hb.
  unfold ensureCapacity.
  rewrite (uwrap_small (Len r)), (uwrap_small (f + _)), (uwrap_small (_ + 1)),
    (uwrap_small (len _)) by lia.
  destruct (Z.leb_spec (f + Len r + 1) (len (data r))); [lia|].
  assert (Hcap : ∃ j0, 6 ≤ j0 ≤ 62 ∧
            (if len (data r) <? DefaultSize then DefaultSize else len (data r)) = 2 ^ j0 ∧
            (len (data r) < 2 ^ j0 → 2 * len (data r) ≤ 2 ^ j0) ∧
            (64 ≤ len (data r) → len (data r) = 2 ^ j0)).
  { unfold DefaultSize. destruct (Z.ltb_spec (len (data r)) 64) as [Hlt|Hge].
    - exists 6. split_and!; try done; [|lia].
      destruct Hwf as [(Hi & _)|(k & Hk & Hlen & _)]; [rewrite Hi; done|].
      rewrite Hlen in *. intros _.
      assert (k ≤ 5).
      { destruct (decide (k ≤ 5)); [done|].
        assert (2 ^ 6 ≤ 2 ^ k) by (apply Z.pow_le_mono_r; lia). lia. }
      assert (2 ^ k ≤ 2 ^ 5) by (apply Z.pow_le_mono_r; lia). lia.
    - destruct Hwf as [(Hi & _)|(k & Hk & Hlen & _)];
        [rewrite Hi in Hge; unfold len in Hge; simpl in Hge; lia|].
      exists k. rewrite Hlen in *. split_and!; try done; try lia.
      apply (pow2_le_inv 6 k); lia. }
  destruct Hcap as (j0 & Hj0 & -> & Hdbl & Hsame).
  destruct (bring_double_until_spec (f + Len r + 1) 64 j0 ltac:(lia) ltac:(lia) ltac:(lia))
    as (j & Hj & -> & Hnj & Hlt).
  obind. pose proof (pow2_bounds j ltac:(lia)) as Hp.
  assert (H2 : 2 * len (data r) ≤ 2 ^ j).
  { destruct (decide (len (data r) < 2 ^ j0)) as [Hc|Hc].
    - assert (2 ^ j0 ≤ 2 ^ j) by (apply Z.pow_le_mono_r; lia). lia.
    - assert (j0 < j) by (apply Hlt; lia).
      assert (2 ^ (j0 + 1) ≤ 2 ^ j) by (apply Z.pow_le_mono_r; lia).
      rewrite Z.pow_add_r in * by lia. change (2 ^ 1) with 2 in *.
      assert (2 ^ 6 ≤ 2 ^ j0) by (apply Z.pow_le_mono_r; lia).
      rewrite Hsame by lia. lia. }
  exists j. split_and!; try done; try lia.
  rewrite (uwrap_small (2 ^ j - _)), iwrap_small by lia.
  destruct (Z.ltb_spec (head r) (tail r)) as [Hht|Hht].
  - destruct Hwf as [(Hi & Ht & Hh)|(k & Hk & Hlen & Ht & Hh)]; [lia|].
    rewrite decide_True by done.
    rewrite (uwrap_small (len _ + _)), (uwrap_small (head r + _)) by lia.
    unfold slice.
    rewrite bool_decide_true
      by (unfold len in *; rewrite length_app, length_replicate; lia).
    obind.
    rewrite bool_decide_true
      by (unfold len in *; rewrite length_app, length_replicate; lia).
    obind. do 2 f_equal. unfold view, copy. simpl.
    rewrite drop_0, Z.sub_0_r.
    replace (Z.to_nat (len (data r) + head r - len (data r))) with (Z.to_nat (head r)) by lia.
    unfold len in *. rewrite Nat2Z.id.
    rewrite (take_app_le (data r) _ (Z.to_nat (head r))) by lia.
    rewrite take_app_length.
    rewrite length_take, (Nat.min_l _ (length (data r))) by lia.
    rewrite Nat.min_id, take_take, Nat.min_id.
    rewrite drop_app_add' by done. rewrite drop_replicate.
    do 3 f_equal. lia.
  - rewrite decide_False by lia. done.
Qed.

Lemma bring_ensureCapacity_spec r f :
  wf r → 0 ≤ f → f + Len r + 1 ≤ 2 ^ 62 →
  ∃ r', ensureCapacity r f = Ok r' ∧ wf r' ∧ content r' = content r ∧
        Len r' = Len r ∧ tail r' = tail r ∧
        f + Len r + 1 ≤ len (data r') ∧
        len (data r) - head r ≤ len (data r') - head r'.
Proof.
  intros Hwf Hf Hneed. pose proof (bring_Len_range r Hwf) as Hl.
  destruct (decide (f + Len r + 1 ≤ len (data r))) as [Hk|Hg].
  { exists r. rewrite bring_ensureCapacity_keep by done. split_and!; try done; lia. }
  destruct (bring_ensureCapacity_grow r f Hwf Hf ltac:(lia)) as (j & Hj & Hnj & H2 & E).
  pose proof (pow2_bounds j ltac:(lia)) as Hp.
  rewrite E. clear E. eexists. split; [done|].
  destruct (Hwf) as [(Hi & Ht & Hh)|(k & Hk & Hlen & Ht & Hh)].
  - rewrite decide_False by lia.
    set (r' := mkRing _ _ _).
    assert (Hlen' : len (data r') = 2 ^ j).
    { unfold r', len. simpl. rewrite length_app, length_replicate, Hi. simpl. lia. }
    assert (Hwf' : wf r').
    { right. exists j. rewrite Hlen'. unfold r'. simpl. rewrite Ht, Hh. lia. }
    assert (HL : Len r' = 0).
    { apply bring_Len_0_iff; [done|]. unfold r'. simpl. lia. }
    split_and!; try done.
    + unfold content. rewrite HL, bring_Len_empty by done. done.
    + rewrite HL, bring_Len_empty by done. done.
    + lia.
    + rewrite Hlen', Hi. unfold r', len. simpl. lia.
  - pose proof (pow2_bounds k ltac:(lia)) as Hpk.
    assert (HLr : Len r = if decide (tail r ≤ head r) then head r - tail r
                          else head r - tail r + 2 ^ k).
    { unfold Len. rewrite (bring_mask_spec r k), ring_Len_spec by (done || lia). done. }
    destruct (decide (head r < tail r)) as [Hw|Hw].
    + set (r' := mkRing _ _ _).
      assert (Hlen' : len (data r') = 2 ^ j).
      { unfold r', len in *. simpl.
        rewrite !length_app, length_take, length_replicate. lia. }
      assert (Hwf' : wf r').
      { right. exists j. rewrite Hlen'. unfold r'. simpl. lia. }
      assert (HL : Len r' = Len r).
      { unfold Len at 1. rewrite (bring_mask_spec r' j) by (done || lia).
        unfold r'. simpl. rewrite ring_Len_spec by lia. rewrite HLr.
        repeat case_decide; lia. }
      split_and!; try done.
      * unfold content. rewrite HL. unfold r'. simpl.
        apply (circ_app_unwrap (data r)); rewrite ?length_replicate;
          rewrite ?HLr; unfold len in *; repeat case_decide; lia.
      * rewrite Hlen'. lia.
      * rewrite Hlen'. unfold r'. simpl. lia.
    + set (r' := mkRing _ _ _).
      assert (Hlen' : len (data r') = 2 ^ j).
      { unfold r', len in *. simpl. rewrite !length_app, length_replicate. lia. }
      assert (Hwf' : wf r').
      { right. exists j. rewrite Hlen'. unfold r'. simpl. lia. }
      assert (HL : Len r' = Len r).
      { unfold Len at 1. rewrite (bring_mask_spec r' j) by (done || lia).
        unfold r'. simpl. rewrite ring_Len_spec by lia. rewrite HLr.
        repeat case_decide; lia. }
      split_and!; try done.
      * unfold content. rewrite HL. unfold r'. simpl.
        apply circ_app_flat; rewrite ?HLr; unfold len in *; repeat case_decide; lia.
      * rewrite Hlen'. lia.
      * rewrite Hlen'. unfold r'. simpl. lia.
Qed.

(** [DirectWrite] followed by the copy of [src] into the slice it returns. *)
Lemma bring_DirectWrite_spec r n src :
  wf r → 0 ≤ n → 2 * Len r + n + 1 ≤ 2 ^ 62 → n ≤ len src →
  ∃ w r1, DirectWrite r n = Ok (w, r1) ∧
          let r2 := mkRing (head r1) (tail r1) (copy (data r1) w src) in
          wf r2 ∧ content r2 = content r ++ take (snd w) src ∧
          0 ≤ wlen w ≤ n ∧ Len r2 = Len r + wlen w ∧
          (wlen w < n → head r2 = 0) ∧
          2 * Len r + n + 1 ≤ len (data r2) ∧
          (n ≤ len (data r) - head r → wlen w = n).
Proof.
  intros Hwf Hn Hneed Hsrc. pose proof (bring_Len_range r Hwf) as Hl.
  destruct (bring_ensureCapacity_spec r (Len r + n) Hwf ltac:(lia) ltac:(lia))
    as (re & E & Hwfe & Hce & HLe & Hte & Hcap & Hroom).
  unfold DirectWrite.
  rewrite (iwrap_small (Len r + n)), (uwrap_small (Len r + n)) by lia.
  rewrite E. obind. clear E.
  pose proof (bring_head_spec re Hwfe) as Hhd.
  destruct (Hwfe) as [(Hi & _)|(k & Hk & Hlen & Ht & Hh)].
  { rewrite Hi in Hcap. unfold len in Hcap. simpl in Hcap. lia. }
  specialize (Hhd ltac:(intros Hnil; rewrite Hnil in Hlen; unfold len in Hlen;
                        simpl in Hlen; pose proof (pow2_bounds k ltac:(lia)); lia)).
  pose proof (pow2_bounds k ltac:(lia)) as Hp.
  rewrite (bring_end_spec re k), (bring_mask_spec re k) by (done || lia).
  rewrite (uwrap_small (2 ^ k - head re)), (iwrap_small (2 ^ k - head re)) by lia.
  rewrite (iwrap_small (head re)) by lia.
  set (l := if 2 ^ k - head re <? n then 2 ^ k - head re else n).
  assert (Hlr : 0 ≤ l ≤ n ∧ l ≤ 2 ^ k - head re ∧
                (l < n → l = 2 ^ k - head re) ∧ (n ≤ 2 ^ k - head re → l = n)).
  { unfold l. destruct (Z.ltb_spec (2 ^ k - head re) n); lia. }
  rewrite (iwrap_small (head re + l)), (uwrap_small l) by lia.
  unfold slice. rewrite bool_decide_true by lia. obind.
  replace (head re + l - head re) with l by lia.
  rewrite ring_add_spec by lia.
  set (h' := if decide (head re + l < 2 ^ k) then head re + l else head re + l - 2 ^ k).
  assert (Hh' : 0 ≤ h' < 2 ^ k) by (unfold h'; repeat case_decide; lia).
  assert (HLre : Len re = if decide (tail re ≤ head re) then head re - tail re
                           else head re - tail re + 2 ^ k).
  { unfold Len. rewrite (bring_mask_spec re k), ring_Len_spec by (done || lia). done. }
  eexists _, _. split; [done|]. cbn [head tail data].
  set (r2 := mkRing _ _ _).
  assert (Hlen2 : len (data r2) = 2 ^ k).
  { unfold r2, len in *. simpl. rewrite copy_length by lia. done. }
  assert (HL2 : Len r2 = Len r + l).
  { rewrite <- HLe. unfold Len at 1. rewrite (bring_mask_spec r2 k) by (done || lia).
    unfold r2. simpl. apply ring_Len_unique; [lia|lia|lia|].
    unfold h'. rewrite HLre. repeat case_decide; lia. }
  unfold wlen. cbn [snd]. rewrite Z2Nat.id by lia.
  split_and!; try lia.
  - right. exists k. rewrite Hlen2. unfold r2. simpl. lia.
  - unfold content at 1. rewrite HL2, <- HLe, <- Hce. unfold r2, content. simpl.
    rewrite copy_take by (unfold len in *; lia).
    assert (Hxl : length (take (Z.to_nat l) src) = Z.to_nat l).
    { rewrite length_take. unfold len in *. lia. }
    rewrite Hhd.
    replace (Z.to_nat (Len re + l))
      with (Z.to_nat (Len re) + length (take (Z.to_nat l) src))%nat by lia.
    apply circ_write; rewrite <- ?Hhd; unfold len in *; lia.
  - intros Hlt. unfold r2, h'. simpl. repeat case_decide; lia.
  - change (2 * Len r + n + 1 ≤ len (data r2)). rewrite Hlen2, <- Hlen. lia.
Qed.

Lemma bring_Write_spec r b :
  wf r → 2 * (Len r + len b) + 1 ≤ 2 ^ 62 →
  ∃ r', Write r b = Ok (len b, None, r') ∧ wf r' ∧
        content r' = content r ++ b ∧ Len r' = Len r + len b.
Proof.
  intros Hwf Hneed. pose proof (bring_Len_range r Hwf) as Hl.
  assert (Hb0 : 0 ≤ len b) by (unfold len; lia).
  destruct (bring_DirectWrite_spec r (len b) b Hwf Hb0 ltac:(lia) ltac:(lia))
    as (w1 & r1 & E1 & Hwf2 & Hc2 & Hw1 & HL2 & Hshort & Hcap2 & _).
  unfold Write. rewrite E1. obind. clear E1.
  cbv zeta in Hwf2, Hc2, HL2, Hshort, Hcap2. set (r2 := mkRing _ _ _) in *.
  case_bool_decide as Hne.
  - assert (Hlt : wlen w1 < len b) by lia.
    set (rem := len b - wlen w1).
    set (src := drop (snd w1) b).
    assert (Hsrc : len src = rem).
    { unfold src, rem, len, wlen in *. rewrite length_drop. lia. }
    destruct (bring_DirectWrite_spec r2 rem src Hwf2 ltac:(lia) ltac:(lia) ltac:(lia))
      as (w2 & r3 & E2 & Hwf4 & Hc4 & Hw2 & HL4 & _ & _ & Hfull).
    rewrite (iwrap_small rem) by (unfold rem; lia).
    rewrite E2. obind. clear E2.
    unfold slice. rewrite bool_decide_true by lia. obind.
    assert (Hview : view b (Z.to_nat (wlen w1), Z.to_nat (len b - wlen w1)) = src).
    { unfold view, src, wlen. simpl. rewrite Nat2Z.id. apply take_ge.
      rewrite length_drop. unfold len, wlen in *. lia. }
    rewrite Hview. cbv zeta in Hwf4, Hc4, HL4.
    set (r4 := mkRing (head r3) _ _) in *.
    specialize (Hfull ltac:(rewrite (Hshort Hlt); lia)).
    exists r4. split_and!; try done.
    + rewrite Hc4, Hc2, <- app_assoc. f_equal.
      replace (snd w2) with (length src) by (unfold len, wlen in *; lia).
      rewrite firstn_all. apply take_drop.
    + rewrite HL4, HL2, Hfull. unfold rem. lia.
  - assert (Heq : wlen w1 = len b) by lia.
    exists r2. split_and!; try done.
    + rewrite Hc2. f_equal. apply take_ge. unfold len, wlen in *. lia.
    + rewrite HL2, Heq. done.
Qed.

Lemma bring_DirectRead_spec r m :
  wf r → 0 ≤ m ≤ 2 ^ 62 →
  ∃ w r1, DirectRead r m = Ok (w, r1) ∧ wf r1 ∧ data r1 = data r ∧
          content r = view (data r) w ++ content r1 ∧
          wlen w = Z.min m (Z.min (Len r) (len (data r) - tail r)) ∧
          length (view (data r) w) = snd w ∧
          Len r1 = Len r - wlen w ∧
          (wlen w < Z.min m (Len r) → tail r1 = 0).
Proof.
  intros Hwf Hm. pose proof (bring_Len_range r Hwf) as Hl.
  pose proof (bring_len_bound r Hwf) as Hb.
  unfold DirectRead. rewrite !Z.gtb_ltb.
  assert (Hroom : iwrap (uwrap (end_ r - tail r)) = len (data r) - tail r
                  ∧ 0 ≤ len (data r) - tail r).
  { destruct Hwf as [(Hi & Ht & _)|(k & Hk & Hlen & Ht & _)].
    - rewrite Ht. unfold end_. rewrite Hi. done.
    - rewrite (bring_end_spec r k), Hlen by (done || lia).
      pose proof (pow2_bounds k ltac:(lia)).
      rewrite uwrap_small, iwrap_small by lia. lia. }
  destruct Hroom as [-> Hroom].
  set (c1 := if Len r <? m then Len r else m).
  set (c := if len (data r) - tail r <? c1 then len (data r) - tail r else c1).
  assert (Hc : c = Z.min m (Z.min (Len r) (len (data r) - tail r))).
  { unfold c, c1. destruct (Z.ltb_spec (Len r) m);
      destruct (Z.ltb_spec (len (data r) - tail r) (Len r));
      destruct (Z.ltb_spec (len (data r) - tail r) m); lia. }
  clearbody c. clear c1. subst c.
  set (c := Z.min m (Z.min (Len r) (len (data r) - tail r))).
  assert (Htl : len (data r) = 0 ∨ 0 ≤ tail r < len (data r)).
  { destruct Hwf as [(Hi & _)|(k & Hk & Hlen & Ht & _)]; [rewrite Hi; left; done|lia]. }
  destruct (Z.leb_spec c 0) as [Hc0|Hc0].
  - exists (0%nat, 0%nat), r. unfold view, wlen. simpl. unfold c in *.
    split_and!; try done; lia.
  - destruct (Hwf) as [(Hi & _)|(k & Hk & Hlen & Ht & Hh)].
    { exfalso. pose proof (bring_Len_empty r Hi Hwf). unfold c in *. lia. }
    pose proof (pow2_bounds k ltac:(lia)) as Hp.
    assert (Hcr : 0 < c ≤ m ∧ c ≤ Len r ∧ c ≤ 2 ^ k - tail r ∧
                  (c < Z.min m (Len r) → c = 2 ^ k - tail r)) by (unfold c in *; lia).
    clearbody c.
    rewrite (uwrap_small c) by lia.
    rewrite (bring_mask_spec r k), ring_add_spec by (done || lia).
    rewrite (uwrap_small (tail r + c)) by lia.
    unfold slice. rewrite bool_decide_true by lia. obind.
    replace (tail r + c - tail r) with c by lia.
    set (t' := if decide (tail r + c < 2 ^ k) then tail r + c else tail r + c - 2 ^ k).
    assert (Ht' : 0 ≤ t' < 2 ^ k) by (unfold t'; repeat case_decide; lia).
    assert (HLr : Len r = if decide (tail r ≤ head r) then head r - tail r
                          else head r - tail r + 2 ^ k).
    { unfold Len. rewrite (bring_mask_spec r k), ring_Len_spec by (done || lia). done. }
    eexists _, _. split; [done|].
    set (r1 := mkRing _ _ _).
    assert (HL1 : Len r1 = Len r - c).
    { unfold Len at 1. rewrite (bring_mask_spec r1 k) by (done || lia).
      unfold r1. simpl. rewrite ring_Len_spec by lia. rewrite HLr. unfold t'.
      repeat case_decide; lia. }
    unfold wlen. cbn [snd]. rewrite Z2Nat.id by lia.
    split_and!; try done.
    + right. exists k. unfold r1. simpl. split_and!; try done; lia.
    + unfold content. rewrite HL1. unfold r1. simpl.
      replace (Z.to_nat (Len r - c)) with (Z.to_nat (Len r) - Z.to_nat c)%nat by lia.
      replace (Z.to_nat t')
        with (wrap_at (length (data r)) (Z.to_nat (tail r) + Z.to_nat c)).
      * apply circ_read; unfold len in *; lia.
      * unfold t', wrap_at, len in *. repeat case_decide; lia.
    + unfold view. simpl. rewrite length_take, length_drop. unfold len in *. lia.
    + intros Hlt. unfold r1, t'. simpl. repeat case_decide; lia.
Qed.

Lemma bring_Read_spec r b :
  wf r → len b ≤ 2 ^ 62 →
  ∃ r', Read r b
        = Ok (Z.min (len b) (Len r),
              (if decide (Len r = 0) then Some EOF else None),
              take (Z.to_nat (Z.min (len b) (Len r))) (content r)
              ++ drop (Z.to_nat (Z.min (len b) (Len r))) b,
              r') ∧
        wf r' ∧ content r' = drop (Z.to_nat (Z.min (len b) (Len r))) (content r) ∧
        Len r' = Len r - Z.min (len b) (Len r).
Proof.
  intros Hwf Hb. pose proof (bring_Len_range r Hwf) as Hl.
  pose proof (bring_len_bound r Hwf) as Hbd.
  assert (Hb0 : 0 ≤ len b) by (unfold len; lia).
  destruct (bring_DirectRead_spec r (len b) Hwf ltac:(lia))
    as (w1 & r1 & E1 & Hwf1 & Hd1 & Hc1 & Hw1 & Hv1 & HL1 & Ht1).
  pose proof (bring_Len_range r1 Hwf1) as Hl1.
  assert (Hw1p : 0 ≤ wlen w1) by (unfold wlen; lia).
  assert (Hrem : 0 ≤ len b - wlen w1 ≤ 2 ^ 62) by lia.
  destruct (bring_DirectRead_spec r1 (len b - wlen w1) Hwf1 Hrem)
    as (w2 & r2 & E2 & Hwf2 & Hd2 & Hc2 & Hw2 & Hv2 & HL2 & _).
  pose proof (bring_Len_range r2 Hwf2) as Hl2.
  assert (Hw2p : 0 ≤ wlen w2) by (unfold wlen; lia).
  unfold Read. rewrite E1. obind. rewrite iwrap_small by lia. rewrite E2. obind.
  rewrite Hd2, Hd1 in *.
  set (v1 := view (data r) w1) in *. set (v2 := view (data r) w2) in *.
  assert (Hb1 : copy b (0%nat, length b) v1 = v1 ++ drop (snd w1) b).
  { unfold copy. simpl. rewrite Hv1, Nat.min_r by (unfold len, wlen in *; lia).
    rewrite firstn_all2 by lia. done. }
  rewrite Hb1. unfold slice.
  rewrite bool_decide_true
    by (unfold len, wlen in *; rewrite length_app, length_drop; lia).
  obind.
  assert (Htot : wlen w1 + wlen w2 = Z.min (len b) (Len r)).
  { destruct (decide (wlen w1 < Z.min (len b) (Len r))) as [Hlt|Hge].
    - rewrite (Ht1 Hlt) in Hw2. lia.
    - lia. }
  rewrite (iwrap_small (wlen w1 + wlen w2)) by lia. rewrite Htot.
  assert (Hb2 : copy (v1 ++ drop (snd w1) b)
                  (Z.to_nat (wlen w1), Z.to_nat (len b - wlen w1)) v2
                = take (Z.to_nat (Z.min (len b) (Len r))) (content r)
                  ++ drop (Z.to_nat (Z.min (len b) (Len r))) b).
  { assert (Ha1 : Z.to_nat (wlen w1) = snd w1) by (unfold wlen; lia).
    assert (Ha2 : Z.to_nat (len b - wlen w1) = (length b - snd w1)%nat)
      by (unfold wlen, len; lia).
    assert (Hn : Z.to_nat (Z.min (len b) (Len r)) = (snd w1 + snd w2)%nat)
      by (unfold wlen in *; lia).
    unfold copy. cbn [fst snd]. rewrite Ha1, Ha2, Hn, Hv2.
    rewrite (Nat.min_r _ (snd w2)) by (unfold wlen, len in *; lia).
    rewrite (take_app_length' v1) by done.
    rewrite (take_ge v2) by lia.
    rewrite (drop_app_add' v1) by done. rewrite drop_drop.
    assert (Hcont : content r = (v1 ++ v2) ++ content r2)
      by (rewrite Hc1, Hc2, app_assoc; done).
    rewrite Hcont.
    rewrite (take_app_length' (v1 ++ v2)) by (rewrite length_app; lia).
    rewrite <- app_assoc. done. }
  rewrite Hb2.
  assert (Hcr : content r2 = drop (Z.to_nat (Z.min (len b) (Len r))) (content r)).
  { rewrite Hc1, Hc2, app_assoc.
    replace (Z.to_nat (Z.min (len b) (Len r))) with (length (v1 ++ v2))
      by (rewrite length_app; unfold wlen in *; lia).
    rewrite drop_app_length. done. }
  exists r2. split_and!; try done; [|lia].
  destruct (Z.eqb_spec (Z.min (len b) (Len r)) 0) as [Hz|Hz];
    destruct (Z.eqb_spec (Len r2) 0) as [Hz2|Hz2]; simpl;
    case_decide; try done; lia.
Qed.

End ByteRingFacts.

(** ** Further lemmas on the four rings *)

Module ByteRingMore.
Import ByteRing ByteRingFacts.
Implicit Types (r : Ring) (b : list byte).

Lemma slice_ok {A} (buf : list A) lo hi :
  0 ≤ lo → lo ≤ hi → hi ≤ len buf → slice buf lo hi = Ok (Z.to_nat lo, Z.to_nat (hi - lo)).
Proof. intros. unfold slice. rewrite bool_decide_true by lia. done. Qed.

Lemma bring_Len_cases r k :
  0 ≤ k ≤ 62 → len (data r) = 2 ^ k → 0 ≤ tail r < 2 ^ k → 0 ≤ head r < 2 ^ k →
  Len r = if decide (tail r ≤ head r) then head r - tail r else head r - tail r + 2 ^ k.
Proof.
  intros Hk Hlen Ht Hh. unfold Len.
  rewrite (bring_mask_spec r k), ring_Len_spec by (done || lia). done.
Qed.

Lemma bring_ringContent_spec r : wf r → ringContent r = Ok (content r).
Proof.
  intros Hwf. pose proof (bring_Len_range r Hwf) as Hl.
  unfold ringContent. destruct (Z.ltb_spec (Len r) 0) as [|_]; [lia|].
  destruct (Hwf) as [(Hi & Ht & Hh)|(k & Hk & Hlen & Ht & Hh)].
  - rewrite (bring_Len_empty r) by done. unfold content.
    rewrite (bring_Len_empty r) by done. unfold end_. rewrite Hi, Ht, Hh. done.
  - pose proof (pow2_bounds k ltac:(lia)) as Hp.
    pose proof (bring_Len_cases r k Hk Hlen Ht Hh) as HL.
    rewrite (bring_end_spec r k) by done.
    destruct (Z.geb_spec (head r) (tail r)) as [Hge|Hlt].
    + rewrite decide_True in HL by lia.
      rewrite (uwrap_small (head r - tail r)), (uwrap_small (tail r + _)) by lia.
      rewrite (slice_ok (data r) (tail r)) by lia. obind.
      destruct (Z.ltb_spec (head r) (tail r)); [lia|].
      rewrite iwrap_small by lia. rewrite bool_decide_false by lia.
      f_equal. unfold copy, view, content, circ. cbn [fst snd].
      rewrite length_replicate, take_0. simpl.
      replace (tail r + (head r - tail r) - tail r) with (Len r) by lia.
      assert (Hv : length (take (Z.to_nat (Len r)) (drop (Z.to_nat (tail r)) (data r)))
                   = Z.to_nat (Len r)).
      { rewrite length_take, length_drop. unfold len in *. lia. }
      rewrite Hv, Nat.min_id, drop_replicate, Nat.sub_diag, app_nil_r.
      rewrite take_take, Nat.min_id.
      rewrite drop_app_le by (unfold len in *; lia).
      rewrite take_app_le by (rewrite length_drop; unfold len in *; lia). done.
    + rewrite decide_False in HL by lia.
      rewrite (uwrap_small (2 ^ k - tail r)), (uwrap_small (tail r + _)),
        (uwrap_small (head r + _)) by lia.
      rewrite (slice_ok (data r) (tail r)) by lia. obind.
      destruct (Z.ltb_spec (head r) (tail r)); [|lia].
      rewrite iwrap_small by lia. rewrite bool_decide_false by lia.
      replace (tail r + (2 ^ k - tail r) - tail r) with (2 ^ k - tail r) by lia.
      set (v1 := view (data r) _).
      assert (Hv1 : v1 = drop (Z.to_nat (tail r)) (data r)).
      { unfold v1, view. cbn [fst snd]. apply take_ge. rewrite length_drop.
        unfold len in *. lia. }
      assert (Hv1l : length v1 = Z.to_nat (2 ^ k - tail r)).
      { rewrite Hv1, length_drop. unfold len in *. lia. }
      set (buf1 := copy _ _ v1).
      assert (Hb1 : buf1 = v1 ++ replicate (Z.to_nat (head r)) x00).
      { unfold buf1, copy. cbn [fst snd]. rewrite length_replicate, take_0.
        rewrite Nat.min_r by lia. rewrite firstn_all. simpl.
        rewrite drop_replicate. do 2 f_equal. lia. }
      assert (Hb1l : len buf1 = Len r).
      { unfold len. rewrite Hb1, length_app, length_replicate. lia. }
      rewrite !slice_ok by lia. obind.
      f_equal. unfold copy, view. cbn [fst snd].
      rewrite drop_0, Z.sub_0_r.
      replace (Z.to_nat (len buf1 - (2 ^ k - tail r))) with (Z.to_nat (head r)) by lia.
      rewrite length_take.
      rewrite (Nat.min_l _ (length (data r))) by (unfold len in *; lia).
      rewrite Nat.min_id, take_take, Nat.min_id.
      rewrite Hb1, <- Hv1l, take_app_length.
      rewrite drop_ge by (rewrite length_app, length_replicate; lia).
      rewrite app_nil_r, Hv1. unfold content, circ.
      rewrite drop_app_le by (unfold len in *; lia).
      rewrite take_app_ge by (rewrite length_drop; unfold len in *; lia).
      do 2 f_equal. rewrite length_drop. unfold len in *. lia.
Qed.

(** The doubling loop stops at the first power of two that suffices. *)
Lemma bring_double_until_least need fuel : ∀ j,
  0 ≤ j ≤ 62 → need ≤ 2 ^ 62 → (Z.to_nat (62 - j) ≤ fuel)%nat →
  ∃ j', j ≤ j' ≤ 62 ∧ double_until fuel (2 ^ j) need = Ok (2 ^ j') ∧
        need ≤ 2 ^ j' ∧ (j < j' → 2 ^ j' < 2 * need).
Proof.
  induction fuel as [|fuel IH]; intros j Hj Hneed Hfuel.
  - assert (j = 62) as -> by lia. exists 62. simpl.
    destruct (Z.ltb_spec (2 ^ 62) need); [lia|]. split_and!; try done; lia.
  - simpl. destruct (Z.ltb_spec (2 ^ j) need) as [Hlt|Hge].
    + assert (j < 62).
      { destruct (decide (j < 62)); [done|]. assert (j = 62) as -> by lia. lia. }
      pose proof (pow2_bounds (j + 1) ltac:(lia)) as Hp.
      rewrite Z.pow_add_r in Hp by lia. change (2 ^ 1) with 2 in Hp.
      rewrite uwrap_small by lia.
      destruct (IH (j + 1) ltac:(lia) Hneed ltac:(lia)) as (j' & Hj' & E & Hn & Hleast).
      rewrite Z.pow_add_r in E by lia. change (2 ^ 1) with 2 in E.
      exists j'. split_and!; try done; try lia.
      intros _. destruct (decide (j' = j + 1)) as [->|Hne]; [|apply Hleast; lia].
      rewrite Z.pow_add_r by lia. change (2 ^ 1) with 2. lia.
    + exists j. split_and!; try done; lia.
Qed.

(** The size that [ensureCapacity] settles on. *)
Lemma bring_ensureCapacity_size r f r' :
  wf r → 0 ≤ f → len (data r) < f + Len r + 1 ≤ 2 ^ 62 →
  ensureCapacity r f = Ok r' →
  ∃ j, 6 ≤ j ≤ 62 ∧ len (data r') = 2 ^ j ∧ f + Len r + 1 ≤ 2 ^ j ∧
       (j = 6 ∨ 2 ^ j < 2 * (f + Len r + 1)).
Proof.
  intros Hwf Hf Hneed. pose proof (bring_Len_range r Hwf) as Hl.
  pose proof (bring_len_bound r Hwf) as Hb.
  unfold ensureCapacity.
  rewrite (uwrap_small (Len r)), (uwrap_small (f + _)), (uwrap_small (_ + 1)),
    (uwrap_small (len _)) by lia.
  destruct (Z.leb_spec (f + Len r + 1) (len (data r))); [lia|].
  assert (Hcap : ∃ j0, 6 ≤ j0 ≤ 62 ∧
            (if len (data r) <? DefaultSize then DefaultSize else len (data r)) = 2 ^ j0 ∧
            (len (data r) < 2 ^ j0 → 2 * len (data r) ≤ 2 ^ j0 ∧ j0 = 6) ∧
            (64 ≤ len (data r) → len (data r) = 2 ^ j0)).
  { unfold DefaultSize. destruct (Z.ltb_spec (len (data r)) 64) as [Hlt|Hge].
    - exists 6. split_and!; try done; [|lia].
      destruct Hwf as [(Hi & _)|(k & Hk & Hlen & _)]; [rewrite Hi; done|].
      rewrite Hlen in *. intros _.
      assert (k ≤ 5).
      { destruct (decide (k ≤ 5)); [done|].
        assert (2 ^ 6 ≤ 2 ^ k) by (apply Z.pow_le_mono_r; lia). lia. }
      assert (2 ^ k ≤ 2 ^ 5) by (apply Z.pow_le_mono_r; lia). lia.
    - destruct Hwf as [(Hi & _)|(k & Hk & Hlen & _)];
        [rewrite Hi in Hge; unfold len in Hge; simpl in Hge; lia|].
      exists k. rewrite Hlen in *. split_and!; try done; try lia.
      apply (pow2_le_inv 6 k); lia. }
  destruct Hcap as (j0 & Hj0 & -> & Hdbl & Hsame).
  destruct (bring_double_until_least (f + Len r + 1) 64 j0 ltac:(lia) ltac:(lia) ltac:(lia))
    as (j & Hj & -> & Hnj & Hleast).
  obind. pose proof (pow2_bounds j ltac:(lia)) as Hp.
  assert (2 ^ j0 ≤ 2 ^ j) by (apply Z.pow_le_mono_r; lia).
  assert (2 ^ 6 ≤ 2 ^ j0) by (apply Z.pow_le_mono_r; lia).
  assert (H2 : 2 * len (data r) ≤ 2 ^ j ∧ (j = 6 ∨ 2 ^ j < 2 * (f + Len r + 1))).
  { destruct (decide (len (data r) < 2 ^ j0)) as [Hc|Hc].
    - destruct (Hdbl Hc) as [? ->]. split; [lia|].
      destruct (decide (6 < j)); [right; apply Hleast; lia|left; lia].
    - assert (j0 < j).
      { destruct (decide (j0 < j)); [done|]. assert (j = j0) as -> by lia.
        rewrite Hsame in Hneed by lia. lia. }
      assert (2 ^ (j0 + 1) ≤ 2 ^ j) by (apply Z.pow_le_mono_r; lia).
      rewrite Z.pow_add_r in * by lia. change (2 ^ 1) with 2 in *.
      rewrite Hsame by lia. split; [lia|]. right. by apply Hleast. }
  rewrite (uwrap_small (2 ^ j - _)), iwrap_small by lia.
  intros E. exists j.
  assert (Hsz : len (data r') = 2 ^ j).
  { destruct (Z.ltb_spec (head r) (tail r)) as [Hht|Hht].
    - destruct Hwf as [(Hi & Ht & Hh)|(k & Hk & Hlen & Ht & Hh)]; [lia|].
      rewrite (uwrap_small (len _ + _)), (uwrap_small (head r + _)) in E by lia.
      rewrite !slice_ok in E
        by (unfold len in *; rewrite ?length_app, ?length_replicate; lia).
      cbn [mbind outcome_bind] in E. injection E as <-. cbn [data].
      unfold len in *. rewrite copy_length; rewrite length_app, length_replicate; lia.
    - injection E as <-. cbn [data]. unfold len in *.
      rewrite length_app, length_replicate. lia. }
  split_and!; try done; try lia.
Qed.

Lemma copy_view_id {A} (buf : list A) (s c : nat) :
  (s + c ≤ length buf)%nat → copy buf (s, c) (view buf (s, c)) = buf.
Proof.
  intros Hsc. unfold copy, view. cbn [fst snd].
  rewrite length_take, length_drop.
  replace (c `min` (c `min` (length buf - s)))%nat with c by lia.
  rewrite take_take, Nat.min_id.
  rewrite <- (drop_drop buf c s), take_drop. apply take_drop.
Qed.

(** The index arithmetic of the ring does not look at the bytes. *)
Lemma bring_wf_data r d :
  wf r → length d = length (data r) → wf (mkRing (head r) (tail r) d).
Proof.
  intros [(Hi & Ht & Hh)|(k & Hk & Hlen & Ht & Hh)] Hd.
  - left. cbn. rewrite Hi in Hd. destruct d; done.
  - right. exists k. cbn. unfold len in *. rewrite Hd. done.
Qed.

Lemma bring_Len_data r d :
  length d = length (data r) → Len (mkRing (head r) (tail r) d) = Len r.
Proof. intros Hd. unfold Len, mask, len. cbn. rewrite Hd. done. Qed.

Lemma bring_eta r : mkRing (head r) (tail r) (data r) = r.
Proof. by destruct r. Qed.

(** What [DirectWrite] hands out and where it leaves the ring. *)
Lemma bring_DirectWrite_exact r n :
  wf r → 0 ≤ n → 2 * Len r + n + 1 ≤ 2 ^ 62 →
  ∃ re w r1,
    ensureCapacity r (Len r + n) = Ok re ∧ DirectWrite r n = Ok (w, r1) ∧
    wf r1 ∧ data r1 = data re ∧ tail r1 = tail r ∧
    fst w = Z.to_nat (head re) ∧
    wlen w = Z.min n (len (data re) - head re) ∧
    head r1 = (head re + wlen w) mod len (data re) ∧
    Len r1 = Len r + wlen w ∧
    content r1 = content r ++ view (data r1) w.
Proof.
  intros Hwf Hn Hneed. pose proof (bring_Len_range r Hwf) as Hl.
  destruct (bring_DirectWrite_spec r n (replicate (Z.to_nat n) x00) Hwf Hn Hneed
              ltac:(unfold len; rewrite length_replicate; lia))
    as (w & r1 & E & Hwf2 & _ & Hw & HL2 & _ & Hcap2 & _).
  cbv zeta in Hwf2, HL2, Hcap2.
  destruct (bring_ensureCapacity_spec r (Len r + n) Hwf ltac:(lia) ltac:(lia))
    as (re & Ee & Hwfe & Hce & HLe & Hte & Hcap & Hroom).
  exists re, w, r1. split; [done|]. split; [done|].
  revert E. unfold DirectWrite.
  rewrite (iwrap_small (Len r + n)), (uwrap_small (Len r + n)) by lia.
  rewrite Ee. obind.
  destruct (Hwfe) as [(Hi & _)|(k & Hk & Hlen & Ht & Hh)].
  { rewrite Hi in Hcap. unfold len in Hcap. simpl in Hcap. lia. }
  pose proof (pow2_bounds k ltac:(lia)) as Hp.
  rewrite (bring_end_spec re k), (bring_mask_spec re k) by (done || lia).
  rewrite (uwrap_small (2 ^ k - head re)), (iwrap_small (2 ^ k - head re)) by lia.
  rewrite (iwrap_small (head re)) by lia.
  set (l := if 2 ^ k - head re <? n then 2 ^ k - head re else n).
  assert (Hlr : l = Z.min n (2 ^ k - head re)).
  { unfold l. destruct (Z.ltb_spec (2 ^ k - head re) n); lia. }
  clearbody l.
  rewrite (iwrap_small (head re + l)), (uwrap_small l) by lia.
  rewrite slice_ok by lia. obind.
  replace (head re + l - head re) with l by lia.
  rewrite land_mask by lia.
  intros E. injection E as <- <-. cbn [head tail data fst snd] in *.
  unfold wlen in *. cbn [fst snd] in *. rewrite Z2Nat.id in * by lia.
  assert (Hcopy : length (copy (data re) (Z.to_nat (head re), Z.to_nat l)
                            (replicate (Z.to_nat n) x00)) = length (data re)).
  { apply copy_length. unfold len in *. lia. }
  set (r1 := mkRing _ (tail re) (data re)).
  assert (Hwf1 : wf r1).
  { apply (bring_wf_data _ (data re)) in Hwf2; [exact Hwf2|].
    cbn [data]. by rewrite Hcopy. }
  assert (HL1 : Len r1 = Len r + l).
  { rewrite <- HL2. symmetry. apply (bring_Len_data r1). cbn [data r1].
    apply copy_length. unfold len in *. lia. }
  split_and!; try done; try lia; [by rewrite Hlen|].
  unfold content at 1. rewrite HL1, <- HLe, <- Hce. unfold r1, content, view.
  cbn [head tail data fst snd].
  pose proof (bring_head_spec re Hwfe) as Hhd.
  specialize (Hhd ltac:(intros Hnil; rewrite Hnil in Hlen; unfold len in Hlen;
                        simpl in Hlen; lia)).
  set (x := take (Z.to_nat l) (drop (Z.to_nat (head re)) (data re))).
  assert (Hxl : length x = Z.to_nat l).
  { unfold x. rewrite length_take, length_drop. unfold len in *. lia. }
  rewrite <- (copy_view_id (data re) (Z.to_nat (head re)) (Z.to_nat l)) at 1
    by (unfold len in *; lia).
  unfold view. cbn [fst snd]. fold x.
  replace (Z.to_nat (Len re + l)) with (Z.to_nat (Len re) + length x)%nat by lia.
  rewrite Hhd, <- Hxl. apply circ_write; rewrite <- ?Hhd; unfold len in *; lia.
Qed.

(** [ensureCapacity] keeps the old bytes in place, in front of what it adds. *)
Lemma bring_ensureCapacity_prefix r f r' :
  wf r → 0 ≤ f → f + Len r + 1 ≤ 2 ^ 62 → ensureCapacity r f = Ok r' →
  data r `prefix_of` data r' ∧ (tail r ≤ head r → head r' = head r) ∧
  (sized r → sized r').
Proof.
  intros Hwf Hf Hneed E.
  destruct (decide (f + Len r + 1 ≤ len (data r))) as [Hk|Hg].
  { rewrite bring_ensureCapacity_keep in E by done. injection E as <-. done. }
  destruct (bring_ensureCapacity_size r f r' Hwf Hf ltac:(lia) E) as (j & Hj & Hlen & _).
  destruct (bring_ensureCapacity_grow r f Hwf Hf ltac:(lia)) as (j1 & _ & _ & _ & E1).
  rewrite E1 in E. injection E as <-.
  split_and!.
  - case_decide; cbn [data]; eexists; done.
  - intros Hle. rewrite decide_False by lia. done.
  - intros _. right. exists j. done.
Qed.

(** The storage around a [DirectWrite]. *)
Lemma bring_DirectWrite_storage r n w r1 :
  wf r → 0 ≤ n → 2 * Len r + n + 1 ≤ 2 ^ 62 → DirectWrite r n = Ok (w, r1) →
  wf r1 ∧ (fst w + snd w ≤ length (data r1))%nat ∧ 0 ≤ wlen w ≤ n ∧
  Len r1 = Len r + wlen w ∧ data r `prefix_of` data r1 ∧ (sized r → sized r1) ∧
  2 * Len r + n + 1 ≤ len (data r1) ∧ (wlen w < n → head r1 = 0).
Proof.
  intros Hwf Hn Hneed E. pose proof (bring_Len_range r Hwf) as Hl.
  destruct (bring_DirectWrite_exact r n Hwf Hn Hneed)
    as (re & w' & r1' & Ee & E' & Hwf1 & Hd & Ht & Hfst & Hw & Hh & HL & Hc).
  rewrite E' in E. injection E as -> ->.
  destruct (bring_ensureCapacity_spec r (Len r + n) Hwf ltac:(lia) ltac:(lia))
    as (re' & Ee' & Hwfe & _ & _ & _ & Hcap & _).
  rewrite Ee in Ee'. injection Ee' as <-.
  destruct (bring_ensureCapacity_prefix r (Len r + n) re Hwf ltac:(lia) ltac:(lia) Ee)
    as (Hpre & _ & Hsz).
  pose proof (bring_len_bound re Hwfe) as Hb.
  assert (0 ≤ head re < len (data re)).
  { destruct Hwfe as [(Hi & _)|(k & Hk & Hlen & _ & Hh')];
      [rewrite Hi in Hcap; unfold len in Hcap; simpl in Hcap; lia|lia]. }
  rewrite Hd. unfold wlen in *. split_and!; try done; try lia.
  - unfold len in *. lia.
  - intros Hs. destruct (Hsz Hs) as [Hnil|(k & Hk & Hlen)].
    + left. congruence.
    + right. exists k. rewrite Hd. done.
  - intros Hlt. rewrite Hh.
    replace (head re + Z.of_nat (snd w)) with (len (data re)) by lia.
    apply Z_mod_same_full.
Qed.

(** [Write] never shrinks the storage and never moves the bytes it holds
    out of their places. *)
Lemma bring_Write_storage r b n e r' :
  wf r → 2 * (Len r + len b) + 1 ≤ 2 ^ 62 → Write r b = Ok (n, e, r') →
  len (data r) ≤ len (data r') ∧ (sized r → sized r').
Proof.
  intros Hwf Hneed. pose proof (bring_Len_range r Hwf) as Hl.
  assert (Hb0 : 0 ≤ len b) by (unfold len; lia).
  unfold Write.
  destruct (DirectWrite r (len b)) as [[w1 r1]| |] eqn:E1; [|done..]. obind.
  destruct (bring_DirectWrite_storage r (len b) w1 r1 Hwf Hb0 ltac:(lia) E1)
    as (Hwf1 & Hin1 & Hw1 & HL1 & Hpre1 & Hsz1 & _).
  set (r2 := mkRing (head r1) (tail r1) (copy (data r1) w1 b)).
  assert (Hlen2 : length (data r2) = length (data r1)).
  { unfold r2. cbn [data]. destruct w1 as [s c]. by apply copy_length. }
  assert (Hwf2 : wf r2) by (by apply bring_wf_data).
  assert (HL2 : Len r2 = Len r1) by (by apply bring_Len_data).
  assert (Hmono1 : len (data r) ≤ len (data r2)).
  { unfold len. rewrite Hlen2. apply prefix_length in Hpre1. lia. }
  assert (Hsz2 : sized r → sized r2).
  { intros Hs. destruct (Hsz1 Hs) as [Hnil|(k & Hk & Hlen)].
    - left. apply nil_length_inv. rewrite Hlen2, Hnil. done.
    - right. exists k. unfold len in *. rewrite Hlen2. done. }
  case_bool_decide as Hne; [|intros [= _ _ <-]; done].
  rewrite (iwrap_small (len b - wlen w1)) by lia.
  destruct (DirectWrite r2 (len b - wlen w1)) as [[w2 r3]| |] eqn:E2; [|done..]. obind.
  destruct (bring_DirectWrite_storage r2 (len b - wlen w1) w2 r3 Hwf2
              ltac:(lia) ltac:(lia) E2)
    as (Hwf3 & Hin3 & Hw3 & HL3 & Hpre3 & Hsz3 & _).
  destruct (slice b (wlen w1) (len b)) as [rest| |]; [|done..]. obind.
  intros [= _ _ <-]. cbn [data].
  assert (Hlen4 : length (copy (data r3) w2 (view b rest)) = length (data r3)).
  { destruct w2 as [s c]. by apply copy_length. }
  split.
  - unfold len in *. rewrite Hlen4. apply prefix_length in Hpre3. lia.
  - intros Hs. destruct (Hsz3 (Hsz2 Hs)) as [Hnil|(k & Hk & Hlen)].
    + left. cbn [data]. apply nil_length_inv. rewrite Hlen4, Hnil. done.
    + right. exists k. unfold len in *. cbn [data]. rewrite Hlen4. done.
Qed.

(** [DirectRead] looks at its argument only up to the number of unread bytes. *)
Lemma bring_DirectRead_clip r m :
  wf r → DirectRead r m = DirectRead r (Z.max 0 (Z.min m (Len r))).
Proof.
  intros Hwf. pose proof (bring_Len_range r Hwf) as Hl.
  pose proof (bring_len_bound r Hwf) as Hb.
  assert (Hroom : 0 ≤ iwrap (uwrap (end_ r - tail r))).
  { destruct Hwf as [(Hi & Ht & _)|(k & Hk & Hlen & Ht & _)].
    - unfold end_. rewrite Hi, Ht. done.
    - rewrite (bring_end_spec r k) by done.
      rewrite uwrap_small, iwrap_small by lia. lia. }
  unfold DirectRead. set (room := iwrap _) in *. clearbody room.
  rewrite !Z.gtb_ltb.
  destruct (Z.ltb_spec (Len r) m); destruct (Z.ltb_spec (Len r) (Z.max 0 (Z.min m (Len r))));
    try lia.
  - replace (Z.max 0 (Z.min m (Len r))) with (Len r) by lia. done.
  - destruct (decide (0 ≤ m)).
    + replace (Z.max 0 (Z.min m (Len r))) with m by lia. done.
    + replace (Z.max 0 (Z.min m (Len r))) with 0 by lia.
      destruct (Z.ltb_spec room m); destruct (Z.ltb_spec room 0); try lia.
      destruct (Z.leb_spec m 0); [done|lia].
Qed.

Lemma bring_DirectRead_nil r m :
  wf r → Z.min m (Z.min (Len r) (len (data r) - tail r)) ≤ 0 →
  DirectRead r m = Ok ((0%nat, 0%nat), r).
Proof.
  intros Hwf Hm. pose proof (bring_Len_range r Hwf) as Hl.
  pose proof (bring_len_bound r Hwf) as Hb.
  assert (Hroom : iwrap (uwrap (end_ r - tail r)) = len (data r) - tail r).
  { destruct Hwf as [(Hi & Ht & _)|(k & Hk & Hlen & Ht & _)].
    - unfold end_. rewrite Hi, Ht. done.
    - rewrite (bring_end_spec r k) by done.
      rewrite uwrap_small, iwrap_small by lia. lia. }
  unfold DirectRead. rewrite Hroom, !Z.gtb_ltb.
  destruct (Z.ltb_spec (Len r) m).
  - destruct (Z.ltb_spec (len (data r) - tail r) (Len r));
      (destruct (_ <=? 0) eqn:Hle; [done|apply Z.leb_gt in Hle; lia]).
  - destruct (Z.ltb_spec (len (data r) - tail r) m);
      (destruct (_ <=? 0) eqn:Hle; [done|apply Z.leb_gt in Hle; lia]).
Qed.

(** [DirectRead] and [Read] touch neither the storage nor [head]. *)
Lemma bring_DirectRead_storage r m w r1 :
  DirectRead r m = Ok (w, r1) → data r1 = data r ∧ head r1 = head r.
Proof.
  unfold DirectRead.
  destruct (_ <=? 0); [intros [= _ <-]; done|].
  destruct (slice _ _ _); [|done..]. obind. intros [= _ <-]. done.
Qed.

Lemma bring_Read_storage r b n e b' r' :
  Read r b = Ok (n, e, b', r') → data r' = data r ∧ head r' = head r.
Proof.
  unfold Read.
  destruct (DirectRead r (len b)) as [[s1 r1]| |] eqn:E1; [|done..]. obind.
  destruct (DirectRead r1 _) as [[s2 r2]| |] eqn:E2; [|done..]. obind.
  destruct (slice _ _ _); [|done..]. obind.
  apply bring_DirectRead_storage in E1 as [Hd1 Hh1].
  apply bring_DirectRead_storage in E2 as [Hd2 Hh2].
  destruct (_ && _); intros [= _ _ _ <-]; split; congruence.
Qed.

Lemma bring_traffic_cons o ops :
  traffic (o :: ops)
  = match o with SWrite b => len b | SRead n => Z.of_nat n end + traffic ops.
Proof. done. Qed.

Lemma bring_traffic_nonneg ops : 0 ≤ traffic ops.
Proof.
  induction ops as [|[b|n] ops IH]; [done|..];
    rewrite bring_traffic_cons; unfold len; lia.
Qed.

(** The stream behaves as a queue of bytes. *)
Lemma bring_srun_spec ops : ∀ r,
  wf r → Len r + traffic ops < 2 ^ 60 →
  ∃ outs r', srun ops r = Ok (outs, r') ∧ qrun ops (content r) = (outs, content r') ∧
             wf r' ∧ len (data r) ≤ len (data r') ∧ (sized r → sized r').
Proof.
  induction ops as [|o ops IH]; intros r Hwf Hb.
  { exists [], r. done. }
  pose proof (bring_Len_range r Hwf) as Hl.
  pose proof (bring_traffic_nonneg ops) as Ht0.
  pose proof (bring_content_length r Hwf) as Hcl.
  rewrite bring_traffic_cons in Hb.
  destruct o as [b|n]; simpl.
  - assert (Hb0 : 0 ≤ len b) by (unfold len; lia).
    destruct (bring_Write_spec r b Hwf ltac:(lia)) as (r1 & E1 & Hwf1 & Hc1 & HL1).
    destruct (bring_Write_storage r b _ _ r1 Hwf ltac:(lia) E1) as (Hm1 & Hs1).
    destruct (IH r1 Hwf1 ltac:(lia)) as (outs & r' & E' & Hq & Hwf' & Hm' & Hs').
    exists ((len b, None, []) :: outs), r'. rewrite E1. obind. rewrite E'. obind.
    rewrite <- Hc1, Hq. split_and!; try done; [lia|]. intros Hs. by apply Hs', Hs1.
  - destruct (bring_Read_spec r (replicate n x00) Hwf
                ltac:(unfold len; rewrite length_replicate; lia))
      as (r1 & E1 & Hwf1 & Hc1 & HL1).
    destruct (bring_Read_storage r _ _ _ _ r1 E1) as (Hd1 & _).
    assert (Hn : len (replicate n x00) = Z.of_nat n)
      by (unfold len; by rewrite length_replicate).
    rewrite Hn in *.
    destruct (IH r1 Hwf1 ltac:(lia)) as (outs & r' & E' & Hq & Hwf' & Hm' & Hs').
    rewrite E1. obind. rewrite E'. obind. eexists _, r'. split; [done|].
    assert (Hk : Z.to_nat (Z.min (Z.of_nat n) (Len r))
                 = (n `min` length (content r))%nat) by lia.
    rewrite Hk in *. rewrite <- Hc1, Hq.
    split_and!.
    + f_equal. f_equal. f_equal; [f_equal|].
      * lia.
      * destruct (content r) eqn:Hcr; simpl in Hcl;
          repeat case_decide; try done; lia.
      * rewrite drop_replicate. done.
    + done.
    + rewrite <- Hd1. done.
    + intros Hs. apply Hs'. destruct Hs as [Hnil|(k & Hk' & Hlen)].
      * left. congruence.
      * right. exists k. rewrite Hd1. done.
Qed.

Lemma iwrap_range z : - 2 ^ 63 ≤ iwrap z < 2 ^ 63.
Proof. unfold iwrap. pose proof (Z.mod_pos_bound (z + 2 ^ 63) (2 ^ 64)). lia. Qed.

(** A negative count makes the slice expression of [DirectWrite] panic,
    if the call gets that far. *)
Lemma bring_DirectWrite_negative r n w r1 :
  is_int n → n < 0 → DirectWrite r n ≠ Ok (w, r1).
Proof.
  intros Hint Hn. unfold DirectWrite.
  destruct (ensureCapacity _ _) as [re| |]; [|done..]. obind.
  set (nb := if _ <? n then _ else n).
  assert (Hnb : - 2 ^ 63 ≤ nb < 0).
  { unfold nb. pose proof (iwrap_range (uwrap (end_ re - head re))).
    unfold is_int in Hint. destruct (_ <? n) eqn:Hlt; [apply Z.ltb_lt in Hlt|]; lia. }
  clearbody nb. pose proof (iwrap_range (head re)) as Hlo.
  unfold slice. rewrite bool_decide_false; [done|].
  intros (H0 & Hle & _).
  rewrite (iwrap_small (iwrap (head re) + nb)) in Hle by lia. lia.
Qed.

(** From a power of two, doubling never reaches a bound above [2^63]:
    it passes through [2^63] to 0 and stays there. *)
Lemma bring_double_until_never need fuel : ∀ cap,
  2 ^ 63 < need → cap = 0 ∨ (∃ j, 0 ≤ j ≤ 63 ∧ cap = 2 ^ j) →
  double_until fuel cap need = Diverge.
Proof.
  induction fuel as [|fuel IH]; intros cap Hneed Hcap.
  - simpl. destruct (Z.ltb_spec cap need); [done|].
    destruct Hcap as [->|(j & Hj & ->)]; [lia|].
    assert (2 ^ j ≤ 2 ^ 63) by (apply Z.pow_le_mono_r; lia). lia.
  - simpl. destruct (Z.ltb_spec cap need).
    + apply IH; [done|]. destruct Hcap as [->|(j & Hj & ->)]; [by left|].
      destruct (decide (j = 63)) as [->|Hne]; [by left|right].
      exists (j + 1). split; [lia|].
      assert (2 ^ (j + 1) ≤ 2 ^ 63) by (apply Z.pow_le_mono_r; lia).
      rewrite Z.pow_add_r in * by lia. change (2 ^ 1) with 2 in *.
      rewrite uwrap_small; lia.
    + destruct Hcap as [->|(j & Hj & ->)]; [lia|].
      assert (2 ^ j ≤ 2 ^ 63) by (apply Z.pow_le_mono_r; lia). lia.
Qed.

Lemma bring_ensureCapacity_hangs r f :
  wf r → 2 ^ 63 < uwrap (uwrap (f + uwrap (Len r)) + 1) →
  ensureCapacity r f = Diverge.
Proof.
  intros Hwf Hneed. pose proof (bring_len_bound r Hwf) as Hb.
  unfold ensureCapacity. set (need := uwrap (uwrap _ + 1)) in *.
  rewrite (uwrap_small (len _)) by lia.
  destruct (Z.leb_spec need (len (data r))); [lia|].
  rewrite bring_double_until_never; [done..|]. right.
  unfold DefaultSize. destruct (Z.ltb_spec (len (data r)) 64).
  - exists 6. split; [lia|done].
  - destruct Hwf as [(Hi & _)|(k & Hk & Hlen & _)].
    + rewrite Hi in *. unfold len in *. simpl in *. lia.
    + exists k. split; [lia|done].
Qed.

End ByteRingMore.

Module RingPMore.
Import RingP RingPFacts.
Section facts.
Context {T : Type} (zeroT : T).
Implicit Types (r : RingP T) (x : T).

Lemma ringp_IsFull_spec r :
  wf r → IsFull r = bool_decide (length (content r) = Z.to_nat (Capacity r)).
Proof.
  intros Hwf. pose proof (ringp_Len_range r Hwf) as Hl.
  rewrite ringp_content_length by done. unfold IsFull. fold (Capacity r).
  destruct (Z.eqb_spec (Len r) (Capacity r)); case_bool_decide; (done || lia).
Qed.

(** Every sequence of operations leaves the queue that the operations
    describe. *)
Lemma ringp_run_model ops : ∀ r,
  wf r →
  ∃ r', run zeroT ops r = Ok r' ∧ wf r' ∧
        len (items r') = len (items r) ∧ mask r' = mask r ∧
        content r' = fold_left (survivors_step (Z.to_nat (Capacity r))) ops (content r).
Proof.
  induction ops as [|o ops IH]; intros r Hwf.
  - exists r. done.
  - destruct o as [x|]; simpl.
    + destruct (ringp_Add_spec zeroT r x Hwf) as (r1 & E1 & Hwf1 & Hc1 & Hi1 & Hm1).
      destruct (IH r1 Hwf1) as (r' & E' & Hwf' & Hi' & Hm' & Hc').
      exists r'. rewrite E1. obind. rewrite E', Hc', Hc1.
      unfold Capacity. rewrite Hm1. split_and!; try done; try congruence.
      f_equal. f_equal. rewrite ringp_IsFull_spec by done. unfold Capacity.
      case_bool_decide; case_decide; done.
    + destruct (ringp_Next_spec zeroT r Hwf) as (r1 & E1 & Hwf1 & Hc1 & _ & Hi1 & Hm1 & _).
      destruct (IH r1 Hwf1) as (r' & E' & Hwf' & Hi' & Hm' & Hc').
      exists r'. rewrite E1. obind. rewrite E', Hc', Hc1.
      unfold Capacity. rewrite Hm1. split_and!; try done; congruence.
Qed.

Lemma ringp_NewRingP_ok k :
  1 ≤ k ≤ 62 →
  NewRingP zeroT (2 ^ k)
  = Ok (mkRingP (replicate (Z.to_nat (2 ^ k)) zeroT) (2 ^ k - 1) 0 0).
Proof.
  intros Hk. pose proof (pow2_bounds k ltac:(lia)) as Hp.
  assert (2 ^ 1 ≤ 2 ^ k) by (apply Z.pow_le_mono_r; lia).
  unfold NewRingP. rewrite iwrap_small by lia.
  replace (2 ^ k - 1) with (Z.ones k) by (rewrite Z.ones_equiv; lia).
  rewrite Z.land_ones by lia. rewrite Z_mod_same_full.
  rewrite bool_decide_false by lia. rewrite mask_pow2 by lia.
  rewrite Z.ones_equiv. do 2 f_equal.
Qed.

Lemma ringp_NewRingP_panic sizePlus1 :
  is_int sizePlus1 → ¬ (∃ k, 1 ≤ k ≤ 62 ∧ sizePlus1 = 2 ^ k) →
  NewRingP zeroT sizePlus1 = Panic.
Proof.
  intros Hint Hno. unfold NewRingP. case_bool_decide as Hc; [done|].
  exfalso. apply Hno. apply land_pred_pow2; [unfold is_int in Hint; lia|].
  destruct (decide (Z.land sizePlus1 (iwrap (sizePlus1 - 1)) = 0)); [done|].
  exfalso. apply Hc. by left.
Qed.

End facts.
End RingPMore.

Module RingTMore.
Import RingT RingTFacts.
Section facts.
Context {T : Type}.
Implicit Types (r : RingT T) (x : option T).

(** [Add] leaves the storage alone, or doubles it (from nothing to two
    slots) when the ring would otherwise run out of free slots; right
    after that the storage is twice the count. *)
Lemma ringt_Add_storage r x :
  inv r →
  ∃ r', Add r x = Ok r' ∧ inv r' ∧ maxSize r' = maxSize r ∧
        content r' = (if decide (Len r = maxSize r) then drop 1 (content r)
                      else content r) ++ [x] ∧
        (len (items r') = len (items r) ∨
         (len (items r') = Z.max 2 (2 * len (items r)) ∧
          len (items r') = 2 * Len r')).
Proof.
  intros Hinv.
  destruct (ringt_Add_evict r Hinv) as (r1 & E1 & Hwf1 & Hcl1 & HL1 & Hc1 & Hi1 & Hm1).
  destruct (ringt_Add_spec r x Hinv) as (r' & E & Hinv' & Hc' & Hm').
  exists r'. split_and!; try done.
  destruct Hinv as (Hwf & (HM & HLM & Hsz) & Hcl).
  pose proof (ringt_Len_range r1 Hwf1) as Hl1.
  pose proof (ringt_len_cases r1 Hwf1) as Hlc1.
  revert E. unfold Add. rewrite E1. obind.
  rewrite (iwrap_small (len (items r1) - 1)) by (unfold len in *; lia).
  assert (Hgrow : len (items r1) = 0 ∨ Len r1 = len (items r1) - 1 →
    (if (len (items r1) =? 0) || (Len r1 =? len (items r1) - 1) then grow r1 else Ok r1)
    ≫= (λ r0, put r0 x) = Ok r' →
    len (items r') = Z.max 2 (2 * len (items r)) ∧ len (items r') = 2 * Len r').
  { intros Hcond.
    replace ((len (items r1) =? 0) || (Len r1 =? len (items r1) - 1)) with true
      by (destruct (Z.eqb_spec (len (items r1)) 0);
          destruct (Z.eqb_spec (Len r1) (len (items r1) - 1)); simpl; (done || lia)).
    destruct (ringt_grow_spec r1 Hwf1 ltac:(lia))
      as (r2 & E2 & Hwf2 & Hcl2 & Hc2 & HL2 & Hlen2 & _ & _ & _ & _ & Hm2).
    rewrite E2. obind.
    destruct (ringt_push_spec r2 x Hwf2 ltac:(lia))
      as (r3 & E3 & _ & _ & HL3 & Hi3 & _).
    rewrite E3. intros [= <-]. unfold len in *. rewrite Hi3, length_insert. lia. }
  destruct (Z.eqb_spec (len (items r1)) 0) as [H0|H0];
    [|destruct (Z.eqb_spec (Len r1) (len (items r1) - 1)) as [Hf|Hf]].
  - intros E. right. apply Hgrow; [by left|]. rewrite H0. done.
  - intros E. right. apply Hgrow; [by right|].
    destruct (Z.eqb_spec (len (items r1)) 0); [done|].
    destruct (Z.eqb_spec (Len r1) (len (items r1) - 1)); [done|lia].
  - simpl. obind. intros E. left.
    destruct (ringt_push_spec r1 x Hwf1 ltac:(lia)) as (r3 & E3 & _ & _ & _ & Hi3 & _).
    rewrite E3 in E. injection E as <-. unfold len in *.
    rewrite Hi3, length_insert. lia.
Qed.

(** The storage is allocated as elements arrive. *)
Lemma ringt_run_storage ops : ∀ r a,
  inv r → Len r ≤ a → len (items r) ≤ 2 * a →
  ∃ r', run ops r = Ok r' ∧ inv r' ∧ maxSize r' = maxSize r ∧
        len (items r) ≤ len (items r') ∧
        len (items r') ≤ 2 * (a + len (inserted ops)).
Proof.
  induction ops as [|o ops IH]; intros r a Hinv Ha Hsz.
  - exists r. unfold len in *. simpl. split_and!; try done; lia.
  - pose proof Hinv as (Hwf & (HM & HLM & Hsz') & Hcl).
    pose proof (ringt_Len_range r Hwf) as Hl.
    destruct o as [x|]; simpl.
    + destruct (ringt_Add_storage r x Hinv) as (r1 & E1 & Hinv1 & Hm1 & Hc1 & Hst).
      pose proof Hinv1 as (Hwf1 & _).
      assert (HL1 : Len r1 ≤ Len r + 1).
      { pose proof (ringt_content_length r1 Hwf1) as H1.
        pose proof (ringt_content_length r Hwf) as H2.
        pose proof (ringt_Len_range r1 Hwf1).
        rewrite Hc1, length_app in H1. simpl in H1.
        case_decide; rewrite ?length_drop in H1; lia. }
      destruct (IH r1 (a + 1) Hinv1) as (r' & E' & Hinv' & Hm' & Hmono & Hsz1);
        [lia|lia|].
      exists r'. rewrite E1. obind. rewrite E'.
      split_and!; try done; try congruence; [lia|].
      unfold len in *. simpl length. lia.
    + destruct (ringt_Next_spec r Hwf) as (r1 & E1 & Hwf1 & Hc1 & HL1 & Hi1 & _ & _ & Hm1 & Hcl1).
      destruct (IH r1 a) as (r' & E' & Hinv' & Hm' & Hmono & Hsz1); [|lia|lia|].
      { split_and!; try done; [|by apply Hcl1]. unfold bounded. rewrite Hm1, Hi1. lia. }
      exists r'. rewrite E1. obind. rewrite E'.
      split_and!; try done; try congruence; lia.
Qed.

End facts.
End RingTMore.

Module WeightedRingTMore.
Import WeightedRingT WeightedRingTFacts.
Section facts.
Context {T : Type}.
Implicit Types (r : WeightedRingT T) (x : option T) (w : Z).

Lemma wring_pairs_length r : wf r → length (pairs r) = Z.to_nat (Len r).
Proof.
  intros Hwf. unfold pairs.
  rewrite length_zip_with, wring_content_length, wring_live_weights_length by done.
  lia.
Qed.

Lemma wring_pairs_fst r : wf r → (pairs r).*1 = live_weights r.
Proof.
  intros Hwf. apply fst_zip.
  rewrite wring_content_length, wring_live_weights_length by done. done.
Qed.

Lemma wring_pairs_snd r : wf r → (pairs r).*2 = content r.
Proof.
  intros Hwf. apply snd_zip.
  rewrite wring_content_length, wring_live_weights_length by done. done.
Qed.

(** [Next] does to the ring what [chomp] of the test does to its queue. *)
Lemma wring_Next_pairs r :
  inv r →
  ∃ r', Next r = Ok (negb (Len r =? 0), hd None (content r), hd 0 (live_weights r), r') ∧
        inv r' ∧ (pairs r', weight r') = ref_chomp (pairs r, weight r) ∧
        Len r' = Z.max 0 (Len r - 1) ∧ len (items r') = len (items r) ∧
        MaxWeight r' = MaxWeight r.
Proof.
  intros Hinv.
  destruct (wring_Next_inv r Hinv) as (r' & E & Hinv' & Hc & Hw & HL & Hi & Hm).
  exists r'. split_and!; try done.
  destruct Hinv as (Hwf & _ & Hsum). destruct Hinv' as (Hwf' & _ & Hsum').
  pose proof (wring_content_length r Hwf) as Hcl.
  pose proof (wring_live_weights_length r Hwf) as Hwl.
  unfold pairs, ref_chomp. rewrite Hsum', Hc, Hw, Hsum. cbn [fst snd].
  destruct (live_weights r) as [|w0 ws]; destruct (content r) as [|x0 cs];
    simpl in *; try lia; [done|].
  rewrite !drop_0, iwrap_sub_l. do 2 f_equal. lia.
Qed.

(** The loop of [Add] drops what the loop of the test's [add] drops. *)
Lemma wring_evict_exact w fuel : ∀ r,
  inv r → (Z.to_nat (Len r) ≤ fuel)%nat →
  ∃ r', evict fuel r w = Ok r' ∧ inv r' ∧
        (pairs r', weight r') = ref_evict (MaxWeight r) (pairs r) (weight r) w ∧
        len (items r') = len (items r) ∧ MaxWeight r' = MaxWeight r ∧
        Len r' ≤ Len r.
Proof.
  induction fuel as [|fuel IH]; intros r Hinv Hfuel;
    pose proof Hinv as (Hwf & _); pose proof (wring_Len_range r Hwf) as Hl;
    pose proof (wring_pairs_length r Hwf) as Hpl.
  - exists r. assert (H0 : Len r = 0) by lia. simpl. rewrite H0.
    rewrite andb_false_r.
    destruct (pairs r); [|simpl in Hpl; lia]. split_and!; try done; lia.
  - simpl. destruct (Z.eqb_spec (Len r) 0) as [H0|H0]; simpl.
    { rewrite andb_false_r. exists r.
      destruct (pairs r); [|simpl in Hpl; lia]. split_and!; try done; lia. }
    rewrite andb_true_r.
    destruct (wring_Next_pairs r Hinv) as (r1 & E1 & Hinv1 & Hp1 & HL1 & Hi1 & Hm1).
    destruct (pairs r) as [|p q] eqn:Hq; [simpl in Hpl; lia|].
    unfold ref_chomp in Hp1. cbn [fst snd] in Hp1. injection Hp1 as Hp1 Hw1.
    simpl. destruct (iwrap (weight r + w) >? MaxWeight r).
    + destruct (IH r1 Hinv1 ltac:(lia)) as (r' & E' & Hinv' & Hp' & Hi' & Hm' & HL').
      exists r'. rewrite E1. obind. rewrite E', Hp', Hp1, Hw1, Hm1.
      split_and!; try done; try congruence; lia.
    + exists r. rewrite Hq. split_and!; try done; lia.
Qed.

(** [Add] does to the ring what [add] of the test does to its queue. *)
Lemma wring_Add_exact r w x :
  inv r → len (items r) ≤ 2 ^ 61 →
  ∃ r', Add r w x = Ok r' ∧ inv r' ∧ MaxWeight r' = MaxWeight r ∧
        (pairs r', weight r') = ref_add (MaxWeight r) (pairs r, weight r) w x ∧
        len (items r') ≤ Z.max (len (items r)) (Z.max 4 (2 * (Len r + 1))) ∧
        Len r' ≤ Len r + 1.
Proof.
  intros Hinv Hsz.
  destruct (wring_Add_grow r Hinv Hsz)
    as (r2 & E2 & Hinv2 & Hc2 & Hw2 & HL2 & Hf2 & Hsz2 & Hm2).
  destruct (wring_evict_exact w (Z.to_nat (Len r2)) r2 Hinv2 ltac:(lia))
    as (r3 & E3 & Hinv3 & Hp3 & Hi3 & Hm3 & HL3).
  pose proof Hinv3 as (Hwf3 & Hcl3 & Hsum3).
  destruct (wring_push_spec r3 w x Hwf3 ltac:(lia))
    as (r' & E4 & Hwf' & Hc' & Hw' & HL' & Hi' & Hm' & Hwt' & Hcl').
  assert (Hinv' : inv r').
  { split_and!; [done|by apply Hcl'|].
    rewrite Hwt', Hw', Hsum3, zsum_app, iwrap_add_l. simpl. f_equal. lia. }
  exists r'. unfold Add. rewrite E2. obind. rewrite E3. obind. rewrite E4.
  split_and!; try done; try congruence; try lia.
  assert (Hp2 : pairs r2 = pairs r) by (unfold pairs; by rewrite Hc2, Hw2).
  assert (Hwt2 : weight r2 = weight r).
  { destruct Hinv as (_ & _ & ->). destruct Hinv2 as (_ & _ & ->). by rewrite Hw2. }
  unfold ref_add. cbn [fst snd]. rewrite <- Hm2, <- Hp2, <- Hwt2, <- Hp3.
  rewrite Hwt'. f_equal. unfold pairs. rewrite Hc', Hw'.
  rewrite zip_with_app; [done|].
  rewrite wring_content_length, wring_live_weights_length by done. done.
Qed.

Lemma wring_run_exact ops : ∀ r a,
  inv r → Len r ≤ a → len (items r) ≤ 4 * (a + 1) → 0 ≤ a →
  a + len ops ≤ 2 ^ 58 →
  ∃ r', run ops r = Ok r' ∧ inv r' ∧ MaxWeight r' = MaxWeight r ∧
        (pairs r', weight r')
        = fold_left (ref_step (MaxWeight r)) ops (pairs r, weight r).
Proof.
  induction ops as [|o ops IH]; intros r a Hinv Ha Hsz Ha0 Hops.
  - exists r. done.
  - unfold len in Hops. simpl length in Hops. destruct o as [w x|]; simpl.
    + destruct (wring_Add_exact r w x Hinv ltac:(lia))
        as (r1 & E1 & Hinv1 & Hm1 & Hp1 & Hsz1 & HL1).
      destruct (IH r1 (a + 1) Hinv1) as (r' & E' & Hinv' & Hm' & Hp');
        [unfold len in *; lia..|].
      exists r'. rewrite E1. obind. rewrite E', Hp', Hp1, Hm1.
      split_and!; try done. congruence.
    + destruct (wring_Next_pairs r Hinv) as (r1 & E1 & Hinv1 & Hp1 & HL1 & Hi1 & Hm1).
      destruct (IH r1 a Hinv1) as (r' & E' & Hinv' & Hm' & Hp');
        [unfold len in *; lia..|].
      exists r'. rewrite E1. obind. rewrite E', Hp', Hp1, Hm1.
      split_and!; try done. congruence.
Qed.

(** The query [Peek], modelled from the spec: outside the stored range
    it reports nothing and leaves the ring; inside, it reports what the
    unexported [peek] of the sources reads, as [validate] of
    weighted_test.go expects. *)
Lemma wring_Peek_out r i :
  i < 0 ∨ Len r ≤ i →
  Peek r i = Ok (false, None, 0, r).
Proof.
  intros Hout. unfold Peek.
  destruct (Z.ltb_spec i 0); [done|].
  destruct (Z.geb_spec i (Len r)); [done|lia].
Qed.

Lemma wring_Peek_in r i x w :
  wf r → 0 ≤ i < Len r →
  content r !! Z.to_nat i = Some x →
  live_weights r !! Z.to_nat i = Some w →
  Peek r i = Ok (true, x, w, r).
Proof.
  intros Hwf Hi Hx Hw. unfold Peek.
  pose proof (wring_Len_range r Hwf) as Hl.
  pose proof (wring_len_cases r Hwf) as Hlc.
  destruct (Z.ltb_spec i 0); [lia|].
  destruct (Z.geb_spec i (Len r)); [lia|]. simpl.
  rewrite uwrap_small by lia.
  rewrite (wring_peek_in r i x w) by done. done.
Qed.

End facts.
End WeightedRingTMore.

(** * The claims *)

(** ** C6: the fixed ring of values *)

(** C6, as stated, fails once a value has been removed: after
    [Add(1); Add(2); Next()] on a ring of capacity 3 the ring holds [2],
    while the last 3 inserted values are [1; 2]. *)
Lemma C6_counterexample :
  ∃ r0 r,
    RingP.NewRingP 0 4 = Ok r0 ∧
    RingP.run 0 [OpAdd 1; OpAdd 2; OpNext] r0 = Ok r ∧
    RingP.Capacity r = 3 ∧
    RingP.peeks 0 r = [Ok (2, r)] ∧
    lastn 3 (inserted [OpAdd 1; OpAdd 2; OpNext]) = [1; 2] ∧
    RingP.peeks 0 r ≠ (λ x, Ok (x, r)) <$> lastn 3 (inserted [OpAdd 1; OpAdd 2; OpNext]).
Proof.
  eexists _, _. split; [vm_compute; reflexivity|].
  split; [vm_compute; reflexivity|].
  split; [vm_compute; reflexivity|].
  split; [vm_compute; reflexivity|].
  split; [vm_compute; reflexivity|].
  vm_compute. discriminate.
Qed.

(** C6, amended: on a ring built by [NewRingP(C+1)], every sequence of
    [Add] and [Next] runs without panic and leaves [Len() <= C]; the values
    [Peek(0)], ..., [Peek(Len()-1)] are the last [Len()] inserted values in
    insertion order; when nothing was removed [Len()] is the smaller of [C]
    and the number of insertions, so these are the last [C] inserted values;
    [Add] on a full ring drops the oldest value and appends the new one; the
    storage never changes size. *)
Theorem C6_bounded_ring_keeps_latest {T} (zeroT : T) sizePlus1 r0 (ops : list (op T)) :
  is_int sizePlus1 →
  RingP.NewRingP zeroT sizePlus1 = Ok r0 →
  ∃ r, RingP.run zeroT ops r0 = Ok r ∧
       0 ≤ RingP.Len r ≤ sizePlus1 - 1 ∧
       RingP.Capacity r = sizePlus1 - 1 ∧
       len (RingP.items r) = sizePlus1 ∧
       RingP.peeks zeroT r
       = (λ x, Ok (x, r)) <$> lastn (Z.to_nat (RingP.Len r)) (inserted ops) ∧
       (only_adds ops →
        RingP.Len r = Z.min (sizePlus1 - 1) (len (inserted ops)) ∧
        RingP.peeks zeroT r
        = (λ x, Ok (x, r)) <$> lastn (Z.to_nat (sizePlus1 - 1)) (inserted ops)) ∧
       (∀ x, RingP.IsFull r = true →
             ∃ r', RingP.Add zeroT r x = Ok r' ∧
                   RingP.Len r' = RingP.Len r ∧
                   RingP.content r' = drop 1 (RingP.content r) ++ [x] ∧
                   len (RingP.items r') = len (RingP.items r)).
Proof.
  intros Hint Hnew.
  destruct (RingPFacts.ringp_NewRingP_spec zeroT sizePlus1 r0 Hint Hnew)
    as (Hwf0 & Hc0 & HL0 & Hi0 & Hcap0).
  destruct (RingPFacts.ringp_run_spec zeroT ops r0 [] Hwf0)
    as (r & E & Hwf & Hi & Hm & [pre Hpre] & Hadds).
  { exists []. rewrite Hc0. done. }
  pose proof (RingPFacts.ringp_Len_range r Hwf) as (Hl & Hc & Hc1).
  pose proof (RingPFacts.ringp_content_length r Hwf) as Hcl.
  assert (Hcap : RingP.Capacity r = sizePlus1 - 1).
  { unfold RingP.Capacity in *. rewrite Hm. done. }
  assert (Hlast : RingP.content r = lastn (Z.to_nat (RingP.Len r)) (inserted ops)).
  { simpl in Hpre. rewrite Hpre, <- Hcl. symmetry. apply RingPFacts.ringp_lastn_suffix. }
  exists r. split_and!; try done; try lia.
  - rewrite RingPFacts.ringp_peeks_spec, <- Hlast by done. done.
  - intros Hall. specialize (Hadds Hall). rewrite HL0, Hcap0 in Hadds.
    split; [lia|].
    rewrite RingPFacts.ringp_peeks_spec, Hlast by done. f_equal.
    rewrite Hadds. unfold lastn, len. f_equal. lia.
  - intros x Hfull.
    destruct (RingPFacts.ringp_Add_spec zeroT r x Hwf) as (r' & E' & Hwf' & Hc' & Hi' & Hm').
    rewrite Hfull in Hc'. exists r'. split_and!; try done.
    pose proof (RingPFacts.ringp_content_length r' Hwf') as Hcl'.
    pose proof (RingPFacts.ringp_Len_range r' Hwf') as (Hl' & _).
    rewrite Hc', length_app, length_drop in Hcl'. simpl in Hcl'.
    unfold RingP.IsFull in Hfull. apply Z.eqb_eq in Hfull.
    unfold RingP.Capacity in *. lia.
Qed.

Lemma C6_bounded_ring_keeps_latest_witness :
  ∃ r, RingP.run 0 [OpAdd 1; OpAdd 2; OpAdd 3; OpAdd 4; OpAdd 5]
         {| RingP.items := [0; 0; 0; 0]; RingP.mask := 3; RingP.tail := 0; RingP.head := 0 |}
       = Ok r ∧
       0 ≤ RingP.Len r ≤ 4 - 1 ∧
       RingP.Capacity r = 4 - 1 ∧
       len (RingP.items r) = 4 ∧
       RingP.peeks 0 r
       = (λ x, Ok (x, r)) <$> lastn (Z.to_nat (RingP.Len r))
                                 (inserted [OpAdd 1; OpAdd 2; OpAdd 3; OpAdd 4; OpAdd 5]) ∧
       (only_adds [OpAdd 1; OpAdd 2; OpAdd 3; OpAdd 4; OpAdd 5] →
        RingP.Len r
        = Z.min (4 - 1) (len (inserted [OpAdd 1; OpAdd 2; OpAdd 3; OpAdd 4; OpAdd 5])) ∧
        RingP.peeks 0 r
        = (λ x, Ok (x, r)) <$> lastn (Z.to_nat (4 - 1))
                                  (inserted [OpAdd 1; OpAdd 2; OpAdd 3; OpAdd 4; OpAdd 5])) ∧
       (∀ x, RingP.IsFull r = true →
             ∃ r', RingP.Add 0 r x = Ok r' ∧
                   RingP.Len r' = RingP.Len r ∧
                   RingP.content r' = drop 1 (RingP.content r) ++ [x] ∧
                   len (RingP.items r') = len (RingP.items r)).
Proof.
  apply (C6_bounded_ring_keeps_latest 0 4).
  - unfold is_int. lia.
  - reflexivity.
Defined.

(** ** C8: the bounded ring of pointers *)

(** C8: on a ring built by [NewRingT(M)], every sequence of [Add] and
    [Next] runs without panic and leaves [Len() <= M]; [Len()] is the number
    of surviving elements, and [Peek(i)] for [0 <= i < Len()] returns the
    [i]-th oldest of them, where an [Add] into a ring of [M] elements first
    drops the oldest.  [M] is at most [2^61], so that the storage of at most
    [2M] slots has an [int] length. *)
Theorem C8_growing_ring_peek_survivors {T} M r0 (ops : list (op (option T))) :
  1 ≤ M ≤ 2 ^ 61 →
  RingT.NewRingT M = Ok r0 →
  ∃ r, RingT.run ops r0 = Ok r ∧
       0 ≤ RingT.Len r ≤ M ∧
       RingT.Len r = len (survivors (Z.to_nat M) ops) ∧
       RingT.peeks r = (λ x, Ok (x, r)) <$> survivors (Z.to_nat M) ops ∧
       (∀ i x, survivors (Z.to_nat M) ops !! i = Some x →
               RingT.Peek r (Z.of_nat i) = Ok (x, r)).
Proof.
  intros HM Hnew.
  destruct (RingTFacts.ringt_NewRingT_spec M r0 Hnew HM) as (Hinv0 & Hc0 & Hm0).
  destruct (RingTFacts.ringt_run_spec ops r0 Hinv0) as (r & E & Hinv & Hm & Hc).
  rewrite Hc0, Hm0 in Hc. fold (survivors (Z.to_nat M) ops) in Hc.
  pose proof Hinv as (Hwf & (_ & HLM & _) & _).
  pose proof (RingTFacts.ringt_Len_range r Hwf) as Hl.
  pose proof (RingTFacts.ringt_content_length r Hwf) as Hcl.
  exists r. split_and!; try done; try lia.
  - rewrite <- Hc. unfold len. lia.
  - rewrite RingTFacts.ringt_peeks_spec, Hc by done. done.
  - intros i x Hx. rewrite <- Hc in Hx. apply lookup_lt_Some in Hx as Hlt.
    apply RingTFacts.ringt_Peek_in; [done|lia|]. rewrite Nat2Z.id. done.
Qed.

Lemma C8_growing_ring_peek_survivors_witness :
  ∃ r, RingT.run [OpAdd (Some 1); OpAdd (Some 2); OpAdd (Some 3); OpAdd (Some 4); OpNext]
         {| RingT.items := []; RingT.mask := 0; RingT.tail := 0; RingT.head := 0;
            RingT.maxSize := 3 |}
       = Ok r ∧
       0 ≤ RingT.Len r ≤ 3 ∧
       RingT.Len r
       = len (survivors (Z.to_nat 3)
                [OpAdd (Some 1); OpAdd (Some 2); OpAdd (Some 3); OpAdd (Some 4); OpNext]) ∧
       RingT.peeks r
       = (λ x, Ok (x, r))
         <$> survivors (Z.to_nat 3)
               [OpAdd (Some 1); OpAdd (Some 2); OpAdd (Some 3); OpAdd (Some 4); OpNext] ∧
       (∀ i x,
          survivors (Z.to_nat 3)
            [OpAdd (Some 1); OpAdd (Some 2); OpAdd (Some 3); OpAdd (Some 4); OpNext] !! i
          = Some x →
          RingT.Peek r (Z.of_nat i) = Ok (x, r)).
Proof.
  apply (C8_growing_ring_peek_survivors (T:=Z) 3).
  - lia.
  - reflexivity.
Defined.

(** ** C10: vacated slots hold nil *)

(** C10: after every sequence of [Add] and [Next] on a ring built by
    [NewRingT] or [NewWeightedRingT], every slot of [items] outside the
    region from [tail] up to [head] holds [nil].  The sequences on a
    weighted ring have at most [2^58] operations, so that the storage has an
    [int] length. *)
Theorem C10_slots_outside_region_are_nil {T} :
  (∀ M r0 (ops : list (op (option T))),
     1 ≤ M ≤ 2 ^ 61 → RingT.NewRingT M = Ok r0 →
     ∃ r, RingT.run ops r0 = Ok r ∧
          ∀ j, 0 ≤ j < len (RingT.items r) →
               ¬ live (RingT.tail r) (RingT.head r) j →
               RingT.items r !! Z.to_nat j = Some None) ∧
  (∀ W (ops : list (WeightedRingT.wop T)),
     len ops ≤ 2 ^ 58 →
     ∃ r, WeightedRingT.run ops (WeightedRingT.NewWeightedRingT W) = Ok r ∧
          ∀ j, 0 ≤ j < len (WeightedRingT.items r) →
               ¬ live (WeightedRingT.tail r) (WeightedRingT.head r) j →
               WeightedRingT.items r !! Z.to_nat j = Some None).
Proof.
  split.
  - intros M r0 ops HM Hnew.
    destruct (RingTFacts.ringt_NewRingT_spec M r0 Hnew HM) as (Hinv0 & _).
    destruct (RingTFacts.ringt_run_spec ops r0 Hinv0) as (r & E & (_ & _ & Hcl) & _).
    exists r. split; [done|]. exact Hcl.
  - intros W ops Hops.
    destruct (WeightedRingTFacts.wring_run_spec ops (WeightedRingT.NewWeightedRingT W) 0
                (WeightedRingTFacts.wring_New_inv W))
      as (r & E & (_ & Hcl & _) & _); try done.
    exists r. split; [done|]. exact Hcl.
Qed.

Lemma C10_slots_outside_region_are_nil_witness :
  (∃ r, RingT.run [OpAdd (Some 1); OpAdd (Some 2); OpNext; OpAdd (Some 3)]
          {| RingT.items := []; RingT.mask := 0; RingT.tail := 0; RingT.head := 0;
             RingT.maxSize := 2 |}
        = Ok r ∧
        ∀ j, 0 ≤ j < len (RingT.items r) →
             ¬ live (RingT.tail r) (RingT.head r) j →
             RingT.items r !! Z.to_nat j = Some None) ∧
  (∃ r, WeightedRingT.run
          [WeightedRingT.WAdd 2 (Some 1); WeightedRingT.WAdd 9 (Some 2); WeightedRingT.WNext]
          (WeightedRingT.NewWeightedRingT 10) = Ok r ∧
        ∀ j, 0 ≤ j < len (WeightedRingT.items r) →
             ¬ live (WeightedRingT.tail r) (WeightedRingT.head r) j →
             WeightedRingT.items r !! Z.to_nat j = Some None).
Proof.
  split.
  - apply (proj1 (C10_slots_outside_region_are_nil (T:=Z)) 2); [lia|reflexivity].
  - apply (proj2 (C10_slots_outside_region_are_nil (T:=Z)) 10).
    unfold len. simpl. lia.
Defined.

(** ** C7: Peek outside the stored range *)

(** The unexported [peek] of the sources is not the query of C7: it takes
    a [uint], has no range check and no presence flag.  After [Add(5, x)]
    the ring holds one element, yet [peek(4)] returns [x] with weight 5;
    after a further [Next()] the ring is empty, yet [peek(3)] returns
    [nil] with the stale weight 5; and on a ring without storage [peek(0)]
    panics.  The exported [Peek] is modelled from the spec. *)
Remark wring_peek_is_unchecked :
  ∃ r1 r2,
    WeightedRingT.Add (WeightedRingT.NewWeightedRingT 10) 5 (Some 7) = Ok r1 ∧
    WeightedRingT.Len r1 = 1 ∧
    WeightedRingT.peek r1 4 = Ok (Some 7, 5, r1) ∧
    WeightedRingT.Next r1 = Ok (true, Some 7, 5, r2) ∧
    WeightedRingT.Len r2 = 0 ∧
    WeightedRingT.peek r2 3 = Ok (None, 5, r2) ∧
    WeightedRingT.peek (WeightedRingT.NewWeightedRingT (T:=Z) 10) 0 = Panic.
Proof.
  eexists _, _. split; [vm_compute; reflexivity|].
  split; [vm_compute; reflexivity|].
  split; [vm_compute; reflexivity|].
  split; [vm_compute; reflexivity|].
  split; [vm_compute; reflexivity|].
  split; vm_compute; reflexivity.
Qed.

(** C7: [Peek(i)] with an index outside the stored range, [i < 0] or
    [i >= Len()], returns the absent result and leaves the ring as it
    was, its length, weight, head, tail and every stored element: the
    zero value on a fixed ring and [nil] on a bounded ring of pointers,
    each reached by any sequence of [Add] and [Next]; and
    [(false, nil, 0)] on any weighted ring, whose [Peek] is modelled from
    the spec. *)
Theorem C7_peek_out_of_range {T} (zeroT : T) :
  (∀ sizePlus1 r0 (ops : list (op T)) r i,
     is_int sizePlus1 → RingP.NewRingP zeroT sizePlus1 = Ok r0 →
     RingP.run zeroT ops r0 = Ok r →
     is_int i → i < 0 ∨ RingP.Len r ≤ i →
     RingP.Peek zeroT r i = Ok (zeroT, r)) ∧
  (∀ M r0 (ops : list (op (option T))) r i,
     1 ≤ M ≤ 2 ^ 61 → RingT.NewRingT M = Ok r0 →
     RingT.run ops r0 = Ok r →
     is_int i → i < 0 ∨ RingT.Len r ≤ i →
     RingT.Peek r i = Ok (None, r)) ∧
  (∀ (r : WeightedRingT.WeightedRingT T) i,
     is_int i → i < 0 ∨ WeightedRingT.Len r ≤ i →
     WeightedRingT.Peek r i = Ok (false, None, 0, r)).
Proof.
  split_and!.
  - intros sp r0 ops r i Hint Hnew Hrun Hi Hout.
    destruct (RingPFacts.ringp_NewRingP_spec zeroT sp r0 Hint Hnew) as (Hwf0 & Hc0 & _).
    destruct (RingPFacts.ringp_run_spec zeroT ops r0 [] Hwf0) as (r' & E & Hwf & _).
    { exists []. rewrite Hc0. done. }
    rewrite Hrun in E. injection E as <-.
    apply RingPFacts.ringp_Peek_out; done.
  - intros M r0 ops r i HM Hnew Hrun Hi Hout.
    destruct (RingTFacts.ringt_NewRingT_spec M r0 Hnew HM) as (Hinv0 & _).
    destruct (RingTFacts.ringt_run_spec ops r0 Hinv0) as (r' & E & (Hwf & _) & _).
    rewrite Hrun in E. injection E as <-.
    apply RingTFacts.ringt_Peek_out; done.
  - intros r i _ Hout. by apply WeightedRingTMore.wring_Peek_out.
Qed.

Lemma C7_peek_out_of_range_witness :
  RingP.Peek 0
    {| RingP.items := [1; 2; 0; 0]; RingP.mask := 3; RingP.tail := 0; RingP.head := 2 |}
    (-1)
  = Ok (0, {| RingP.items := [1; 2; 0; 0]; RingP.mask := 3;
              RingP.tail := 0; RingP.head := 2 |}) ∧
  RingT.Peek
    {| RingT.items := [Some 1; None]; RingT.mask := 1; RingT.tail := 0;
       RingT.head := 1; RingT.maxSize := 5 |}
    1
  = Ok (None, {| RingT.items := [Some 1; None]; RingT.mask := 1; RingT.tail := 0;
                 RingT.head := 1; RingT.maxSize := 5 |}) ∧
  WeightedRingT.Peek
    {| WeightedRingT.MaxWeight := 10; WeightedRingT.weight := 5;
       WeightedRingT.items := [Some 7; None; None; None];
       WeightedRingT.weights := [5; 0; 0; 0];
       WeightedRingT.tail := 0; WeightedRingT.head := 1 |}
    4
  = Ok (false, None, 0,
        {| WeightedRingT.MaxWeight := 10; WeightedRingT.weight := 5;
           WeightedRingT.items := [Some 7; None; None; None];
           WeightedRingT.weights := [5; 0; 0; 0];
           WeightedRingT.tail := 0; WeightedRingT.head := 1 |}).
Proof.
  split_and!.
  - apply (proj1 (C7_peek_out_of_range (T:=Z) 0) 4
             {| RingP.items := [0; 0; 0; 0]; RingP.mask := 3;
                RingP.tail := 0; RingP.head := 0 |}
             [OpAdd 1; OpAdd 2]).
    + unfold is_int. lia.
    + reflexivity.
    + reflexivity.
    + unfold is_int. lia.
    + left. lia.
  - apply (proj1 (proj2 (C7_peek_out_of_range (T:=Z) 0)) 5
             {| RingT.items := []; RingT.mask := 0; RingT.tail := 0; RingT.head := 0;
                RingT.maxSize := 5 |}
             [OpAdd (Some 1)]).
    + lia.
    + reflexivity.
    + reflexivity.
    + unfold is_int. lia.
    + right. vm_compute. discriminate.
  - apply (proj2 (proj2 (C7_peek_out_of_range (T:=Z) 0))).
    + unfold is_int. lia.
    + right. vm_compute. discriminate.
Defined.

(** ** C5: the running weight *)

(** C5: on a ring built by [NewWeightedRingT(W)], after every sequence of
    [Add] and [Next] (fewer than [2^58] operations) [Weight()] is the sum of the weights of the stored elements as an [int],
    hence their sum whenever that is an [int]; and every further [Add]
    of an [int] weight (growth included) keeps this and leaves either
    [Weight() <= W] or exactly one element, the new one, whose weight
    exceeds [W]. *)
Theorem C5_weight_is_sum_of_live_weights {T} W (ops : list (WeightedRingT.wop T)) :
  len ops < 2 ^ 58 →
  ∃ r, WeightedRingT.run ops (WeightedRingT.NewWeightedRingT W) = Ok r ∧
       WeightedRingT.Weight r = iwrap (zsum (WeightedRingT.live_weights r)) ∧
       (is_int (zsum (WeightedRingT.live_weights r)) →
        WeightedRingT.Weight r = zsum (WeightedRingT.live_weights r)) ∧
       (∀ w x, is_int w →
          ∃ r', WeightedRingT.Add r w x = Ok r' ∧
                WeightedRingT.Weight r' = iwrap (zsum (WeightedRingT.live_weights r')) ∧
                (WeightedRingT.Weight r' ≤ W ∨
                 (WeightedRingT.Len r' = 1 ∧ WeightedRingT.live_weights r' = [w] ∧ W < w))).
Proof.
  intros Hops.
  destruct (WeightedRingTFacts.wring_run_spec ops (WeightedRingT.NewWeightedRingT W) 0
              (WeightedRingTFacts.wring_New_inv W))
    as (r & E & Hinv & Hm & Hsz); try done; [lia|].
  pose proof Hinv as (Hwf & _ & Hsum).
  exists r. split_and!; try done.
  - intros Hi. unfold WeightedRingT.Weight. rewrite Hsum. apply iwrap_small. exact Hi.
  - intros w x Hw.
    destruct (WeightedRingTFacts.wring_Add_spec r w x Hinv Hsz)
      as (r' & d & E' & (Hwf' & _ & Hsum') & Hm' & _ & _ & Hfit & _).
    exists r'. split_and!; try done.
    simpl in Hm. rewrite Hm in Hfit.
    destruct (Hfit Hw) as [Hle|[Hone Hgt]]; [left; done|right].
    split_and!; try done.
    pose proof (WeightedRingTFacts.wring_live_weights_length r' Hwf') as Hlen.
    pose proof (WeightedRingTFacts.wring_Len_range r' Hwf') as Hl.
    rewrite Hone in Hlen. simpl in Hlen. lia.
Qed.

Lemma C5_weight_is_sum_of_live_weights_witness :
  ∃ r, WeightedRingT.run
         [WeightedRingT.WAdd 2 (Some 1); WeightedRingT.WAdd 3 (Some 2);
          WeightedRingT.WAdd 4 (Some 3); WeightedRingT.WAdd 3 (Some 4);
          WeightedRingT.WNext]
         (WeightedRingT.NewWeightedRingT 10) = Ok r ∧
       WeightedRingT.Weight r = iwrap (zsum (WeightedRingT.live_weights r)) ∧
       (is_int (zsum (WeightedRingT.live_weights r)) →
        WeightedRingT.Weight r = zsum (WeightedRingT.live_weights r)) ∧
       (∀ w x, is_int w →
          ∃ r', WeightedRingT.Add r w x = Ok r' ∧
                WeightedRingT.Weight r' = iwrap (zsum (WeightedRingT.live_weights r')) ∧
                (WeightedRingT.Weight r' ≤ 10 ∨
                 (WeightedRingT.Len r' = 1 ∧ WeightedRingT.live_weights r' = [w] ∧ 10 < w))).
Proof.
  apply (C5_weight_is_sum_of_live_weights (T:=Z) 10).
  unfold len. simpl. lia.
Defined.

(** ** C2: growth *)

(** C2, as stated, fails in two ways.  The byte ring grows in place:
    after writing 20 bytes and reading 10, a request for 100 more bytes
    extends the 64-byte array to 128 bytes and leaves [tail = 10] and
    [head = 20]; nothing is moved to index 0, [tail] is not 0 and [head] is
    not the count 10.  And the rings of pointers do not grow when an
    insert makes the occupancy reach [cap - 1]: with 2 of 4 slots occupied
    from [tail = 1], a further [Add] stores the third element in the same
    4 slots, with [tail] still 1 and [head] wrapped to 0, in [RingT] as in
    [WeightedRingT].  Nor does [RingT] grow when 3 of 4 slots are occupied
    and 3 is its [maxSize]: [Add] drops the oldest element first and
    finds room. *)
Lemma C2_counterexample :
  (∃ r1 r2 r3 buf,
     ByteRing.Write ByteRing.zero (replicate 20 x01) = Ok (20, None, r1) ∧
     ByteRing.Read r1 (replicate 10 x00) = Ok (10, None, buf, r2) ∧
     ByteRing.ensureCapacity r2 100 = Ok r3 ∧
     len (ByteRing.data r2) = 64 ∧ len (ByteRing.data r3) = 128 ∧
     ByteRing.Len r3 = 10 ∧ ByteRing.tail r3 = 10 ∧ ByteRing.head r3 = 20 ∧
     ByteRing.data r3 = ByteRing.data r2 ++ replicate 64 x00) ∧
  (∃ r0 r r',
     RingT.NewRingT 100 = Ok r0 ∧
     RingT.run [OpAdd (Some 1); OpAdd (Some 2); OpNext; OpAdd (Some 3)] r0 = Ok r ∧
     len (RingT.items r) = 4 ∧ RingT.Len r = 2 ∧
     RingT.Add r (Some 4) = Ok r' ∧
     RingT.Len r' = 3 ∧ len (RingT.items r') = 4 ∧
     RingT.tail r' = 1 ∧ RingT.head r' = 0) ∧
  (∃ r r',
     WeightedRingT.run
       [WeightedRingT.WAdd 1 (Some 1); WeightedRingT.WAdd 1 (Some 2);
        WeightedRingT.WNext; WeightedRingT.WAdd 1 (Some 3)]
       (WeightedRingT.NewWeightedRingT 100) = Ok r ∧
     len (WeightedRingT.items r) = 4 ∧ WeightedRingT.Len r = 2 ∧
     WeightedRingT.Add r 1 (Some 4) = Ok r' ∧
     WeightedRingT.Len r' = 3 ∧ len (WeightedRingT.items r') = 4 ∧
     WeightedRingT.tail r' = 1 ∧ WeightedRingT.head r' = 0) ∧
  (∃ r0 r r',
     RingT.NewRingT 3 = Ok r0 ∧
     RingT.run [OpAdd (Some 1); OpAdd (Some 2); OpAdd (Some 3)] r0 = Ok r ∧
     len (RingT.items r) = 4 ∧ RingT.Len r = 3 ∧
     RingT.Add r (Some 4) = Ok r' ∧
     RingT.Len r' = 3 ∧ len (RingT.items r') = 4 ∧
     RingT.tail r' = 1 ∧ RingT.head r' = 0).
Proof.
  split; [|split; [|split]].
  - eexists _, _, _, _. split; [vm_compute; reflexivity|].
    split; [vm_compute; reflexivity|].
    split; [vm_compute; reflexivity|].
    split; [vm_compute; reflexivity|].
    split; [vm_compute; reflexivity|].
    split; [vm_compute; reflexivity|].
    split; [vm_compute; reflexivity|].
    split; vm_compute; reflexivity.
  - eexists _, _, _. split; [vm_compute; reflexivity|].
    split; [vm_compute; reflexivity|].
    split; [vm_compute; reflexivity|].
    split; [vm_compute; reflexivity|].
    split; [vm_compute; reflexivity|].
    split; [vm_compute; reflexivity|].
    split; [vm_compute; reflexivity|].
    split; vm_compute; reflexivity.
  - eexists _, _. split; [vm_compute; reflexivity|].
    split; [vm_compute; reflexivity|].
    split; [vm_compute; reflexivity|].
    split; [vm_compute; reflexivity|].
    split; [vm_compute; reflexivity|].
    split; [vm_compute; reflexivity|].
    split; vm_compute; reflexivity.
  - eexists _, _, _. split; [vm_compute; reflexivity|].
    split; [vm_compute; reflexivity|].
    split; [vm_compute; reflexivity|].
    split; [vm_compute; reflexivity|].
    split; [vm_compute; reflexivity|].
    split; [vm_compute; reflexivity|].
    split; [vm_compute; reflexivity|].
    split; vm_compute; reflexivity.
Qed.

(** C2, amended: in the two rings of pointers.  [RingT.Add] first drops
    the oldest element of a ring that holds [maxSize]; [WeightedRingT.Add]
    starts at once.  If then the storage is empty or all but one of its
    slots are occupied, a new array of twice the size (at least 2,
    respectively 4) receives the elements oldest first from index 0, with
    [nil] (and weight 0) behind them, [tail] becomes 0 and [head] the count;
    the weighted ring keeps its running weight.  Only then is the item stored
    at [head], in the weighted ring after the eviction by weight.  The byte
    ring is left out: it grows in place. *)
Theorem C2_growth_moves_elements_to_front {T} :
  (∀ (r : RingT.RingT T) x,
     RingT.inv r →
     ∃ r1, (if RingT.Len r =? RingT.maxSize r
            then '(_, r) ← RingT.Next r; Ok r else Ok r) = Ok r1 ∧
           (len (RingT.items r1) = 0 ∨ RingT.Len r1 = len (RingT.items r1) - 1 →
            ∃ rg, RingT.grow r1 = Ok rg ∧
                  len (RingT.items rg) = Z.max 2 (2 * len (RingT.items r1)) ∧
                  RingT.items rg
                  = RingT.content r1
                    ++ replicate (Z.to_nat (len (RingT.items rg) - RingT.Len r1)) None ∧
                  RingT.mask rg = len (RingT.items rg) - 1 ∧
                  RingT.tail rg = 0 ∧ RingT.head rg = RingT.Len r1 ∧
                  RingT.Add r x = RingT.put rg x)) ∧
  (∀ (r : WeightedRingT.WeightedRingT T) w x,
     WeightedRingT.inv r → len (WeightedRingT.items r) ≤ 2 ^ 61 →
     len (WeightedRingT.items r) = 0 ∨
     WeightedRingT.Len r = len (WeightedRingT.items r) - 1 →
     ∃ rg, WeightedRingT.grow r = Ok rg ∧
           len (WeightedRingT.items rg) = Z.max 4 (2 * len (WeightedRingT.items r)) ∧
           WeightedRingT.items rg
           = WeightedRingT.content r
             ++ replicate (Z.to_nat (len (WeightedRingT.items rg) - WeightedRingT.Len r))
                  None ∧
           WeightedRingT.weights rg
           = WeightedRingT.live_weights r
             ++ replicate (Z.to_nat (len (WeightedRingT.items rg) - WeightedRingT.Len r))
                  0 ∧
           WeightedRingT.tail rg = 0 ∧ WeightedRingT.head rg = WeightedRingT.Len r ∧
           WeightedRingT.weight rg = WeightedRingT.weight r ∧
           WeightedRingT.Add r w x
           = (r ← WeightedRingT.evict (Z.to_nat (WeightedRingT.Len rg)) rg w;
              WeightedRingT.put r w x)).
Proof.
  split.
  - intros r x Hinv.
    destruct (RingTFacts.ringt_Add_evict r Hinv)
      as (r1 & E1 & Hwf1 & Hcl1 & HL1 & Hc1 & Hi1 & Hm1).
    destruct Hinv as (Hwf & (HM & HLM & Hsz) & Hcl).
    exists r1. split; [done|]. intros Htrig.
    pose proof (RingTFacts.ringt_Len_range r1 Hwf1) as Hl.
    assert (Hsz1 : len (RingT.items r1) ≤ 2 ^ 61).
    { destruct Htrig as [H0|Hf]; lia. }
    destruct (RingTFacts.ringt_grow_spec r1 Hwf1 Hsz1)
      as (rg & Eg & _ & _ & _ & _ & Hlen & Hitems & Hmask & Ht & Hh & _).
    exists rg. rewrite Hlen. split_and!; try done.
    + rewrite <- Hlen. done.
    + unfold RingT.Add. rewrite E1. obind.
      rewrite (iwrap_small (len (RingT.items r1) - 1)) by (unfold len in *; lia).
      assert (Hb : (len (RingT.items r1) =? 0)
                   || (RingT.Len r1 =? len (RingT.items r1) - 1) = true).
      { destruct Htrig as [H0|Hf]; [rewrite H0|rewrite Hf, Z.eqb_refl, orb_true_r]; done. }
      rewrite Hb, Eg. done.
  - intros r w x Hinv Hsz Htrig. pose proof Hinv as (Hwf & _).
    pose proof (WeightedRingTFacts.wring_Len_range r Hwf) as Hl.
    destruct (WeightedRingTFacts.wring_grow_spec r Hwf Hsz)
      as (rg & Eg & _ & _ & _ & _ & _ & Hlen & Hitems & Hweights & Ht & Hh & _ & Hwt).
    exists rg. rewrite Hlen. split_and!; try done.
    unfold WeightedRingT.Add.
    rewrite (iwrap_small (len (WeightedRingT.items r) - 1)) by (unfold len in *; lia).
    assert (Hb : (len (WeightedRingT.items r) =? 0)
                 || (WeightedRingT.Len r =? len (WeightedRingT.items r) - 1) = true).
    { destruct Htrig as [H0|Hf]; [rewrite H0|rewrite Hf, Z.eqb_refl, orb_true_r]; done. }
    rewrite Hb, Eg. done.
Qed.

Lemma C2_growth_moves_elements_to_front_witness :
  let r := {| RingT.items := [Some 3; None; Some 1; Some 2]; RingT.mask := 3;
              RingT.tail := 2; RingT.head := 1; RingT.maxSize := 5 |} in
  let w := {| WeightedRingT.MaxWeight := 10; WeightedRingT.weight := 6;
              WeightedRingT.items := [Some 3; None; Some 1; Some 2];
              WeightedRingT.weights := [3; 9; 1; 2];
              WeightedRingT.tail := 2; WeightedRingT.head := 1 |} in
  (∃ rg, RingT.grow r = Ok rg ∧
         RingT.items rg
         = [Some 1; Some 2; Some 3; None; None; None; None; None] ∧
         RingT.mask rg = 7 ∧ RingT.tail rg = 0 ∧ RingT.head rg = 3 ∧
         RingT.Add r (Some 4) = RingT.put rg (Some 4)) ∧
  (∃ rg, WeightedRingT.grow w = Ok rg ∧
         WeightedRingT.items rg
         = [Some 1; Some 2; Some 3; None; None; None; None; None] ∧
         WeightedRingT.weights rg = [1; 2; 3; 0; 0; 0; 0; 0] ∧
         WeightedRingT.tail rg = 0 ∧ WeightedRingT.head rg = 3 ∧
         WeightedRingT.weight rg = 6 ∧
         WeightedRingT.Add w 5 (Some 4)
         = (r ← WeightedRingT.evict (Z.to_nat (WeightedRingT.Len rg)) rg 5;
            WeightedRingT.put r 5 (Some 4))).
Proof.
  intros r w. split.
  - destruct (proj1 (C2_growth_moves_elements_to_front (T:=Z)) r (Some 4))
      as (r1 & E1 & Hgrow).
    { split; [|split].
      + right. exists 2. vm_compute. intuition discriminate.
      + vm_compute. intuition discriminate.
      + intros j Hj Hlive. unfold len in Hj. simpl in Hj.
        assert (Hcase : j = 0 ∨ j = 1 ∨ j = 2 ∨ j = 3) by lia.
        destruct Hcase as [-> | [-> | [-> | ->]]]; [|reflexivity| |];
          exfalso; apply Hlive; vm_compute; intuition discriminate. }
    vm_compute in E1. injection E1 as <-.
    destruct Hgrow as (rg & Eg & Hlen & Hitems & Hmask & Ht & Hh & Hadd).
    { right. vm_compute. reflexivity. }
    exists rg. split; [exact Eg|].
    vm_compute in Eg. injection Eg as <-.
    split_and!; [reflexivity..|exact Hadd].
  - destruct (proj2 (C2_growth_moves_elements_to_front (T:=Z)) w 5 (Some 4))
      as (rg & Eg & Hlen & Hitems & Hweights & Ht & Hh & Hwt & Hadd).
    { split; [|split].
      + right. exists 2. vm_compute. intuition discriminate.
      + intros j Hj Hlive. unfold len in Hj. simpl in Hj.
        assert (Hcase : j = 0 ∨ j = 1 ∨ j = 2 ∨ j = 3) by lia.
        destruct Hcase as [-> | [-> | [-> | ->]]]; [|reflexivity| |];
          exfalso; apply Hlive; vm_compute; intuition discriminate.
      + reflexivity. }
    { vm_compute. discriminate. }
    { right. vm_compute. reflexivity. }
    exists rg. split; [exact Eg|].
    vm_compute in Eg. injection Eg as <-.
    split_and!; [reflexivity..|exact Hadd].
Defined.

(** ** C1: write, then read *)

(** C1: [Write(B)] on an empty byte ring, whatever its storage and indices,
    reports [len(B)] written with no error, and a following [Read] into a
    buffer of [len(B)] bytes reports [len(B)] read and fills the buffer with
    exactly [B]; the storage may have grown during either half of the write.
    ([B] has fewer than [2^60] bytes; reading zero bytes from the ring, empty
    again, reports end of data.) *)
Theorem C1_write_read_roundtrip r (B buf : list byte) :
  ByteRing.wf r → ByteRing.Len r = 0 → len B < 2 ^ 60 → len buf = len B →
  ∃ r1 r2,
    ByteRing.Write r B = Ok (len B, None, r1) ∧
    ByteRing.Read r1 buf
    = Ok (len B, (if decide (len B = 0) then Some ByteRing.EOF else None), B, r2) ∧
    ByteRing.Len r2 = 0.
Proof.
  intros Hwf H0 HB Hbuf.
  destruct (ByteRingFacts.bring_Write_spec r B Hwf ltac:(unfold len in *; lia))
    as (r1 & E1 & Hwf1 & Hc1 & HL1).
  destruct (ByteRingFacts.bring_Read_spec r1 buf Hwf1 ltac:(lia))
    as (r2 & E2 & Hwf2 & Hc2 & HL2).
  exists r1, r2. split; [done|].
  assert (Hcr : ByteRing.content r = []).
  { unfold ByteRing.content. rewrite H0. done. }
  rewrite Hcr in Hc1. simpl in Hc1.
  rewrite HL1, H0, Hbuf, Z.add_0_l, Z.min_id, Hc1 in E2.
  rewrite take_ge, drop_ge, app_nil_r in E2 by (unfold len in *; lia).
  rewrite E2. split; [|lia].
  repeat case_decide; try done; lia.
Qed.

Lemma C1_write_read_roundtrip_witness :
  ∃ r1 r2,
    ByteRing.Write (ByteRing.mkRing 60 60 (replicate 64 x00)) (replicate 100 x07)
    = Ok (len (replicate 100 x07), None, r1) ∧
    ByteRing.Read r1 (replicate 100 x00)
    = Ok (len (replicate 100 x07),
          (if decide (len (replicate 100 x07) = 0) then Some ByteRing.EOF else None),
          replicate 100 x07, r2) ∧
    ByteRing.Len r2 = 0.
Proof.
  apply (C1_write_read_roundtrip (ByteRing.mkRing 60 60 (replicate 64 x00))).
  - right. exists 6. vm_compute. intuition discriminate.
  - reflexivity.
  - vm_compute. reflexivity.
  - reflexivity.
Defined.

(** ** C3: growth of a wrapped byte ring *)

(** C3: when [ensureCapacity] grows a byte ring whose head is behind its
    tail, the new storage is the old one, then a copy of its first [head]
    bytes, then zeros; [head] is advanced by the old size and [tail] is kept.
    Afterwards [tail <= head], the unread bytes are the one stretch from
    [tail] up to [head], and they and their number are as before. *)
Theorem C3_growth_unwraps_the_ring r forBytes :
  ByteRing.wf r → 0 ≤ forBytes →
  len (ByteRing.data r) < forBytes + ByteRing.Len r + 1 ≤ 2 ^ 62 →
  ByteRing.head r < ByteRing.tail r →
  ∃ r',
    ByteRing.ensureCapacity r forBytes = Ok r' ∧
    ByteRing.data r'
    = ByteRing.data r ++ take (Z.to_nat (ByteRing.head r)) (ByteRing.data r)
      ++ replicate (Z.to_nat (len (ByteRing.data r') - len (ByteRing.data r)
                              - ByteRing.head r)) x00 ∧
    ByteRing.head r' = ByteRing.head r + len (ByteRing.data r) ∧
    ByteRing.tail r' = ByteRing.tail r ∧
    ByteRing.tail r' ≤ ByteRing.head r' < len (ByteRing.data r') ∧
    ByteRing.content r'
    = take (Z.to_nat (ByteRing.head r' - ByteRing.tail r'))
        (drop (Z.to_nat (ByteRing.tail r')) (ByteRing.data r')) ∧
    ByteRing.content r' = ByteRing.content r ∧
    ByteRing.Len r' = ByteRing.Len r.
Proof.
  intros Hwf Hf Hneed Hwrap.
  destruct (ByteRingFacts.bring_ensureCapacity_spec r forBytes Hwf Hf ltac:(lia))
    as (r' & E & Hwf' & Hc & HL & Ht & Hcap & _).
  destruct (ByteRingFacts.bring_ensureCapacity_grow r forBytes Hwf Hf Hneed)
    as (j & Hj & Hnj & H2 & E').
  rewrite E in E'. rewrite decide_True in E' by done. injection E' as ->.
  pose proof (pow2_bounds j ltac:(lia)) as Hp.
  pose proof (ByteRingFacts.bring_len_bound r Hwf) as Hb.
  set (r' := ByteRing.mkRing _ _ _) in *.
  assert (Hrng : 0 ≤ ByteRing.head r < len (ByteRing.data r)
                 ∧ 0 ≤ ByteRing.tail r < len (ByteRing.data r)).
  { destruct Hwf as [(_ & Ht0 & Hh0)|(k & Hk & Hlen & Ht0 & Hh0)]; lia. }
  assert (Hlen' : len (ByteRing.data r') = 2 ^ j).
  { unfold r', len in *. simpl.
    rewrite !length_app, length_take, length_replicate. lia. }
  exists r'. split_and!; try done.
  - rewrite Hlen'. done.
  - unfold r'. simpl. lia.
  - rewrite Hlen'. unfold r'. simpl. lia.
  - unfold ByteRing.content.
    assert (HL' : ByteRing.Len r' = ByteRing.head r' - ByteRing.tail r').
    { unfold ByteRing.Len. rewrite (ByteRingFacts.bring_mask_spec r' j) by (done || lia).
      rewrite ring_Len_spec by (unfold r'; simpl; lia).
      rewrite decide_True by (unfold r'; simpl; lia). done. }
    rewrite HL'. unfold circ. rewrite drop_app_le by (unfold r', len in *; simpl in *; lia).
    rewrite take_app_le; [done|].
    rewrite length_drop. unfold r', len in *. simpl in *. lia.
Qed.

Lemma C3_growth_unwraps_the_ring_witness :
  let r := ByteRing.mkRing 2 60 (replicate 64 x05) in
  ∃ r',
    ByteRing.ensureCapacity r 100 = Ok r' ∧
    ByteRing.data r'
    = ByteRing.data r ++ take (Z.to_nat (ByteRing.head r)) (ByteRing.data r)
      ++ replicate (Z.to_nat (len (ByteRing.data r') - len (ByteRing.data r)
                              - ByteRing.head r)) x00 ∧
    ByteRing.head r' = ByteRing.head r + len (ByteRing.data r) ∧
    ByteRing.tail r' = ByteRing.tail r ∧
    ByteRing.tail r' ≤ ByteRing.head r' < len (ByteRing.data r') ∧
    ByteRing.content r'
    = take (Z.to_nat (ByteRing.head r' - ByteRing.tail r'))
        (drop (Z.to_nat (ByteRing.tail r')) (ByteRing.data r')) ∧
    ByteRing.content r' = ByteRing.content r ∧
    ByteRing.Len r' = ByteRing.Len r.
Proof.
  intros r. apply (C3_growth_unwraps_the_ring r 100).
  - right. exists 6. vm_compute. intuition discriminate.
  - lia.
  - vm_compute. intuition discriminate.
  - reflexivity.
Defined.

(** ** C4: the capacity asked for *)

(** C4: the code asks for more than the claim says.  [DirectWrite(n)]
    passes [Len() + n] to [ensureCapacity], which adds [Len()] once more:
    with 40 bytes buffered in 64 bytes of storage, a request for 10 more
    bytes needs 51 bytes by the claim and fits; the code computes 91 and grows
    the storage to 128 bytes. *)
Theorem C4_direct_write_counts_len_twice :
  ∃ r1 w r2,
    ByteRing.Write ByteRing.zero (replicate 40 x01) = Ok (40, None, r1) ∧
    len (ByteRing.data r1) = 64 ∧ ByteRing.Len r1 = 40 ∧
    ByteRing.Len r1 + 10 + 1 ≤ len (ByteRing.data r1) ∧
    ByteRing.DirectWrite r1 10 = Ok (w, r2) ∧
    len (ByteRing.data r2) = 128.
Proof.
  eexists _, _, _. split; [vm_compute; reflexivity|].
  split; [vm_compute; reflexivity|].
  split; [vm_compute; reflexivity|].
  split; [vm_compute; intros H; discriminate H|].
  split; vm_compute; reflexivity.
Qed.

(** ** C9: what Read reports *)

(** C9: [Read(buf)] on a byte ring returns the smaller of [len(buf)] and
    the number of unread bytes, having copied that many of the oldest unread
    bytes to the front of [buf] and removed them from the ring.  It returns
    the end-of-data error exactly when the ring was empty, which is exactly
    when it copied nothing and the ring is empty afterwards; in every other
    case, a read into an empty buffer included, the error is [nil]. *)
Theorem C9_read_reports_eof_only_when_empty r (buf : list byte) :
  ByteRing.wf r → len buf ≤ 2 ^ 62 →
  ∃ n err buf' r',
    ByteRing.Read r buf = Ok (n, err, buf', r') ∧
    n = Z.min (len buf) (ByteRing.Len r) ∧
    buf' = take (Z.to_nat n) (ByteRing.content r) ++ drop (Z.to_nat n) buf ∧
    ByteRing.content r' = drop (Z.to_nat n) (ByteRing.content r) ∧
    (err = Some ByteRing.EOF ↔ ByteRing.Len r = 0) ∧
    (err = Some ByteRing.EOF ↔ n = 0 ∧ ByteRing.Len r' = 0) ∧
    (err = Some ByteRing.EOF ∨ err = None) ∧
    (len buf = 0 → 0 < ByteRing.Len r → n = 0 ∧ err = None ∧ 0 < ByteRing.Len r').
Proof.
  intros Hwf Hbuf.
  destruct (ByteRingFacts.bring_Read_spec r buf Hwf Hbuf) as (r' & E & Hwf' & Hc & HL).
  pose proof (ByteRingFacts.bring_Len_range r Hwf) as Hl.
  assert (Hb0 : 0 ≤ len buf) by (unfold len; lia).
  eexists _, _, _, r'. split; [exact E|].
  split_and!; try done.
  - case_decide; split; try done; lia.
  - case_decide; split; try done; try lia; intros [? ?]; lia.
  - case_decide; auto.
  - intros Hz Hpos. rewrite decide_False by lia. split_and!; try done; lia.
Qed.

Lemma C9_read_reports_eof_only_when_empty_witness :
  let r := ByteRing.mkRing 1 62 (replicate 64 x05) in
  let buf := replicate 2 x00 in
  ∃ n err buf' r',
    ByteRing.Read r buf = Ok (n, err, buf', r') ∧
    n = Z.min (len buf) (ByteRing.Len r) ∧
    buf' = take (Z.to_nat n) (ByteRing.content r) ++ drop (Z.to_nat n) buf ∧
    ByteRing.content r' = drop (Z.to_nat n) (ByteRing.content r) ∧
    (err = Some ByteRing.EOF ↔ ByteRing.Len r = 0) ∧
    (err = Some ByteRing.EOF ↔ n = 0 ∧ ByteRing.Len r' = 0) ∧
    (err = Some ByteRing.EOF ∨ err = None) ∧
    (len buf = 0 → 0 < ByteRing.Len r → n = 0 ∧ err = None ∧ 0 < ByteRing.Len r').
Proof.
  intros r buf. apply (C9_read_reports_eof_only_when_empty r buf).
  - right. exists 6. vm_compute. intuition discriminate.
  - vm_compute. discriminate.
Defined.

(** * Further properties of the code *)

(** ** The byte ring *)

(** X1: [ringContent], the helper of the tests that "returns the content of
    the buffer without modifying it", never reaches either of its two
    panics on a well-formed ring (storage absent or of [2^k] bytes, indices
    inside it): it returns [Len()] bytes, which are the unread bytes from
    [tail] on, wrapping at the end of the storage. *)
Theorem X1_ringContent_returns_unread_bytes r :
  ByteRing.wf r →
  ByteRing.ringContent r = Ok (ByteRing.content r) ∧
  len (ByteRing.content r) = ByteRing.Len r ∧
  (ByteRing.head r < ByteRing.tail r →
   ByteRing.content r
   = drop (Z.to_nat (ByteRing.tail r)) (ByteRing.data r)
     ++ take (Z.to_nat (ByteRing.head r)) (ByteRing.data r)) ∧
  (ByteRing.tail r ≤ ByteRing.head r →
   ByteRing.content r
   = take (Z.to_nat (ByteRing.head r - ByteRing.tail r))
       (drop (Z.to_nat (ByteRing.tail r)) (ByteRing.data r))).
Proof.
  intros Hwf. pose proof (ByteRingFacts.bring_Len_range r Hwf) as Hl.
  pose proof (ByteRingFacts.bring_content_length r Hwf) as Hcl.
  split_and!.
  - by apply ByteRingMore.bring_ringContent_spec.
  - unfold len. lia.
  - intros Hlt. destruct Hwf as [(Hi & Ht & Hh)|(k & Hk & Hlen & Ht & Hh)]; [lia|].
    pose proof (ByteRingMore.bring_Len_cases r k Hk Hlen Ht Hh) as HL.
    rewrite decide_False in HL by lia.
    unfold ByteRing.content, circ.
    rewrite drop_app_le by (unfold len in *; lia).
    rewrite take_app_ge by (rewrite length_drop; unfold len in *; lia).
    do 2 f_equal. rewrite length_drop. unfold len in *. lia.
  - intros Hle. destruct Hwf as [(Hi & Ht & Hh)|(k & Hk & Hlen & Ht & Hh)].
    + unfold ByteRing.content, circ. rewrite Hi, Ht, Hh. simpl.
      by destruct (Z.to_nat _).
    + pose proof (ByteRingMore.bring_Len_cases r k Hk Hlen Ht Hh) as HL.
      rewrite decide_True in HL by lia.
      unfold ByteRing.content, circ.
      rewrite drop_app_le by (unfold len in *; lia).
      rewrite take_app_le by (rewrite length_drop; unfold len in *; lia).
      by rewrite HL.
Qed.

Lemma X1_ringContent_returns_unread_bytes_witness :
  let r := ByteRing.mkRing 2 61 (replicate 60 x00 ++ [x01; x02; x03; x04]) in
  ByteRing.ringContent r = Ok (ByteRing.content r) ∧
  len (ByteRing.content r) = ByteRing.Len r ∧
  (ByteRing.head r < ByteRing.tail r →
   ByteRing.content r
   = drop (Z.to_nat (ByteRing.tail r)) (ByteRing.data r)
     ++ take (Z.to_nat (ByteRing.head r)) (ByteRing.data r)) ∧
  (ByteRing.tail r ≤ ByteRing.head r →
   ByteRing.content r
   = take (Z.to_nat (ByteRing.head r - ByteRing.tail r))
       (drop (Z.to_nat (ByteRing.tail r)) (ByteRing.data r))).
Proof.
  apply (X1_ringContent_returns_unread_bytes
           (ByteRing.mkRing 2 61 (replicate 60 x00 ++ [x01; x02; x03; x04]))).
  right. exists 6. vm_compute. intuition discriminate.
Defined.

(** X2: [ensureCapacity(forBytes)] with [needCap = forBytes + Len() + 1]
    at most [2^62] always returns; it keeps the unread bytes, [Len()] and
    [tail], and the old storage stays in place as a prefix of the new one.
    When the storage already has [needCap] bytes nothing changes at all.
    Otherwise the new size is a power of two, at least [DefaultSize] and
    [needCap], and the least such reached by doubling: it is 64 or less
    than twice [needCap].  An unwrapped ring keeps [head]. *)
Theorem X2_ensureCapacity_grows_to_least_power r f :
  ByteRing.wf r → 0 ≤ f → f + ByteRing.Len r + 1 ≤ 2 ^ 62 →
  ∃ r', ByteRing.ensureCapacity r f = Ok r' ∧ ByteRing.wf r' ∧
        ByteRing.content r' = ByteRing.content r ∧
        ByteRing.Len r' = ByteRing.Len r ∧ ByteRing.tail r' = ByteRing.tail r ∧
        ByteRing.data r `prefix_of` ByteRing.data r' ∧
        (ByteRing.tail r ≤ ByteRing.head r → ByteRing.head r' = ByteRing.head r) ∧
        (f + ByteRing.Len r + 1 ≤ len (ByteRing.data r) → r' = r) ∧
        (len (ByteRing.data r) < f + ByteRing.Len r + 1 →
         ∃ j, 6 ≤ j ≤ 62 ∧ len (ByteRing.data r') = 2 ^ j ∧
              f + ByteRing.Len r + 1 ≤ 2 ^ j ∧
              (j = 6 ∨ 2 ^ j < 2 * (f + ByteRing.Len r + 1))).
Proof.
  intros Hwf Hf Hneed.
  destruct (ByteRingFacts.bring_ensureCapacity_spec r f Hwf Hf Hneed)
    as (r' & E & Hwf' & Hc & HL & Ht & _ & _).
  destruct (ByteRingMore.bring_ensureCapacity_prefix r f r' Hwf Hf Hneed E)
    as (Hpre & Hh & _).
  exists r'. split_and!; try done.
  - intros Hk. rewrite ByteRingFacts.bring_ensureCapacity_keep in E by done.
    by injection E.
  - intros Hg. apply (ByteRingMore.bring_ensureCapacity_size r f r'); (done || lia).
Qed.

Lemma X2_ensureCapacity_grows_to_least_power_witness :
  let r := ByteRing.mkRing 20 10 (replicate 64 x07) in
  ∃ r', ByteRing.ensureCapacity r 100 = Ok r' ∧ ByteRing.wf r' ∧
        ByteRing.content r' = ByteRing.content r ∧
        ByteRing.Len r' = ByteRing.Len r ∧ ByteRing.tail r' = ByteRing.tail r ∧
        ByteRing.data r `prefix_of` ByteRing.data r' ∧
        (ByteRing.tail r ≤ ByteRing.head r → ByteRing.head r' = ByteRing.head r) ∧
        (100 + ByteRing.Len r + 1 ≤ len (ByteRing.data r) → r' = r) ∧
        (len (ByteRing.data r) < 100 + ByteRing.Len r + 1 →
         ∃ j, 6 ≤ j ≤ 62 ∧ len (ByteRing.data r') = 2 ^ j ∧
              100 + ByteRing.Len r + 1 ≤ 2 ^ j ∧
              (j = 6 ∨ 2 ^ j < 2 * (100 + ByteRing.Len r + 1))).
Proof.
  apply (X2_ensureCapacity_grows_to_least_power
           (ByteRing.mkRing 20 10 (replicate 64 x07)) 100).
  - right. exists 6. vm_compute. intuition discriminate.
  - lia.
  - vm_compute. discriminate.
Defined.

(** X3: [DirectWrite(numBytes)], for [numBytes >= 0] and
    [2*Len() + numBytes + 1 <= 2^62], returns a slice of the storage that
    starts at the head the ring has once grown and holds [numBytes] bytes,
    or fewer when the end of the storage comes first: its length is
    [min(numBytes, len(data) - start)].  Afterwards [Len()] is larger by
    the length of the slice, [head] points to the end of the slice (0 when
    that is the end of the storage), [tail] is unchanged, and the unread
    bytes are the former ones followed by the bytes of the slice. *)
Theorem X3_direct_write_hands_out_the_next_bytes r n :
  ByteRing.wf r → 0 ≤ n → 2 * ByteRing.Len r + n + 1 ≤ 2 ^ 62 →
  ∃ w r1, ByteRing.DirectWrite r n = Ok (w, r1) ∧ ByteRing.wf r1 ∧
          (fst w + snd w ≤ length (ByteRing.data r1))%nat ∧
          wlen w = Z.min n (len (ByteRing.data r1) - Z.of_nat (fst w)) ∧
          ByteRing.head r1
          = (Z.of_nat (fst w) + wlen w) mod len (ByteRing.data r1) ∧
          ByteRing.tail r1 = ByteRing.tail r ∧
          ByteRing.Len r1 = ByteRing.Len r + wlen w ∧
          ByteRing.content r1 = ByteRing.content r ++ view (ByteRing.data r1) w ∧
          ByteRing.data r `prefix_of` ByteRing.data r1.
Proof.
  intros Hwf Hn Hneed.
  destruct (ByteRingMore.bring_DirectWrite_exact r n Hwf Hn Hneed)
    as (re & w & r1 & Ee & E & Hwf1 & Hd & Ht & Hfst & Hw & Hh & HL & Hc).
  destruct (ByteRingMore.bring_DirectWrite_storage r n w r1 Hwf Hn Hneed E)
    as (_ & Hin & _ & _ & Hpre & _).
  assert (0 ≤ ByteRing.head re).
  { destruct (ByteRingFacts.bring_ensureCapacity_spec r (ByteRing.Len r + n) Hwf
                ltac:(pose proof (ByteRingFacts.bring_Len_range r Hwf); lia) ltac:(lia))
      as (re' & Ee' & Hwfe & _).
    rewrite Ee in Ee'. injection Ee' as <-.
    destruct Hwfe as [(_ & _ & ->)|(k & _ & _ & _ & ?)]; lia. }
  exists w, r1. rewrite Hd, Hfst, Z2Nat.id in * by done.
  split_and!; done.
Qed.

Lemma X3_direct_write_hands_out_the_next_bytes_witness :
  let r := ByteRing.mkRing 59 59 (replicate 64 x00) in
  ∃ w r1, ByteRing.DirectWrite r 9 = Ok (w, r1) ∧ ByteRing.wf r1 ∧
          (fst w + snd w ≤ length (ByteRing.data r1))%nat ∧
          wlen w = Z.min 9 (len (ByteRing.data r1) - Z.of_nat (fst w)) ∧
          ByteRing.head r1
          = (Z.of_nat (fst w) + wlen w) mod len (ByteRing.data r1) ∧
          ByteRing.tail r1 = ByteRing.tail r ∧
          ByteRing.Len r1 = ByteRing.Len r + wlen w ∧
          ByteRing.content r1 = ByteRing.content r ++ view (ByteRing.data r1) w ∧
          ByteRing.data r `prefix_of` ByteRing.data r1.
Proof.
  apply (X3_direct_write_hands_out_the_next_bytes
           (ByteRing.mkRing 59 59 (replicate 64 x00)) 9).
  - right. exists 6. vm_compute. intuition discriminate.
  - lia.
  - vm_compute. discriminate.
Defined.

(** X4: "you'll need to call this twice": when [DirectWrite(numBytes)]
    returns fewer than [numBytes] bytes, [head] is back at 0 and a second
    [DirectWrite] for the remainder returns a slice of exactly the
    remaining length, so that two calls always hand out [numBytes] bytes
    and leave [Len()] larger by [numBytes]. *)
Theorem X4_direct_write_twice_suffices r n w1 r1 :
  ByteRing.wf r → 0 ≤ n → 2 * (ByteRing.Len r + n) + 1 ≤ 2 ^ 62 →
  ByteRing.DirectWrite r n = Ok (w1, r1) → wlen w1 < n →
  ByteRing.head r1 = 0 ∧
  ∃ w2 r2, ByteRing.DirectWrite r1 (n - wlen w1) = Ok (w2, r2) ∧
           wlen w2 = n - wlen w1 ∧
           ByteRing.Len r2 = ByteRing.Len r + n ∧ ByteRing.wf r2.
Proof.
  intros Hwf Hn Hneed E1 Hshort.
  pose proof (ByteRingFacts.bring_Len_range r Hwf) as Hl.
  destruct (ByteRingMore.bring_DirectWrite_storage r n w1 r1 Hwf Hn ltac:(lia) E1)
    as (Hwf1 & Hin1 & Hw1 & HL1 & _ & _ & Hcap1 & Hh1).
  specialize (Hh1 Hshort). split; [done|].
  destruct (ByteRingFacts.bring_DirectWrite_spec r1 (n - wlen w1)
              (replicate (Z.to_nat (n - wlen w1)) x00) Hwf1 ltac:(lia) ltac:(lia)
              ltac:(unfold len; rewrite length_replicate; lia))
    as (w2 & r2 & E2 & _ & _ & _ & _ & _ & _ & Hfull).
  destruct (ByteRingMore.bring_DirectWrite_storage r1 (n - wlen w1) w2 r2 Hwf1
              ltac:(lia) ltac:(lia) E2)
    as (Hwf2 & _ & _ & HL2 & _).
  specialize (Hfull ltac:(lia)).
  exists w2, r2. split_and!; try done. lia.
Qed.

Lemma X4_direct_write_twice_suffices_witness :
  ByteRing.head (ByteRing.mkRing 0 59 (replicate 64 x00)) = 0 ∧
  ∃ w2 r2, ByteRing.DirectWrite (ByteRing.mkRing 0 59 (replicate 64 x00))
             (9 - wlen (59%nat, 5%nat)) = Ok (w2, r2) ∧
           wlen w2 = 9 - wlen (59%nat, 5%nat) ∧
           ByteRing.Len r2 = ByteRing.Len (ByteRing.mkRing 59 59 (replicate 64 x00)) + 9 ∧
           ByteRing.wf r2.
Proof.
  apply (X4_direct_write_twice_suffices
           (ByteRing.mkRing 59 59 (replicate 64 x00)) 9 (59%nat, 5%nat)
           (ByteRing.mkRing 0 59 (replicate 64 x00))).
  - right. exists 6. vm_compute. intuition discriminate.
  - lia.
  - vm_compute. discriminate.
  - vm_compute. reflexivity.
  - vm_compute. reflexivity.
Defined.

(** X5: [DirectRead(numBytes)] never panics on a well-formed ring.  It
    returns the oldest unread bytes as a slice of the storage that starts
    at [tail]; the slice holds [numBytes] bytes, or fewer when the unread
    bytes run out or the end of the storage comes first, and is [nil] (the
    ring untouched) when [numBytes <= 0] or nothing is unread.  The bytes
    returned are no longer unread; the storage and [head] are untouched. *)
Theorem X5_direct_read_returns_the_oldest_bytes r m :
  ByteRing.wf r →
  ∃ w r1, ByteRing.DirectRead r m = Ok (w, r1) ∧ ByteRing.wf r1 ∧
          ByteRing.data r1 = ByteRing.data r ∧ ByteRing.head r1 = ByteRing.head r ∧
          wlen w = Z.max 0 (Z.min m (Z.min (ByteRing.Len r)
                                        (len (ByteRing.data r) - ByteRing.tail r))) ∧
          view (ByteRing.data r) w = take (snd w) (ByteRing.content r) ∧
          ByteRing.content r1 = drop (snd w) (ByteRing.content r) ∧
          ByteRing.Len r1 = ByteRing.Len r - wlen w ∧
          (0 < wlen w → fst w = Z.to_nat (ByteRing.tail r)) ∧
          (wlen w = 0 → w = (0%nat, 0%nat) ∧ r1 = r).
Proof.
  intros Hwf. pose proof (ByteRingFacts.bring_Len_range r Hwf) as Hl.
  pose proof (ByteRingFacts.bring_len_bound r Hwf) as Hb.
  set (m' := Z.max 0 (Z.min m (ByteRing.Len r))).
  destruct (ByteRingFacts.bring_DirectRead_spec r m' Hwf ltac:(lia))
    as (w & r1 & E & Hwf1 & Hd & Hc & Hw & Hv & HL & _).
  unfold m' in E. rewrite <- ByteRingMore.bring_DirectRead_clip in E by done.
  destruct (ByteRingMore.bring_DirectRead_storage r m w r1 E) as (_ & Hh).
  assert (Htail : 0 ≤ len (ByteRing.data r) - ByteRing.tail r).
  { destruct Hwf as [(Hi & Ht & _)|(k & _ & Hlen & Ht & _)]; [rewrite Hi, Ht; done|lia]. }
  exists w, r1. split_and!; try done.
  - lia.
  - rewrite Hc, <- Hv, take_app_length. done.
  - rewrite Hc at 1. rewrite <- Hv, drop_app_length. done.
  - intros Hpos. revert E. unfold ByteRing.DirectRead.
    destruct (_ <=? 0); [intros [= <- _]; unfold wlen in Hpos; simpl in Hpos; lia|].
    unfold slice. case_bool_decide; [|done]. obind. intros [= <- _]. done.
  - intros H0. rewrite ByteRingMore.bring_DirectRead_nil in E by (done || lia).
    by injection E as <- <-.
Qed.

Lemma X5_direct_read_returns_the_oldest_bytes_witness :
  let r := ByteRing.mkRing 2 61 (replicate 60 x00 ++ [x01; x02; x03; x04]) in
  ∃ w r1, ByteRing.DirectRead r 4 = Ok (w, r1) ∧ ByteRing.wf r1 ∧
          ByteRing.data r1 = ByteRing.data r ∧ ByteRing.head r1 = ByteRing.head r ∧
          wlen w = Z.max 0 (Z.min 4 (Z.min (ByteRing.Len r)
                                        (len (ByteRing.data r) - ByteRing.tail r))) ∧
          view (ByteRing.data r) w = take (snd w) (ByteRing.content r) ∧
          ByteRing.content r1 = drop (snd w) (ByteRing.content r) ∧
          ByteRing.Len r1 = ByteRing.Len r - wlen w ∧
          (0 < wlen w → fst w = Z.to_nat (ByteRing.tail r)) ∧
          (wlen w = 0 → w = (0%nat, 0%nat) ∧ r1 = r).
Proof.
  apply (X5_direct_read_returns_the_oldest_bytes
           (ByteRing.mkRing 2 61 (replicate 60 x00 ++ [x01; x02; x03; x04])) 4).
  right. exists 6. vm_compute. intuition discriminate.
Defined.

(** X6: [Write(b)] on any well-formed ring, empty or not, reports
    [len(b)] written with no error and appends [b] to the unread bytes:
    what was unread before is still unread, in the same order, in front of
    [b], as [ringContent] of the tests sees it.  The storage never shrinks.
    ([2*(Len() + len(b)) + 1] is at most [2^62].) *)
Theorem X6_write_appends_to_the_unread_bytes r b :
  ByteRing.wf r → 2 * (ByteRing.Len r + len b) + 1 ≤ 2 ^ 62 →
  ∃ r', ByteRing.Write r b = Ok (len b, None, r') ∧ ByteRing.wf r' ∧
        ByteRing.ringContent r' = Ok (ByteRing.content r ++ b) ∧
        ByteRing.content r' = ByteRing.content r ++ b ∧
        ByteRing.Len r' = ByteRing.Len r + len b ∧
        len (ByteRing.data r) ≤ len (ByteRing.data r').
Proof.
  intros Hwf Hneed.
  destruct (ByteRingFacts.bring_Write_spec r b Hwf Hneed) as (r' & E & Hwf' & Hc & HL).
  destruct (ByteRingMore.bring_Write_storage r b _ _ r' Hwf Hneed E) as (Hm & _).
  exists r'. split_and!; try done.
  rewrite <- Hc. by apply ByteRingMore.bring_ringContent_spec.
Qed.

Lemma X6_write_appends_to_the_unread_bytes_witness :
  let r := ByteRing.mkRing 2 61 (replicate 60 x00 ++ [x01; x02; x03; x04]) in
  let b := replicate 70 x09 in
  ∃ r', ByteRing.Write r b = Ok (len b, None, r') ∧ ByteRing.wf r' ∧
        ByteRing.ringContent r' = Ok (ByteRing.content r ++ b) ∧
        ByteRing.content r' = ByteRing.content r ++ b ∧
        ByteRing.Len r' = ByteRing.Len r + len b ∧
        len (ByteRing.data r) ≤ len (ByteRing.data r').
Proof.
  apply (X6_write_appends_to_the_unread_bytes
           (ByteRing.mkRing 2 61 (replicate 60 x00 ++ [x01; x02; x03; x04]))
           (replicate 70 x09)).
  - right. exists 6. vm_compute. intuition discriminate.
  - vm_compute. discriminate.
Defined.

(** X7: starting from the zero [Ring], every sequence of [Write] calls
    and of [Read] calls into fresh buffers returns, and each call returns
    what the same call returns on an unbounded first-in first-out queue of
    bytes: [Write(b)] returns [(len(b), nil)]; [Read] into [n] bytes
    returns the count [min(n, queued)], [io.EOF] exactly when nothing is
    queued, and the oldest bytes at the front of the buffer.  At the end the
    unread bytes are the queue; the storage is absent or a power of two of
    at least 64 bytes, strictly larger than [Len()].  (The bytes written
    and the sizes of the read buffers add up to less than [2^60].) *)
Theorem X7_stream_is_a_queue_of_bytes ops :
  ByteRing.traffic ops < 2 ^ 60 →
  ∃ outs r, ByteRing.srun ops ByteRing.zero = Ok (outs, r) ∧
            ByteRing.qrun ops [] = (outs, ByteRing.content r) ∧
            ByteRing.ringContent r = Ok (ByteRing.content r) ∧
            ByteRing.wf r ∧ ByteRing.sized r ∧
            (ByteRing.data r = [] ∨ ByteRing.Len r < len (ByteRing.data r)).
Proof.
  intros Hb.
  assert (Hwf0 : ByteRing.wf ByteRing.zero) by (by left).
  destruct (ByteRingMore.bring_srun_spec ops ByteRing.zero Hwf0)
    as (outs & r & E & Hq & Hwf & _ & Hs).
  { change (ByteRing.Len ByteRing.zero) with 0. lia. }
  exists outs, r. split_and!; try done.
  - by apply ByteRingMore.bring_ringContent_spec.
  - apply Hs. by left.
  - pose proof (ByteRingFacts.bring_Len_range r Hwf) as Hl.
    destruct Hwf as [(Hi & _)|(k & Hk & Hlen & _)]; [by left|right].
    pose proof (pow2_bounds k Hk). lia.
Qed.

Lemma X7_stream_is_a_queue_of_bytes_witness :
  let ops := [ByteRing.SWrite (replicate 60 x01); ByteRing.SRead 58;
              ByteRing.SWrite (replicate 70 x02); ByteRing.SRead 100;
              ByteRing.SRead 3] in
  ∃ outs r, ByteRing.srun ops ByteRing.zero = Ok (outs, r) ∧
            ByteRing.qrun ops [] = (outs, ByteRing.content r) ∧
            ByteRing.ringContent r = Ok (ByteRing.content r) ∧
            ByteRing.wf r ∧ ByteRing.sized r ∧
            (ByteRing.data r = [] ∨ ByteRing.Len r < len (ByteRing.data r)).
Proof.
  apply (X7_stream_is_a_queue_of_bytes
           [ByteRing.SWrite (replicate 60 x01); ByteRing.SRead 58;
            ByteRing.SWrite (replicate 70 x02); ByteRing.SRead 100;
            ByteRing.SRead 3]).
  vm_compute. reflexivity.
Defined.

(** X14: [DirectWrite] with a negative [numBytes] never returns a slice:
    if it gets as far as the slice expression, that panics.  On a
    well-formed ring with [-2^63 < 2*Len() + numBytes + 1 < 0], which
    includes [DirectWrite(-2)] on the zero [Ring], it does not get that
    far: the capacity asked of [ensureCapacity] wraps around to a [uint]
    above [2^63], the doubling of the size passes through [2^63] to 0,
    and the loop [for cap < needCap] never ends, whatever the number of
    iterations allowed. *)
Theorem X14_direct_write_of_negative_count r n :
  is_int n → n < 0 →
  (∀ w r1, ByteRing.DirectWrite r n ≠ Ok (w, r1)) ∧
  (ByteRing.wf r → - 2 ^ 63 < 2 * ByteRing.Len r + n + 1 < 0 →
   ByteRing.DirectWrite r n = Diverge ∧
   ∀ fuel, ByteRing.double_until fuel
             (if len (ByteRing.data r) <? ByteRing.DefaultSize
              then ByteRing.DefaultSize else len (ByteRing.data r))
             (2 ^ 64 + (2 * ByteRing.Len r + n + 1)) = Diverge).
Proof.
  intros Hint Hn. split.
  { intros w r1. by apply ByteRingMore.bring_DirectWrite_negative. }
  intros Hwf Hrange. pose proof (ByteRingFacts.bring_Len_range r Hwf) as Hl.
  pose proof (ByteRingFacts.bring_len_bound r Hwf) as Hb.
  unfold is_int in Hint.
  assert (Hneed : uwrap (uwrap (uwrap (iwrap (ByteRing.Len r + n))
                                + uwrap (ByteRing.Len r)) + 1)
                  = 2 ^ 64 + (2 * ByteRing.Len r + n + 1)).
  { rewrite (iwrap_small (ByteRing.Len r + n)) by lia.
    rewrite (uwrap_small (ByteRing.Len r)) by lia.
    assert (E1 : uwrap (ByteRing.Len r + n) = 2 ^ 64 + (ByteRing.Len r + n)).
    { unfold uwrap. symmetry. apply (Z.mod_unique _ _ (-1)); lia. }
    rewrite E1.
    assert (E2 : uwrap (2 ^ 64 + (ByteRing.Len r + n) + ByteRing.Len r)
                 = 2 ^ 64 + (2 * ByteRing.Len r + n)).
    { unfold uwrap. symmetry. apply (Z.mod_unique _ _ 0); lia. }
    rewrite E2, uwrap_small by lia. lia. }
  split.
  - unfold ByteRing.DirectWrite.
    rewrite ByteRingMore.bring_ensureCapacity_hangs; [done..|]. rewrite Hneed. lia.
  - intros fuel. apply ByteRingMore.bring_double_until_never; [lia|]. right.
    unfold ByteRing.DefaultSize. destruct (Z.ltb_spec (len (ByteRing.data r)) 64).
    + exists 6. split; [lia|done].
    + destruct Hwf as [(Hi & _)|(k & Hk & Hlen & _)].
      * rewrite Hi in *. unfold len in *. simpl in *. lia.
      * exists k. split; [lia|done].
Qed.

Lemma X14_direct_write_of_negative_count_witness :
  (∀ w r1, ByteRing.DirectWrite ByteRing.zero (-2) ≠ Ok (w, r1)) ∧
  (ByteRing.wf ByteRing.zero →
   - 2 ^ 63 < 2 * ByteRing.Len ByteRing.zero + -2 + 1 < 0 →
   ByteRing.DirectWrite ByteRing.zero (-2) = Diverge ∧
   ∀ fuel, ByteRing.double_until fuel
             (if len (ByteRing.data ByteRing.zero) <? ByteRing.DefaultSize
              then ByteRing.DefaultSize else len (ByteRing.data ByteRing.zero))
             (2 ^ 64 + (2 * ByteRing.Len ByteRing.zero + -2 + 1)) = Diverge).
Proof.
  apply (X14_direct_write_of_negative_count ByteRing.zero (-2)).
  - unfold is_int. lia.
  - lia.
Defined.

(** X15: "You need to perform a subsequent read to read the remaining
    portion": [DirectRead(numBytes)] followed by [DirectRead] for what
    the first call left of [numBytes] returns, in the two slices
    together, the [min(numBytes, Len())] oldest unread bytes in order
    (nothing when [numBytes <= 0]); these bytes are then no longer
    unread. *)
Theorem X15_direct_read_twice_suffices r m :
  ByteRing.wf r →
  ∃ w1 r1 w2 r2,
    ByteRing.DirectRead r m = Ok (w1, r1) ∧
    ByteRing.DirectRead r1 (m - wlen w1) = Ok (w2, r2) ∧
    wlen w1 + wlen w2 = Z.max 0 (Z.min m (ByteRing.Len r)) ∧
    view (ByteRing.data r) w1 ++ view (ByteRing.data r) w2
    = take (Z.to_nat (Z.min m (ByteRing.Len r))) (ByteRing.content r) ∧
    ByteRing.content r2
    = drop (Z.to_nat (Z.min m (ByteRing.Len r))) (ByteRing.content r) ∧
    ByteRing.Len r2 = ByteRing.Len r - Z.max 0 (Z.min m (ByteRing.Len r)) ∧
    ByteRing.data r2 = ByteRing.data r.
Proof.
  intros Hwf. pose proof (ByteRingFacts.bring_Len_range r Hwf) as Hl.
  pose proof (ByteRingFacts.bring_len_bound r Hwf) as Hb.
  set (m1 := Z.max 0 (Z.min m (ByteRing.Len r))).
  destruct (ByteRingFacts.bring_DirectRead_spec r m1 Hwf ltac:(lia))
    as (w1 & r1 & E1 & Hwf1 & Hd1 & Hc1 & Hw1 & Hv1 & HL1 & Ht1).
  unfold m1 in E1. rewrite <- ByteRingMore.bring_DirectRead_clip in E1 by done.
  pose proof (ByteRingFacts.bring_Len_range r1 Hwf1) as Hl1.
  pose proof (ByteRingFacts.bring_len_bound r1 Hwf1) as Hb1.
  set (m2 := Z.max 0 (Z.min (m - wlen w1) (ByteRing.Len r1))).
  destruct (ByteRingFacts.bring_DirectRead_spec r1 m2 Hwf1 ltac:(lia))
    as (w2 & r2 & E2 & Hwf2 & Hd2 & Hc2 & Hw2 & Hv2 & HL2 & _).
  unfold m2 in E2. rewrite <- ByteRingMore.bring_DirectRead_clip in E2 by done.
  assert (Hw1p : 0 ≤ wlen w1) by (unfold wlen; lia).
  assert (Htail1 : 0 ≤ len (ByteRing.data r1) - ByteRing.tail r1).
  { destruct Hwf1 as [(Hi & Ht & _)|(k & _ & Hlen & Ht & _)];
      [rewrite Hi, Ht; done|lia]. }
  assert (Htot : wlen w1 + wlen w2 = m1).
  { destruct (decide (wlen w1 < Z.min m1 (ByteRing.Len r))) as [Hlt|Hge].
    - rewrite (Ht1 Hlt), Hd1 in Hw2. lia.
    - lia. }
  assert (Hn : Z.to_nat (Z.min m (ByteRing.Len r)) = (snd w1 + snd w2)%nat).
  { unfold wlen in *. lia. }
  rewrite Hd1 in *. exists w1, r1, w2, r2. rewrite Hn.
  split_and!; try done; try lia.
  - rewrite Hc1, Hc2, app_assoc.
    rewrite take_app_length'; [done|]. rewrite length_app. lia.
  - rewrite Hc1 at 1. rewrite Hc2, app_assoc.
    rewrite drop_app_length'; [done|]. rewrite length_app. lia.
Qed.

Lemma X15_direct_read_twice_suffices_witness :
  let r := ByteRing.mkRing 2 61 (replicate 60 x00 ++ [x01; x02; x03; x04]) in
  ∃ w1 r1 w2 r2,
    ByteRing.DirectRead r 4 = Ok (w1, r1) ∧
    ByteRing.DirectRead r1 (4 - wlen w1) = Ok (w2, r2) ∧
    wlen w1 + wlen w2 = Z.max 0 (Z.min 4 (ByteRing.Len r)) ∧
    view (ByteRing.data r) w1 ++ view (ByteRing.data r) w2
    = take (Z.to_nat (Z.min 4 (ByteRing.Len r))) (ByteRing.content r) ∧
    ByteRing.content r2
    = drop (Z.to_nat (Z.min 4 (ByteRing.Len r))) (ByteRing.content r) ∧
    ByteRing.Len r2 = ByteRing.Len r - Z.max 0 (Z.min 4 (ByteRing.Len r)) ∧
    ByteRing.data r2 = ByteRing.data r.
Proof.
  apply (X15_direct_read_twice_suffices
           (ByteRing.mkRing 2 61 (replicate 60 x00 ++ [x01; x02; x03; x04])) 4).
  right. exists 6. vm_compute. intuition discriminate.
Defined.

(** ** RingP *)

(** X8: [NewRingP(sizePlus1)] panics for every [int] that is not a power
    of two from 2 to [2^62], negative ones and 0 and 1 included.  When it
    returns a ring, [sizePlus1] is such a power of two and the ring has
    [sizePlus1] slots of the zero value, capacity [sizePlus1 - 1], no
    element and is not full. *)
Theorem X8_NewRingP_takes_powers_of_two_only {T} (zeroT : T) sizePlus1 :
  is_int sizePlus1 →
  ((¬ ∃ k, 1 ≤ k ≤ 62 ∧ sizePlus1 = 2 ^ k) →
   RingP.NewRingP zeroT sizePlus1 = Panic) ∧
  (∀ r, RingP.NewRingP zeroT sizePlus1 = Ok r →
        (∃ k, 1 ≤ k ≤ 62 ∧ sizePlus1 = 2 ^ k) ∧
        RingP.items r = replicate (Z.to_nat sizePlus1) zeroT ∧
        RingP.Capacity r = sizePlus1 - 1 ∧ RingP.Len r = 0 ∧
        RingP.IsFull r = false).
Proof.
  intros Hint. split; [by apply RingPMore.ringp_NewRingP_panic|].
  intros r Hnew.
  assert (Hpow : ∃ k, 1 ≤ k ≤ 62 ∧ sizePlus1 = 2 ^ k).
  { revert Hnew. unfold RingP.NewRingP. case_bool_decide as Hc; [done|]. intros _.
    apply land_pred_pow2; [unfold is_int in Hint; lia|].
    destruct (decide (Z.land sizePlus1 (iwrap (sizePlus1 - 1)) = 0)); [done|].
    exfalso. apply Hc. by left. }
  split; [done|]. destruct Hpow as (k & Hk & ->).
  rewrite RingPMore.ringp_NewRingP_ok in Hnew by done. injection Hnew as <-.
  pose proof (pow2_bounds k ltac:(lia)) as Hp.
  assert (2 ^ 1 ≤ 2 ^ k) by (apply Z.pow_le_mono_r; lia).
  assert (HL : RingP.Len (RingP.mkRingP (replicate (Z.to_nat (2 ^ k)) zeroT)
                            (2 ^ k - 1) 0 0) = 0).
  { unfold RingP.Len. cbn [RingP.head RingP.tail RingP.mask].
    rewrite ring_Len_spec by lia. by rewrite decide_True. }
  unfold RingP.IsFull, RingP.Capacity. rewrite HL.
  cbn [RingP.items RingP.mask]. rewrite iwrap_small by lia.
  split_and!; try done. apply Z.eqb_neq. lia.
Qed.

Lemma X8_NewRingP_takes_powers_of_two_only_witness :
  RingP.NewRingP 0%nat 6 = Panic ∧
  RingP.NewRingP 0%nat (-8) = Panic ∧
  ((∃ k, 1 ≤ k ≤ 62 ∧ 8 = 2 ^ k) ∧
   RingP.items (RingP.mkRingP (replicate 8 0%nat) 7 0 0)
   = replicate (Z.to_nat 8) 0%nat ∧
   RingP.Capacity (RingP.mkRingP (replicate 8 0%nat) 7 0 0) = 8 - 1 ∧
   RingP.Len (RingP.mkRingP (replicate 8 0%nat) 7 0 0) = 0 ∧
   RingP.IsFull (RingP.mkRingP (replicate 8 0%nat) 7 0 0) = false).
Proof.
  split; [|split].
  - apply (proj1 (X8_NewRingP_takes_powers_of_two_only 0%nat 6 ltac:(unfold is_int; lia))).
    intros (k & Hk & E).
    destruct (decide (k ≤ 2)) as [Hle|Hgt].
    + assert (Hcase : k = 1 ∨ k = 2) by lia. destruct Hcase as [-> | ->]; discriminate E.
    + assert (2 ^ 3 ≤ 2 ^ k) by (apply Z.pow_le_mono_r; lia). lia.
  - apply (proj1 (X8_NewRingP_takes_powers_of_two_only 0%nat (-8) ltac:(unfold is_int; lia))).
    intros (k & Hk & E). pose proof (pow2_bounds k ltac:(lia)). lia.
  - apply (proj2 (X8_NewRingP_takes_powers_of_two_only 0%nat 8 ltac:(unfold is_int; lia))). reflexivity.
Defined.

(** X9: a ring made by [NewRingP(sizePlus1)] behaves, under every
    sequence of [Add] and [Next], as the queue that TestRingP keeps beside
    it: [Add] first drops the oldest element when [Capacity()] elements
    are stored, [Next] drops the oldest.  No call panics; [Len()] is the
    length of that queue and [Peek(i)] its [i]-th element; [IsFull()]
    holds exactly when the queue has [sizePlus1 - 1] elements; [Next()]
    returns the oldest element and removes it, and returns the zero value
    from an empty ring; [Peek(0)] returns what [Next()] would return and
    leaves the ring as it is. *)
Theorem X9_ringp_is_the_queue_of_its_test {T} (zeroT : T) sizePlus1 r0
    (ops : list (op T)) :
  is_int sizePlus1 → RingP.NewRingP zeroT sizePlus1 = Ok r0 →
  ∃ r, RingP.run zeroT ops r0 = Ok r ∧
       RingP.Capacity r = sizePlus1 - 1 ∧
       RingP.Len r = len (survivors (Z.to_nat (sizePlus1 - 1)) ops) ∧
       RingP.peeks zeroT r
       = (λ x, Ok (x, r)) <$> survivors (Z.to_nat (sizePlus1 - 1)) ops ∧
       RingP.IsFull r
       = bool_decide (len (survivors (Z.to_nat (sizePlus1 - 1)) ops) = sizePlus1 - 1) ∧
       RingP.Peek zeroT r 0
       = Ok (hd zeroT (survivors (Z.to_nat (sizePlus1 - 1)) ops), r) ∧
       ∃ r', RingP.Next zeroT r
             = Ok (hd zeroT (survivors (Z.to_nat (sizePlus1 - 1)) ops), r') ∧
             RingP.run zeroT (ops ++ [OpNext]) r0 = Ok r' ∧
             RingP.peeks zeroT r'
             = (λ x, Ok (x, r'))
               <$> drop 1 (survivors (Z.to_nat (sizePlus1 - 1)) ops).
Proof.
  intros Hint Hnew.
  destruct (RingPFacts.ringp_NewRingP_spec zeroT sizePlus1 r0 Hint Hnew)
    as (Hwf0 & Hc0 & HL0 & Hi0 & Hcap0).
  destruct (RingPMore.ringp_run_model zeroT ops r0 Hwf0) as (r & E & Hwf & Hi & Hm & Hc).
  rewrite Hc0, Hcap0 in Hc. fold (survivors (Z.to_nat (sizePlus1 - 1)) ops) in Hc.
  pose proof (RingPFacts.ringp_Len_range r Hwf) as Hl.
  pose proof (RingPFacts.ringp_content_length r Hwf) as Hcl.
  assert (Hcap : RingP.Capacity r = sizePlus1 - 1).
  { unfold RingP.Capacity in *. by rewrite Hm. }
  destruct (RingPFacts.ringp_Next_spec zeroT r Hwf) as (r' & E' & Hwf' & Hc' & _).
  exists r. rewrite <- Hc. split_and!; try done.
  - unfold len. lia.
  - by apply RingPFacts.ringp_peeks_spec.
  - rewrite RingPMore.ringp_IsFull_spec by done. rewrite Hcap.
    unfold len. repeat case_bool_decide; (done || lia).
  - destruct (RingP.content r) as [|x q] eqn:Hq.
    + apply RingPFacts.ringp_Peek_out; [done|lia|]. simpl in Hcl. lia.
    + apply RingPFacts.ringp_Peek_in; [done| |by rewrite Hq]. simpl in Hcl. lia.
  - exists r'. split_and!; try done.
    + clear -E E'. revert r0 E. induction ops as [|o ops IH]; intros r0 E; simpl in *.
      * injection E as ->. by rewrite E'.
      * destruct (RingP.step zeroT r0 o); [|done..]. by apply IH.
    + rewrite <- Hc'. by apply RingPFacts.ringp_peeks_spec.
Qed.

Lemma X9_ringp_is_the_queue_of_its_test_witness :
  let ops := [OpAdd 1%nat; OpAdd 2%nat; OpNext; OpAdd 3%nat; OpAdd 4%nat; OpAdd 5%nat] in
  let r0 := RingP.mkRingP (replicate 4 0%nat) 3 0 0 in
  ∃ r, RingP.run 0%nat ops r0 = Ok r ∧
       RingP.Capacity r = 4 - 1 ∧
       RingP.Len r = len (survivors (Z.to_nat (4 - 1)) ops) ∧
       RingP.peeks 0%nat r
       = (λ x, Ok (x, r)) <$> survivors (Z.to_nat (4 - 1)) ops ∧
       RingP.IsFull r
       = bool_decide (len (survivors (Z.to_nat (4 - 1)) ops) = 4 - 1) ∧
       RingP.Peek 0%nat r 0
       = Ok (hd 0%nat (survivors (Z.to_nat (4 - 1)) ops), r) ∧
       ∃ r', RingP.Next 0%nat r
             = Ok (hd 0%nat (survivors (Z.to_nat (4 - 1)) ops), r') ∧
             RingP.run 0%nat (ops ++ [OpNext]) r0 = Ok r' ∧
             RingP.peeks 0%nat r'
             = (λ x, Ok (x, r'))
               <$> drop 1 (survivors (Z.to_nat (4 - 1)) ops).
Proof.
  apply (X9_ringp_is_the_queue_of_its_test 0%nat 4
           (RingP.mkRingP (replicate 4 0%nat) 3 0 0)).
  - unfold is_int. lia.
  - reflexivity.
Defined.

(** ** RingT *)

(** X10: after any sequence of [Add] and [Next] on a ring made by
    [NewRingT(M)] ([M] at most [2^61]), [Next()] returns the oldest stored
    pointer, removes it and leaves [nil] in every slot outside the stored
    region; on an empty ring it returns [nil] and there is still nothing
    stored.  [Peek(0)] returns the pointer that [Next()] would return and
    leaves the ring as it is.  [IsFull()] holds exactly when [M] elements
    are stored, and [MaxSize()] stays [M]. *)
Theorem X10_ringt_next_returns_the_oldest {T} M r0 (ops : list (op (option T))) :
  1 ≤ M ≤ 2 ^ 61 → RingT.NewRingT M = Ok r0 →
  ∃ r, RingT.run ops r0 = Ok r ∧
       RingT.MaxSize r = M ∧
       RingT.IsFull r = bool_decide (len (survivors (Z.to_nat M) ops) = M) ∧
       RingT.Peek r 0 = Ok (hd None (survivors (Z.to_nat M) ops), r) ∧
       ∃ r', RingT.Next r = Ok (hd None (survivors (Z.to_nat M) ops), r') ∧
             RingT.run (ops ++ [OpNext]) r0 = Ok r' ∧
             RingT.Len r' = Z.max 0 (RingT.Len r - 1) ∧
             RingT.peeks r'
             = (λ x, Ok (x, r')) <$> drop 1 (survivors (Z.to_nat M) ops) ∧
             RingT.cleared r'.
Proof.
  intros HM Hnew.
  destruct (RingTFacts.ringt_NewRingT_spec M r0 Hnew HM) as (Hinv0 & Hc0 & Hm0).
  destruct (RingTFacts.ringt_run_spec ops r0 Hinv0) as (r & E & Hinv & Hm & Hc).
  rewrite Hc0, Hm0 in Hc. fold (survivors (Z.to_nat M) ops) in Hc.
  pose proof Hinv as (Hwf & (_ & HLM & _) & Hcl).
  pose proof (RingTFacts.ringt_Len_range r Hwf) as Hl.
  pose proof (RingTFacts.ringt_content_length r Hwf) as Hlen.
  destruct (RingTFacts.ringt_Next_spec r Hwf)
    as (r' & E' & Hwf' & Hc' & HL' & _ & _ & _ & _ & Hcl').
  exists r. rewrite <- Hc. split_and!; try done.
  - unfold RingT.MaxSize. congruence.
  - unfold RingT.IsFull. rewrite Hm, Hm0. unfold len.
    destruct (Z.eqb_spec (RingT.Len r) M); case_bool_decide; (done || lia).
  - destruct (RingT.content r) as [|x q] eqn:Hq.
    + apply RingTFacts.ringt_Peek_out; [done|lia|]. simpl in Hlen. lia.
    + apply RingTFacts.ringt_Peek_in; [done| |by rewrite Hq]. simpl in Hlen. lia.
  - exists r'. split_and!; try done.
    + clear -E E'. revert r0 E. induction ops as [|o ops IH]; intros r0 E; simpl in *.
      * injection E as ->. by rewrite E'.
      * destruct (RingT.step r0 o); [|done..]. by apply IH.
    + rewrite <- Hc'. by apply RingTFacts.ringt_peeks_spec.
    + by apply Hcl'.
Qed.

Lemma X10_ringt_next_returns_the_oldest_witness :
  let ops := [OpAdd (Some 1); OpAdd (Some 2); OpAdd (Some 3); OpAdd (Some 4)] in
  let r0 := RingT.mkRingT [] 0 0 0 3 in
  ∃ r, RingT.run ops r0 = Ok r ∧
       RingT.MaxSize r = 3 ∧
       RingT.IsFull r = bool_decide (len (survivors (Z.to_nat 3) ops) = 3) ∧
       RingT.Peek r 0 = Ok (hd None (survivors (Z.to_nat 3) ops), r) ∧
       ∃ r', RingT.Next r = Ok (hd None (survivors (Z.to_nat 3) ops), r') ∧
             RingT.run (ops ++ [OpNext]) r0 = Ok r' ∧
             RingT.Len r' = Z.max 0 (RingT.Len r - 1) ∧
             RingT.peeks r'
             = (λ x, Ok (x, r')) <$> drop 1 (survivors (Z.to_nat 3) ops) ∧
             RingT.cleared r'.
Proof.
  apply (X10_ringt_next_returns_the_oldest (T:=Z) 3 (RingT.mkRingT [] 0 0 0 3)).
  - lia.
  - reflexivity.
Defined.

(** X11: "the maxSize is not allocated up front": after any sequence of
    [Add] and [Next] on a ring made by [NewRingT(M)] ([M] at most [2^61])
    the storage is absent, which is so before the first [Add], or has
    [2^k] slots with [k >= 1] and [mask = 2^k - 1]; it has at most [2*M]
    slots and at most twice as many slots as [Add] was called; and more
    slots than elements are stored, so that one slot is always free. *)
Theorem X11_ringt_storage_grows_with_use {T} M r0 (ops : list (op (option T))) :
  1 ≤ M ≤ 2 ^ 61 → RingT.NewRingT M = Ok r0 →
  ∃ r, RingT.run ops r0 = Ok r ∧
       ((RingT.items r = [] ∧ RingT.Len r = 0) ∨
        (∃ k, 1 ≤ k ≤ 62 ∧ len (RingT.items r) = 2 ^ k ∧
              RingT.mask r = 2 ^ k - 1 ∧ RingT.Len r < 2 ^ k)) ∧
       len (RingT.items r) ≤ 2 * M ∧
       len (RingT.items r) ≤ 2 * len (inserted ops) ∧
       (inserted ops = [] → RingT.items r = []).
Proof.
  intros HM Hnew.
  destruct (RingTFacts.ringt_NewRingT_spec M r0 Hnew HM) as (Hinv0 & Hc0 & Hm0).
  assert (Hi0 : RingT.items r0 = []).
  { revert Hnew. unfold RingT.NewRingT. destruct (M <? 1); [done|]. by intros [= <-]. }
  assert (HL0 : RingT.Len r0 = 0).
  { apply RingTFacts.ringt_Len_empty; [done|apply Hinv0]. }
  destruct (RingTMore.ringt_run_storage ops r0 0 Hinv0)
    as (r & E & Hinv & Hm & _ & Hsz); [lia|rewrite Hi0; done|].
  pose proof Hinv as (Hwf & (_ & _ & Hsz2) & _).
  pose proof (RingTFacts.ringt_Len_range r Hwf) as Hl.
  exists r. split_and!; try done.
  - destruct Hwf as [(Hi & _)|(k & Hk & Hlen & Hmask & _)].
    + left. split; [done|]. apply RingTFacts.ringt_Len_empty; [done|apply Hinv].
    + right. exists k. pose proof (pow2_bounds k ltac:(lia)).
      split_and!; try done; lia.
  - rewrite Hm, Hm0 in Hsz2. done.
  - intros Hno. rewrite Hno in Hsz. apply nil_length_inv.
    unfold len in Hsz. simpl in Hsz. lia.
Qed.

Lemma X11_ringt_storage_grows_with_use_witness :
  let ops := [OpAdd (Some 1); OpAdd (Some 2); OpNext; OpAdd (Some 3)] in
  ∃ r, RingT.run ops (RingT.mkRingT [] 0 0 0 100) = Ok r ∧
       ((RingT.items r = [] ∧ RingT.Len r = 0) ∨
        (∃ k, 1 ≤ k ≤ 62 ∧ len (RingT.items r) = 2 ^ k ∧
              RingT.mask r = 2 ^ k - 1 ∧ RingT.Len r < 2 ^ k)) ∧
       len (RingT.items r) ≤ 2 * 100 ∧
       len (RingT.items r) ≤ 2 * len (inserted ops) ∧
       (inserted ops = [] → RingT.items r = []).
Proof.
  apply (X11_ringt_storage_grows_with_use (T:=Z) 100 (RingT.mkRingT [] 0 0 0 100)).
  - lia.
  - reflexivity.
Defined.

(** ** WeightedRingT *)

(** X12: the ring passes [validate] of its test after every sequence of
    at most [2^58] calls of [Add] and [Next] on [NewWeightedRingT(W)].
    Beside the ring the test keeps a queue [val] of the elements with
    their weights and the total [valW]; its [add] drops the oldest
    elements while [valW + weight > MaxWeight] and the queue is not empty,
    then appends, and its [chomp] drops the oldest.  No call on the ring
    panics or loops forever, and afterwards [Len()] is [len(val)],
    [Weight()] is [valW], and [peek(i)] for [i < len(val)] returns the
    [i]-th element of [val] and its weight and leaves the ring as it is.
    So [Add] evicts the oldest elements, and only as many as are needed
    for the new weight to fit. *)
Theorem X12_weighted_ring_is_the_queue_of_its_test {T} W
    (ops : list (WeightedRingT.wop T)) :
  len ops ≤ 2 ^ 58 →
  ∃ r, WeightedRingT.run ops (WeightedRingT.NewWeightedRingT W) = Ok r ∧
       WeightedRingT.MaxWeight r = W ∧
       WeightedRingT.Len r = len (WeightedRingT.ref_run W ops).1 ∧
       WeightedRingT.Weight r = (WeightedRingT.ref_run W ops).2 ∧
       (∀ i w x, (WeightedRingT.ref_run W ops).1 !! i = Some (w, x) →
                 WeightedRingT.peek r (Z.of_nat i) = Ok (x, w, r)).
Proof.
  intros Hops.
  pose proof (WeightedRingTFacts.wring_New_inv (T:=T) W) as Hinv0.
  destruct (WeightedRingTMore.wring_run_exact ops (WeightedRingT.NewWeightedRingT W) 0 Hinv0)
    as (r & E & Hinv & Hm & Hp); [done|done|done|lia|].
  change (fold_left _ ops _) with (WeightedRingT.ref_run W ops) in Hp.
  pose proof Hinv as (Hwf & _).
  pose proof (WeightedRingTFacts.wring_Len_range r Hwf) as Hl.
  pose proof (WeightedRingTMore.wring_pairs_length r Hwf) as Hpl.
  exists r. rewrite <- Hp. cbn [fst snd]. split_and!; try done.
  - unfold len. lia.
  - intros i w x Hi. apply lookup_lt_Some in Hi as Hlt.
    unfold WeightedRingT.pairs in Hi. apply lookup_zip_with_Some in Hi
      as (w' & x' & [= -> ->] & Hw & Hx).
    apply WeightedRingTFacts.wring_peek_in; [done|lia|by rewrite Nat2Z.id..].
Qed.

Lemma X12_weighted_ring_is_the_queue_of_its_test_witness :
  let ops := [WeightedRingT.WAdd 2 (Some 1); WeightedRingT.WAdd 3 (Some 2);
              WeightedRingT.WAdd 4 (Some 3); WeightedRingT.WAdd 3 (Some 4);
              WeightedRingT.WNext] in
  ∃ r, WeightedRingT.run ops (WeightedRingT.NewWeightedRingT 10) = Ok r ∧
       WeightedRingT.MaxWeight r = 10 ∧
       WeightedRingT.Len r = len (WeightedRingT.ref_run 10 ops).1 ∧
       WeightedRingT.Weight r = (WeightedRingT.ref_run 10 ops).2 ∧
       (∀ i w x, (WeightedRingT.ref_run 10 ops).1 !! i = Some (w, x) →
                 WeightedRingT.peek r (Z.of_nat i) = Ok (x, w, r)).
Proof.
  apply (X12_weighted_ring_is_the_queue_of_its_test (T:=Z) 10
           [WeightedRingT.WAdd 2 (Some 1); WeightedRingT.WAdd 3 (Some 2);
            WeightedRingT.WAdd 4 (Some 3); WeightedRingT.WAdd 3 (Some 4);
            WeightedRingT.WNext]).
  vm_compute. discriminate.
Defined.

(** X13: the ring passes the checks of [chomp] of its test: after every
    sequence of at most [2^58] calls on [NewWeightedRingT(W)], [Next()]
    on a ring that holds something returns [true], the oldest element and
    its weight, removes the element and takes its weight off [Weight()];
    on an empty ring it returns [(false, nil, 0)] and changes nothing. *)
Theorem X13_weighted_next_returns_the_oldest {T} W
    (ops : list (WeightedRingT.wop T)) :
  len ops ≤ 2 ^ 58 →
  ∃ r r', WeightedRingT.run ops (WeightedRingT.NewWeightedRingT W) = Ok r ∧
          WeightedRingT.Next r
          = Ok (match (WeightedRingT.ref_run W ops).1 with
                | [] => (false, None, 0)
                | (w, x) :: _ => (true, x, w)
                end, r') ∧
          (WeightedRingT.pairs r', WeightedRingT.Weight r')
          = WeightedRingT.ref_chomp (WeightedRingT.ref_run W ops) ∧
          (∀ w x q, (WeightedRingT.ref_run W ops).1 = (w, x) :: q →
                    WeightedRingT.pairs r' = q ∧
                    WeightedRingT.Weight r' = iwrap (WeightedRingT.Weight r - w) ∧
                    WeightedRingT.Len r' = WeightedRingT.Len r - 1) ∧
          ((WeightedRingT.ref_run W ops).1 = [] → r' = r).
Proof.
  intros Hops.
  pose proof (WeightedRingTFacts.wring_New_inv (T:=T) W) as Hinv0.
  destruct (WeightedRingTMore.wring_run_exact ops (WeightedRingT.NewWeightedRingT W) 0 Hinv0)
    as (r & E & Hinv & Hm & Hp); [done|done|done|lia|].
  change (fold_left _ ops _) with (WeightedRingT.ref_run W ops) in Hp.
  pose proof Hinv as (Hwf & _ & Hsum).
  pose proof (WeightedRingTFacts.wring_Len_range r Hwf) as Hl.
  pose proof (WeightedRingTMore.wring_pairs_length r Hwf) as Hpl.
  pose proof (WeightedRingTMore.wring_pairs_fst r Hwf) as Hfst.
  pose proof (WeightedRingTMore.wring_pairs_snd r Hwf) as Hsnd.
  destruct (WeightedRingTMore.wring_Next_pairs r Hinv)
    as (r' & E' & Hinv' & Hp' & HL' & _).
  exists r, r'. rewrite <- Hp. cbn [fst]. split_and!; try done.
  - rewrite E', <- Hfst, <- Hsnd. f_equal. f_equal.
    destruct (WeightedRingT.pairs r) as [|[w x] q]; simpl in *.
    + by destruct (Z.eqb_spec (WeightedRingT.Len r) 0); [|lia].
    + by destruct (Z.eqb_spec (WeightedRingT.Len r) 0); [lia|].
  - intros w x q Hq. rewrite Hq in Hp', Hpl. unfold WeightedRingT.ref_chomp in Hp'.
    cbn [fst snd] in Hp'. injection Hp' as -> Hw. simpl in Hpl.
    unfold WeightedRingT.Weight. split_and!; [done..|lia].
  - intros Hnil. rewrite Hnil in Hpl. simpl in Hpl.
    revert E'. unfold WeightedRingT.Next.
    destruct (Z.eqb_spec (WeightedRingT.Len r) 0); [|lia]. intros Heq. congruence.
Qed.

Lemma X13_weighted_next_returns_the_oldest_witness :
  let ops := [WeightedRingT.WAdd 2 (Some 1); WeightedRingT.WAdd 3 (Some 2);
              WeightedRingT.WAdd 4 (Some 3); WeightedRingT.WAdd 3 (Some 4)] in
  ∃ r r', WeightedRingT.run ops (WeightedRingT.NewWeightedRingT 10) = Ok r ∧
          WeightedRingT.Next r
          = Ok (match (WeightedRingT.ref_run 10 ops).1 with
                | [] => (false, None, 0)
                | (w, x) :: _ => (true, x, w)
                end, r') ∧
          (WeightedRingT.pairs r', WeightedRingT.Weight r')
          = WeightedRingT.ref_chomp (WeightedRingT.ref_run 10 ops) ∧
          (∀ w x q, (WeightedRingT.ref_run 10 ops).1 = (w, x) :: q →
                    WeightedRingT.pairs r' = q ∧
                    WeightedRingT.Weight r' = iwrap (WeightedRingT.Weight r - w) ∧
                    WeightedRingT.Len r' = WeightedRingT.Len r - 1) ∧
          ((WeightedRingT.ref_run 10 ops).1 = [] → r' = r).
Proof.
  apply (X13_weighted_next_returns_the_oldest (T:=Z) 10
           [WeightedRingT.WAdd 2 (Some 1); WeightedRingT.WAdd 3 (Some 2);
            WeightedRingT.WAdd 4 (Some 3); WeightedRingT.WAdd 3 (Some 4)]).
  vm_compute. discriminate.
Defined.
